(** * github_star_crawler: partitioning, scheduling and the GraphQL client

    A shallow embedding of [partitioning.py], [github_client.py] and
    [crawler.py].  Python integers are unbounded, so they are [Z]; a
    [datetime.date] is its proleptic Gregorian ordinal ([date.toordinal]),
    also a [Z], so that [(b - a).days] is [b - a] and
    [d + timedelta(days=n)] is [d + n]; [None] is [option]'s [None]. *)

From Stdlib Require Import ZArith List Ascii String QArith Qminmax Qpower Lia Lqa Bool.
From stdpp Require Import gmap strings list.

Local Open Scope Z_scope.

(** ** partitioning.py *)

Module Partitioning.

(** A date as its ordinal. *)
Definition date := Z.

(** [date(2008, 1, 1).toordinal()]. *)
Definition EARLIEST_GITHUB_DATE : date := 733042.

Record SearchPartition := mkPartition {
  stars_min : Z;
  stars_max : Z;
  created_from : option date;
  created_to : option date
}.

#[global] Instance SearchPartition_eq_dec : EqDecision SearchPartition.
Proof. solve_decision. Defined.

(** [self.created_from and self.created_to]: a date is always truthy, so
    the test is on presence only. *)
Definition has_dates (p : SearchPartition) : bool :=
  match created_from p, created_to p with
  | Some _, Some _ => true
  | _, _ => false
  end.

Definition with_date_window (p : SearchPartition) (today earliest : date)
  : SearchPartition :=
  if has_dates p then p
  else mkPartition (stars_min p) (stars_max p) (Some earliest) (Some today).

Definition split_stars (p : SearchPartition)
  : option (SearchPartition * SearchPartition) :=
  if stars_min p >=? stars_max p then None
  else
    let midpoint := (stars_min p + stars_max p) / 2 in
    let high := mkPartition (midpoint + 1) (stars_max p)
                            (created_from p) (created_to p) in
    let low := mkPartition (stars_min p) midpoint
                           (created_from p) (created_to p) in
    Some (high, low).

Definition split_dates (p : SearchPartition)
  : option (SearchPartition * SearchPartition) :=
  match created_from p, created_to p with
  | Some cf, Some ct =>
      if cf >=? ct then None
      else
        let span_days := ct - cf in
        let midpoint := cf + span_days / 2 in
        let first := mkPartition (stars_min p) (stars_max p)
                                 (Some cf) (Some midpoint) in
        let second := mkPartition (stars_min p) (stars_max p)
                                  (Some (midpoint + 1)) (Some ct) in
        Some (first, second)
  | _, _ => None
  end.

Definition is_single_day (p : SearchPartition) : bool :=
  match created_from p, created_to p with
  | Some cf, Some ct => cf =? ct
  | _, _ => false
  end.

(** [(self.created_to - self.created_from).days], or 0 without dates. *)
Definition date_width (p : SearchPartition) : Z :=
  match created_from p, created_to p with
  | Some cf, Some ct => ct - cf
  | _, _ => 0
  end.

Definition priority_key (p : SearchPartition) : Z * Z * Z :=
  let width := stars_max p - stars_min p in
  (stars_max p, - width, - date_width p).

(** The closed integer range a partition covers on the score axis. *)
Definition in_stars (p : SearchPartition) (s : Z) : Prop :=
  stars_min p <= s <= stars_max p.

(** The closed range of days a date-bearing partition covers. *)
Definition in_dates (p : SearchPartition) (d : date) : Prop :=
  match created_from p, created_to p with
  | Some cf, Some ct => cf <= d <= ct
  | _, _ => False
  end.

(** The data-model invariant on the date bounds: both present or both
    absent, and ordered when present. *)
Definition dates_wf (p : SearchPartition) : Prop :=
  match created_from p, created_to p with
  | Some cf, Some ct => cf <= ct
  | None, None => True
  | _, _ => False
  end.

End Partitioning.

Import Partitioning.

(** ** Settings and the wire format

    [config.Settings], restricted to the fields the modelled code reads.
    [base_backoff_seconds] is a Python float; delays are idealised as
    rationals. *)

Record Settings := mkSettings {
  target_repo_count : Z;
  page_size : Z;
  min_stars : Z;
  max_partition_results : Z;
  max_retries : Z;
  base_backoff_seconds : Q;
  min_remaining_points : Z;
  min_request_interval_seconds : Q
}.

(** A repository node of a search page.  The fields that decide control
    flow are kept: [id] (absent, null or empty is falsy) and
    [stargazerCount] (absent or null makes [int(...)] raise). *)
Record RepoNode := mkNode {
  id : option string;
  stargazerCount : option Z
}.

Record PageInfo := mkPageInfo {
  hasNextPage : bool;
  endCursor : option string
}.

(** The [search] block of a response; [nodes] may be null and a list entry
    may be null. *)
Record SearchBlock := mkBlock {
  repositoryCount : option Z;
  totalCount : option Z;
  pageInfo : PageInfo;
  nodes : option (list (option RepoNode))
}.

(** The [rateLimit] block.  [_wait_from_rate_limit] reads the wall clock
    and draws a random jitter; its result for this block is carried in
    [reset_wait]. *)
Record RateLimit := mkRateLimit {
  remaining : Z;
  reset_wait : option Q
}.

Record Data := mkData {
  rateLimit : option RateLimit;
  search : option SearchBlock
}.

Record GqlError := mkGqlError {
  error_type : string;
  message : string
}.


(** ** github_client.py *)

Module Client.

Definition RETRYABLE_HTTP_CODES : list Z := [403; 429; 500; 502; 503; 504].
Definition MAX_SLEEP_SECONDS : Q := 3600 # 1.

(** [random.uniform(0.2, 0.8)]: the draw is an input of the model. *)
Definition jitter_in_range (j : Q) : Prop := (1 # 5 <= j /\ j <= 4 # 5)%Q.

(** [str.lower] and [str.upper] on the ASCII letters. *)
Definition lower_ascii (c : ascii) : ascii :=
  let n := nat_of_ascii c in
  if ((65 <=? n) && (n <=? 90))%nat then ascii_of_nat (n + 32) else c.

Definition upper_ascii (c : ascii) : ascii :=
  let n := nat_of_ascii c in
  if ((97 <=? n) && (n <=? 122))%nat then ascii_of_nat (n - 32) else c.

Fixpoint map_string (f : ascii -> ascii) (s : string) : string :=
  match s with
  | EmptyString => EmptyString
  | String c s' => String (f c) (map_string f s')
  end.

Definition lower (s : string) : string := map_string lower_ascii s.
Definition upper (s : string) : string := map_string upper_ascii s.

(** [needle in hay]. *)
Definition contains (needle hay : string) : bool :=
  match index 0 needle hay with
  | Some _ => true
  | None => false
  end.

Definition error_is_retryable (e : GqlError) : bool :=
  let ty := upper (error_type e) in
  let msg := lower (message e) in
  contains "rate limit" msg
  || contains "secondary rate limit" msg
  || contains "timeout" msg
  || contains "abuse" msg
  || bool_decide (ty ∈ ["RATE_LIMITED"; "SERVICE_UNAVAILABLE"; "ABUSE_DETECTED"]).

Definition _errors_are_retryable (errors : list GqlError) : bool :=
  existsb error_is_retryable errors.

Definition _compute_backoff (s : Settings) (attempt : Z) (jitter : Q) : Q :=
  let delay := (base_backoff_seconds s * (2 # 1) ^ (attempt - 1))%Q in
  Qmin (delay + jitter) MAX_SLEEP_SECONDS.

(** What one [session.post] gives back.  [header_wait] is the result of
    [_wait_from_headers] on the response headers (wall clock and jitter
    included); [json] is the decoded payload or the text of the
    [ValueError] raised by [response.json()]. *)
Record Payload := mkPayload {
  data : option Data;
  errors : list GqlError
}.

Record Response := mkResponse {
  status_code : Z;
  text : string;
  header_wait : option Q;
  json : string + Payload
}.

Inductive PostResult :=
| RequestException (exc : string)
| Responded (r : Response).

Inductive SleepReason :=
| network_error
| http_status (code : Z)
| invalid_json
| graphql_retryable_error
| low_rate_budget.

(** The errors [execute] raises, with the text of the Python message:
    - [HttpFailure c t]: "GitHub GraphQL request failed (c): t";
    - [GraphQLErrors es]: "GitHub GraphQL errors: es";
    - [RetriesExhausted e]: "GraphQL request failed after retries: e",
      where [e] is [last_error], printed as "None" when unset. *)
Inductive ClientError :=
| HttpFailure (code : Z) (body : string)
| GraphQLErrors (es : list GqlError)
| RetriesExhausted (last_error : option string).

(** The client's counters and the sleeps it has taken, oldest first:
    [sleeps] are those of [_sleep], [pacing] those of
    [_respect_min_request_interval]. *)
Record ClientState := mkClient {
  http_request_count : Z;
  successful_query_count : Z;
  sleeps : list (Q * SleepReason);
  pacing : list Q
}.

Definition _sleep (seconds : Q) (reason : SleepReason) (c : ClientState)
  : ClientState :=
  let bounded := Qmax 0 (Qmin seconds MAX_SLEEP_SECONDS) in
  if Qle_bool bounded 0 then c
  else mkClient (http_request_count c) (successful_query_count c)
                (sleeps c ++ [(bounded, reason)]) (pacing c).

Definition _sleep_if_rate_low (s : Settings) (rl : option RateLimit)
    (c : ClientState) : ClientState :=
  match rl with
  | None => c
  | Some r =>
      if remaining r >? min_remaining_points s then c
      else match reset_wait r with
           | Some wait => _sleep wait low_rate_budget c
           | None => c
           end
  end.

Definition count_request (c : ClientState) : ClientState :=
  mkClient (http_request_count c + 1) (successful_query_count c) (sleeps c)
           (pacing c).

Definition count_success (c : ClientState) : ClientState :=
  mkClient (http_request_count c) (successful_query_count c + 1) (sleeps c)
           (pacing c).

(** [_respect_min_request_interval], with [elapsed] the reading
    [time.monotonic() - self._last_request_at]: the wait is handed to
    [time.sleep] as it is, not to [_sleep]. *)
Definition _respect_min_request_interval (s : Settings) (elapsed : Q)
    (c : ClientState) : ClientState :=
  let remaining := (min_request_interval_seconds s - elapsed)%Q in
  if Qle_bool remaining 0 then c
  else mkClient (http_request_count c) (successful_query_count c)
                (sleeps c) (pacing c ++ [remaining]).

Definition empty_data : Data := mkData None None.

Section Execute.

Variable s : Settings.
(** The outcome of the request made at each attempt, the jitter drawn
    at each attempt, and the time the clock shows to have passed since
    the previous request when the attempt starts. *)
Variable post : Z -> PostResult.
Variable jitter : Z -> Q.
Variable elapsed : Z -> Q.

(** The body of [for attempt in range(1, max_retries + 1)], with [n] the
    number of attempts left. *)
Fixpoint execute_loop (n : nat) (attempt : Z) (last_error : option string)
    (c : ClientState) : (ClientError + Data) * ClientState :=
  match n with
  | O => (inl (RetriesExhausted last_error), c)
  | S n' =>
      let c := _respect_min_request_interval s (elapsed attempt) c in
      let c := count_request c in
      match post attempt with
      | RequestException exc =>
          let c := _sleep (_compute_backoff s attempt (jitter attempt))
                          network_error c in
          execute_loop n' (attempt + 1) (Some exc) c
      | Responded r =>
          if bool_decide (status_code r ∈ RETRYABLE_HTTP_CODES) then
            let wait := match header_wait r with
                        | Some w => w
                        | None => _compute_backoff s attempt (jitter attempt)
                        end in
            let c := _sleep wait (http_status (status_code r)) c in
            execute_loop n' (attempt + 1) last_error c
          else if status_code r >=? 400 then
            (inl (HttpFailure (status_code r) (text r)), c)
          else
            match json r with
            | inl exc =>
                let c := _sleep (_compute_backoff s attempt (jitter attempt))
                                invalid_json c in
                execute_loop n' (attempt + 1) (Some exc) c
            | inr payload =>
                let d := match data payload with
                         | Some d => d
                         | None => empty_data
                         end in
                let rate_limit := rateLimit d in
                match errors payload with
                | [] =>
                    let c := _sleep_if_rate_low s rate_limit c in
                    (inr d, count_success c)
                | es =>
                    if _errors_are_retryable es then
                      let wait :=
                        match rate_limit ≫= reset_wait with
                        | Some w => w
                        | None =>
                            match header_wait r with
                            | Some w => w
                            | None =>
                                _compute_backoff s attempt (jitter attempt)
                            end
                        end in
                      let c := _sleep wait graphql_retryable_error c in
                      execute_loop n' (attempt + 1) last_error c
                    else (inl (GraphQLErrors es), c)
                end
            end
      end
  end.

Definition execute (c : ClientState) : (ClientError + Data) * ClientState :=
  execute_loop (Z.to_nat (max_retries s)) 1 None c.

(** How one attempt ends. *)
Inductive AttemptKind :=
| NetworkFault (exc : string)
| RetryableStatus (code : Z)
| MalformedBody (exc : string)
| RetryableErrors (es : list GqlError)
| Fatal
| Success.

Definition classify (r : PostResult) : AttemptKind :=
  match r with
  | RequestException exc => NetworkFault exc
  | Responded r =>
      if bool_decide (status_code r ∈ RETRYABLE_HTTP_CODES) then
        RetryableStatus (status_code r)
      else if status_code r >=? 400 then Fatal
      else match json r with
           | inl exc => MalformedBody exc
           | inr payload =>
               match errors payload with
               | [] => Success
               | es => if _errors_are_retryable es then RetryableErrors es
                       else Fatal
               end
           end
  end.

Definition retryable (k : AttemptKind) : bool :=
  match k with
  | Fatal | Success => false
  | _ => true
  end.

(** The exception object an attempt leaves in [last_error], if any. *)
Definition raised_exception (k : AttemptKind) : option string :=
  match k with
  | NetworkFault exc | MalformedBody exc => Some exc
  | _ => None
  end.

End Execute.

End Client.

(** ** crawler.py *)

Module Crawler.

Record CrawlStats := mkStats {
  partitions_processed : Z;
  partitions_split : Z;
  partitions_skipped : Z;
  repos_persisted : Z;
  duplicate_repo_nodes : Z;
  max_star_count : Z
}.

Definition new_stats : CrawlStats := mkStats 0 0 0 0 0 0.

(** The query text of a request.  [to_query] renders a partition and the
    base qualifiers deterministically, so the request of a partition is
    identified by the partition; [_max_stars] sends the base qualifiers
    with the sort qualifier alone. *)
Inductive Query :=
| MaxStarsQuery
| PartitionQuery (p : SearchPartition).

(** The variables of [SEARCH_QUERY]. *)
Record Request := mkRequest {
  query : Query;
  first : Z;
  after : option string
}.

(** The exceptions the orchestrator can meet; [str_exn] is [str(exc)]. *)
Inductive Exn :=
| RuntimeError (msg : string)
| KeyError (key : string)
| TypeError (msg : string)
| IndexError (msg : string)
| StoreError (msg : string).

Definition str_exn (e : Exn) : string :=
  match e with
  | RuntimeError msg | TypeError msg | IndexError msg | StoreError msg => msg
  | KeyError key => "'" ++ key ++ "'"
  end.

(** The status column of a [crawl_runs] row. *)
Inductive RunStatus := running | succeeded | partial | failed.

(** The row [start_run] inserts and [finish_run] updates, with the number
    of [finish_run] calls made on it. *)
Record RunRecord := mkRun {
  run_target : Z;
  run_status : RunStatus;
  run_repo_count : Z;
  run_partition_count : Z;
  run_split_count : Z;
  run_error : option string;
  finish_calls : nat
}.

(** A row handed to [upsert_page]: the node id and its star count (the
    other columns are copied from the node). *)
Record Row := mkRow {
  row_id : string;
  row_stars : Z
}.

(** A heap item [(-star_max, star_width, date_width, counter, partition)]. *)
Record Entry := mkEntry {
  neg_star_max : Z;
  star_width : Z;
  entry_date_width : Z;
  seq : Z;
  partition : SearchPartition
}.

(** Python's tuple [<] on two heap items: lexicographic.  The fifth
    component is reached only when the first four tie, which the counter
    rules out (see [queue_wf]); a partition has no order in Python. *)
Definition entry_ltb (a b : Entry) : bool :=
  (neg_star_max a <? neg_star_max b)
  || ((neg_star_max a =? neg_star_max b)
      && ((star_width a <? star_width b)
          || ((star_width a =? star_width b)
              && ((entry_date_width a <? entry_date_width b)
                  || ((entry_date_width a =? entry_date_width b)
                      && (seq a <? seq b)))))).

(** [heapq] is the standard library's; it is modelled by its contract: the
    heap is a bag of items, [heappush] adds one, [heappop] removes and
    returns the smallest. *)
Definition heappush (q : list Entry) (e : Entry) : list Entry := q ++ [e].

Fixpoint heappop (q : list Entry) : option (Entry * list Entry) :=
  match q with
  | [] => None
  | e :: q' =>
      match heappop q' with
      | None => Some (e, [])
      | Some (m, rest) =>
          if entry_ltb m e then Some (m, e :: rest) else Some (e, q')
      end
  end.

(** What a run leaves behind, in order: the requests passed to
    [github.execute], the pages whose nodes the ingest loop went through,
    and the non-empty pages written by [upsert_page]. *)
Inductive Event :=
| Requested (r : Request)
| Ingesting (page : list (option RepoNode))
| Upserted (rows : list Row).

(** The crawler's attribute [_queue_counter], the local variables of
    [crawl_once] that outlive a loop iteration, the run's row in the
    store, and the trace. *)
Record State := mkState {
  stats : CrawlStats;
  seen_repo_nodes : gset string;
  queue : list Entry;
  _queue_counter : Z;
  run : RunRecord;
  trace : list Event
}.

Definition set_stats (f : CrawlStats -> CrawlStats) (st : State) : State :=
  mkState (f (stats st)) (seen_repo_nodes st) (queue st) (_queue_counter st)
          (run st) (trace st).

Definition set_seen (s : gset string) (st : State) : State :=
  mkState (stats st) s (queue st) (_queue_counter st) (run st) (trace st).

Definition set_queue (q : list Entry) (st : State) : State :=
  mkState (stats st) (seen_repo_nodes st) q (_queue_counter st)
          (run st) (trace st).

Definition set_counter (c : Z) (st : State) : State :=
  mkState (stats st) (seen_repo_nodes st) (queue st) c (run st) (trace st).

Definition set_run (r : RunRecord) (st : State) : State :=
  mkState (stats st) (seen_repo_nodes st) (queue st) (_queue_counter st)
          r (trace st).

Definition log (e : Event) (st : State) : State :=
  mkState (stats st) (seen_repo_nodes st) (queue st) (_queue_counter st)
          (run st) (trace st ++ [e]).

(** *** The monad: state, exceptions, and running out of fuel *)

Inductive Result (A : Type) :=
| Ok (a : A)
| Raise (e : Exn)
| OutOfFuel.
Arguments Ok {A} a.
Arguments Raise {A} e.
Arguments OutOfFuel {A}.

Definition M (A : Type) : Type := State -> Result A * State.

Definition ret {A} (a : A) : M A := fun st => (Ok a, st).
Definition raise {A} (e : Exn) : M A := fun st => (Raise e, st).
Definition out_of_fuel {A} : M A := fun st => (OutOfFuel, st).
Definition get : M State := fun st => (Ok st, st).
Definition modify (f : State -> State) : M unit := fun st => (Ok tt, f st).

Definition bind {A B} (k : A -> M B) (m : M A) : M B :=
  fun st =>
    match m st with
    | (Ok a, st') => k a st'
    | (Raise e, st') => (Raise e, st')
    | (OutOfFuel, st') => (OutOfFuel, st')
    end.

#[global] Instance M_bind : MBind M := @bind.

(** *** Pure helpers *)

Definition _split_partition (p : SearchPartition) (today : date)
  : option (SearchPartition * SearchPartition) :=
  match split_stars p with
  | Some star_split => Some star_split
  | None =>
      let with_dates := with_date_window p today EARLIEST_GITHUB_DATE in
      if bool_decide (with_dates <> p) then split_dates with_dates
      else split_dates p
  end.

(** [search.get("repositoryCount")], then [search.get("totalCount")]. *)
Definition _partition_count (search : SearchBlock) : M Z :=
  match repositoryCount search with
  | Some count => ret count
  | None =>
      match totalCount search with
      | Some count => ret count
      | None => raise (RuntimeError
                         "Missing repository count in GraphQL response.")
      end
  end.

(** [search_block["nodes"] or []]. *)
Definition nodes_or_empty (search : SearchBlock) : list (option RepoNode) :=
  match nodes search with
  | Some l => l
  | None => []
  end.

(** The id of a node when [node and node.get("id")] is truthy. *)
Definition truthy_id (node : option RepoNode) : option string :=
  match node with
  | Some n =>
      match id n with
      | Some i => if bool_decide (i = "") then None else Some i
      | None => None
      end
  | None => None
  end.

Definition _build_repo_row (node_id : string) (node : option RepoNode)
  : M Row :=
  match node ≫= stargazerCount with
  | Some n => ret (mkRow node_id n)
  | None => raise (TypeError "int() argument must be a number")
  end.

(** The row as the [UPDATE] of a [finish_run] call leaves it. *)
Definition finished (status : RunStatus) (st : State)
    (error_message : option string) : RunRecord :=
  mkRun (run_target (run st)) status
        (repos_persisted (stats st)) (partitions_processed (stats st))
        (partitions_split (stats st)) error_message
        (S (finish_calls (run st))).

(** The row after a [finish_run] call that raised: nothing was
    committed, the call is counted. *)
Definition attempted (r : RunRecord) : RunRecord :=
  mkRun (run_target r) (run_status r) (run_repo_count r)
        (run_partition_count r) (run_split_count r) (run_error r)
        (S (finish_calls r)).

Section Orchestrator.

Variable settings : Settings.
(** [datetime.now(timezone.utc).date()] at the start of the run. *)
Variable today : date.
(** What [github.execute] answers to the [n]-th request of the run:
    an exception or the decoded [data]. *)
Variable execute : nat -> Request -> Exn + Data.
(** Whether writing one more page after [n] written pages fails. *)
Variable upsert_fault : nat -> option Exn.
(** Whether the call of [store.finish_run] made after [n] earlier calls
    in the run raises, and what. *)
Variable finish_fault : nat -> option Exn.

Definition requests (t : list Event) : list Request :=
  omap (fun e => match e with Requested r => Some r | _ => None end) t.

Definition upserted (t : list Event) : list (list Row) :=
  omap (fun e => match e with Upserted rows => Some rows | _ => None end) t.

Definition ingested (t : list Event) : list (list (option RepoNode)) :=
  omap (fun e => match e with Ingesting page => Some page | _ => None end) t.

Definition github_execute (r : Request) : M Data :=
  fun st =>
    let n := length (requests (trace st)) in
    match execute n r with
    | inl e => (Raise e, log (Requested r) st)
    | inr d => (Ok d, log (Requested r) st)
    end.

Definition _search_page (q : Query) (page_size : Z) (cursor : option string)
  : M SearchBlock :=
  d ← github_execute (mkRequest q page_size cursor);
  match search d with
  | Some block => ret block
  | None => raise (KeyError "search")
  end.

Definition first_star_count (l : list (option RepoNode)) : option Z :=
  head (omap (fun node => node ≫= stargazerCount) l).

Definition _max_stars : M Z :=
  d ← github_execute (mkRequest MaxStarsQuery 1 None);
  match search d with
  | None => raise (KeyError "search")
  | Some block =>
      match first_star_count (nodes_or_empty block) with
      | Some n => ret n
      | None => raise (RuntimeError
          "Could not determine maximum stargazer count from GitHub.")
      end
  end.

Definition _push_partition (p : SearchPartition) : M unit :=
  modify (fun st =>
    let star_max := fst (fst (priority_key p)) in
    let star_width := stars_max p - stars_min p in
    let date_width :=
      match created_from p, created_to p with
      | Some created_from, Some created_to => created_to - created_from
      | _, _ => 0
      end in
    let e := mkEntry (- star_max) star_width date_width
                     (_queue_counter st) p in
    set_counter (_queue_counter st + 1)
      (set_queue (heappush (queue st) e) st)).

(** [store.upsert_page]: nothing is done for an empty page; otherwise the
    page is committed whole or the fault is raised. *)
Definition upsert_page (rows : list Row) : M unit :=
  match rows with
  | [] => ret tt
  | _ =>
      fun st =>
        match upsert_fault (length (upserted (trace st))) with
        | Some e => (Raise e, st)
        | None => (Ok tt, log (Upserted rows) st)
        end
  end.

(** [for node in nodes] of [_ingest_partition]: [repo_rows] and
    [duplicates] are the loop's accumulators, the seen set is shared. *)
Fixpoint ingest_nodes (l : list (option RepoNode)) (repo_rows : list Row)
    (duplicates : Z) : M (list Row * Z) :=
  match l with
  | [] => ret (repo_rows, duplicates)
  | node :: rest =>
      match truthy_id node with
      | None => ingest_nodes rest repo_rows duplicates
      | Some node_id =>
          st ← get;
          if bool_decide (node_id ∈ seen_repo_nodes st) then
            ingest_nodes rest repo_rows (duplicates + 1)
          else
            modify (set_seen ({[node_id]} ∪ seen_repo_nodes st));;
            row ← _build_repo_row node_id node;
            ingest_nodes rest (repo_rows ++ [row]) duplicates
      end
  end.

(** [while persisted < row_limit] of [_ingest_partition]. *)
Fixpoint ingest_loop (fuel : nat) (q : Query) (row_limit : Z)
    (cursor : option string) (persisted duplicates : Z)
    (search_block : option SearchBlock) : M (Z * Z) :=
  match fuel with
  | O => out_of_fuel
  | S fuel' =>
      if persisted <? row_limit then
        block ← match search_block with
                 | Some block => ret block
                 | None =>
                     let page_size :=
                       Z.min (page_size settings) (row_limit - persisted) in
                     _search_page q page_size cursor
                 end;
        match nodes_or_empty block with
        | [] => ret (persisted, duplicates)
        | l =>
            modify (log (Ingesting l));;
            '(repo_rows, duplicates) ← ingest_nodes l [] duplicates;
            upsert_page repo_rows;;
            let persisted := persisted + Z.of_nat (length repo_rows) in
            if negb (hasNextPage (pageInfo block)) then
              ret (persisted, duplicates)
            else
              match endCursor (pageInfo block) with
              | None => ret (persisted, duplicates)
              | Some c =>
                  ingest_loop fuel' q row_limit (Some c)
                              persisted duplicates None
              end
        end
      else ret (persisted, duplicates)
  end.

Definition _ingest_partition (fuel : nat) (q : Query) (row_limit : Z)
    (first_search_block : option SearchBlock) : M (Z * Z) :=
  ingest_loop fuel q row_limit None 0 0 first_search_block.

Definition add_processed (s : CrawlStats) : CrawlStats :=
  mkStats (partitions_processed s + 1) (partitions_split s)
          (partitions_skipped s) (repos_persisted s)
          (duplicate_repo_nodes s) (max_star_count s).

Definition add_split (s : CrawlStats) : CrawlStats :=
  mkStats (partitions_processed s) (partitions_split s + 1)
          (partitions_skipped s) (repos_persisted s)
          (duplicate_repo_nodes s) (max_star_count s).

Definition add_skipped (s : CrawlStats) : CrawlStats :=
  mkStats (partitions_processed s) (partitions_split s)
          (partitions_skipped s + 1) (repos_persisted s)
          (duplicate_repo_nodes s) (max_star_count s).

Definition add_ingested (persisted duplicates : Z) (s : CrawlStats)
  : CrawlStats :=
  mkStats (partitions_processed s) (partitions_split s)
          (partitions_skipped s) (repos_persisted s + persisted)
          (duplicate_repo_nodes s + duplicates) (max_star_count s).

Definition set_max_star_count (n : Z) (s : CrawlStats) : CrawlStats :=
  mkStats (partitions_processed s) (partitions_split s)
          (partitions_skipped s) (repos_persisted s)
          (duplicate_repo_nodes s) n.

(** One iteration of the [while] loop of [crawl_once], for the item
    [heappop] returned and the rest of the heap. *)
Definition process_partition (fuel : nat) (e : Entry) (rest : list Entry)
  : M unit :=
  modify (set_queue rest);;
  let partition := partition e in
  modify (set_stats add_processed);;
  st ← get;
  let remaining := target_repo_count settings - repos_persisted (stats st) in
  let page_size := Z.min (page_size settings) remaining in
  let query_text := PartitionQuery partition in
  first_search_block ← _search_page query_text page_size None;
  partition_count ← _partition_count first_search_block;
  if partition_count =? 0 then modify (set_stats add_skipped)
  else
    let ingest :=
      '(persisted, duplicates) ←
        _ingest_partition fuel query_text remaining
                          (Some first_search_block);
      modify (set_stats (add_ingested persisted duplicates)) in
    if partition_count >? max_partition_results settings then
      match _split_partition partition today with
      | Some (child1, child2) =>
          modify (set_stats add_split);;
          _push_partition child1;;
          _push_partition child2
      | None => ingest
      end
    else ingest.

(** [while queue and stats.repos_persisted < target_repo_count]. *)
Fixpoint crawl_loop (fuel : nat) : M unit :=
  match fuel with
  | O => out_of_fuel
  | S fuel' =>
      st ← get;
      if negb (bool_decide (queue st = []))
         && (repos_persisted (stats st) <? target_repo_count settings) then
        match heappop (queue st) with
        | Some (e, rest) =>
            process_partition fuel' e rest;;
            crawl_loop fuel'
        | None => raise (IndexError "index out of range")
        end
      else ret tt
  end.

(** [store.finish_run]: the row is updated, or the call raises and the
    row stays as it was. *)
Definition finish_run (status : RunStatus) (error_message : option string)
  : M unit :=
  fun st =>
    match finish_fault (finish_calls (run st)) with
    | Some e => (Raise e, set_run (attempted (run st)) st)
    | None => (Ok tt, set_run (finished status st error_message) st)
    end.

(** The body of the [try] of [crawl_once]. *)
Definition crawl_body (fuel : nat) : M CrawlStats :=
  max_stars ← _max_stars;
  modify (set_stats (set_max_star_count max_stars));;
  modify (set_queue []);;
  _push_partition (mkPartition (min_stars settings) max_stars None None);;
  crawl_loop fuel;;
  st ← get;
  let status :=
    if repos_persisted (stats st) >=? target_repo_count settings
    then succeeded else partial in
  finish_run status None;;
  ret (stats st).

(** [crawl_once]: fresh statistics and seen set, a [running] row from
    [start_run], the body, and the [except Exception] handler that calls
    [finish_run] with [failed] and re-raises; an exception of that call
    replaces the one being handled.  [start_run] is taken not to fail: it
    runs before the [try], and a call that fails there has no row. *)
Definition start_run (st : State) : State :=
  mkState new_stats ∅ [] (_queue_counter st)
          (mkRun (target_repo_count settings) running 0 0 0 None 0) [].

Definition crawl_once (fuel : nat) : M CrawlStats :=
  fun st0 =>
    match crawl_body fuel (start_run st0) with
    | (Raise exc, st) =>
        (finish_run failed (Some (str_exn exc));; raise exc) st
    | other => other
    end.

End Orchestrator.

(** A crawler as [__init__] leaves it. *)
Definition new_crawler : State :=
  mkState new_stats ∅ [] 0 (mkRun 0 running 0 0 0 None 0) [].

End Crawler.

(** ** Notions used to state the properties of the client *)

Module ClientSpec.

Import Client.

(** [last_error] after a run of retryable attempts: the exception of the
    latest attempt that raised one; attempts that ended in a retryable
    status or in retryable GraphQL errors leave it as it was. *)
Fixpoint last_exception (post : Z -> PostResult) (n : nat) (attempt : Z)
    (last_error : option string) : option string :=
  match n with
  | O => last_error
  | S n' =>
      last_exception post n' (attempt + 1)
        (match raised_exception (classify (post attempt)) with
         | Some exc => Some exc
         | None => last_error
         end)
  end.

Definition unavailable (code : Z) : PostResult :=
  Responded (mkResponse code "" None (inl "")).

End ClientSpec.

(** ** Notions used to state the properties *)

Module CrawlSpec.

Import Crawler.

(** The width of the date range the order compares, in days: from the
    first day of the range to its last.  A partition without a date range
    has no days to compare and ranks as width 0. *)
Definition date_range_width (p : SearchPartition) : Z :=
  match created_from p, created_to p with
  | Some first_day, Some last_day => last_day - first_day
  | _, _ => 0
  end.

(** The order the queue is meant to serve partitions in: [p], pushed as
    the [i]-th partition, goes before [q], pushed as the [j]-th, when it
    has the higher [stars_max]; on a tie, the narrower score range; on a
    tie, the narrower date range; on a tie, the earlier push.  It is
    written on the bounds of the partitions, not on the key the code
    builds. *)
Definition served_before (p : SearchPartition) (i : nat)
    (q : SearchPartition) (j : nat) : Prop :=
  stars_max q < stars_max p \/
  (stars_max p = stars_max q /\
   (stars_max p - stars_min p < stars_max q - stars_min q \/
    (stars_max p - stars_min p = stars_max q - stars_min q /\
     (date_range_width p < date_range_width q \/
      (date_range_width p = date_range_width q /\ (i < j)%nat))))).

(** What the orchestrator does to its queue. *)
Inductive QueueOp :=
| Push (p : SearchPartition)
| Pop.

Definition apply_op (st : State) (op : QueueOp) : State :=
  match op with
  | Push p => snd (_push_partition p st)
  | Pop =>
      match heappop (queue st) with
      | Some (_, rest) => set_queue rest st
      | None => st
      end
  end.

Definition apply_ops (ops : list QueueOp) (st : State) : State :=
  fold_left apply_op ops st.

(** The partitions pushed by a sequence of operations, in push order. *)
Definition pushes (ops : list QueueOp) : list SearchPartition :=
  omap (fun op => match op with Push p => Some p | Pop => None end) ops.

(** The ids a run of the node loop adds rows for: the ids not seen
    before, each at its first occurrence. *)
Fixpoint fresh_ids (seen : gset string) (ids : list string) : list string :=
  match ids with
  | [] => []
  | i :: rest =>
      if bool_decide (i ∈ seen) then fresh_ids seen rest
      else i :: fresh_ids ({[i]} ∪ seen) rest
  end.

(** The truthy ids of a list of nodes, in order. *)
Definition node_ids (l : list (option RepoNode)) : list string :=
  omap truthy_id l.

(** The ids of the rows written so far, in order. *)
Definition upserted_ids (t : list Event) : list string :=
  row_id <$> concat (upserted t).

(** The truthy ids the ingest loop has gone through so far, in order. *)
Definition ingested_ids (t : list Event) : list string :=
  node_ids (concat (ingested t)).

(** The number of rows written so far. *)
Definition rows_written (t : list Event) : Z :=
  Z.of_nat (length (concat (upserted t))).

Definition entry_lt (a b : Entry) : Prop :=
  neg_star_max a < neg_star_max b \/
  (neg_star_max a = neg_star_max b /\
   (star_width a < star_width b \/
    (star_width a = star_width b /\
     (entry_date_width a < entry_date_width b \/
      (entry_date_width a = entry_date_width b /\ seq a < seq b))))).

(** The queue invariant: every item was built by [_push_partition] from
    its partition, carries the position of its push as sequence number,
    and no two items share one. *)
Definition item_wf (c0 : Z) (pushed : list SearchPartition) (e : Entry)
  : Prop :=
  neg_star_max e = - stars_max (partition e) /\
  star_width e = stars_max (partition e) - stars_min (partition e) /\
  entry_date_width e = date_range_width (partition e) /\
  exists i : nat, pushed !! i = Some (partition e) /\ seq e = c0 + Z.of_nat i.

Definition queue_wf (c0 : Z) (pushed : list SearchPartition) (st : State)
  : Prop :=
  _queue_counter st = c0 + Z.of_nat (length pushed) /\
  NoDup (seq <$> queue st) /\
  Forall (item_wf c0 pushed) (queue st).

Definition rows_of (e : Event) : list Row :=
  match e with Upserted rows => rows | _ => [] end.

Definition page_of (e : Event) : list (option RepoNode) :=
  match e with Ingesting l => l | _ => [] end.

(** The remote answers a request for [first] nodes with at most [first]
    nodes. *)
Definition bounded_pages (execute : nat -> Request -> Exn + Data) : Prop :=
  forall n r d block,
    execute n r = inr d -> search d = Some block ->
    Z.of_nat (length (nodes_or_empty block)) <= first r.

(** Every request for a page of a partition made so far asked for
    [min(page_size, target - rows written before it)] nodes. *)
Definition requests_within_target (s : Settings) (t : list Event) : Prop :=
  forall t1 r t2 p,
    t = t1 ++ Requested r :: t2 -> query r = PartitionQuery p ->
    first r = Z.min (page_size s) (target_repo_count s - rows_written t1).

(** What holds of a run at any point; in particular no id has been
    written twice. *)
Definition run_inv (s : Settings) (st : State) : Prop :=
  repos_persisted (stats st) <= rows_written (trace st) /\
  requests_within_target s (trace st) /\
  NoDup (upserted_ids (trace st)).

(** What holds whenever the [while] loop of [crawl_once] tests its
    condition: the counters agree with what was written, and what was
    written are the first occurrences of the ids gone through. *)
Definition loop_inv (s : Settings) (st : State) : Prop :=
  repos_persisted (stats st) = rows_written (trace st) /\
  requests_within_target s (trace st) /\
  seen_repo_nodes st = list_to_set (ingested_ids (trace st)) /\
  upserted_ids (trace st) = fresh_ids ∅ (ingested_ids (trace st)) /\
  duplicate_repo_nodes (stats st)
  = Z.of_nat (length (ingested_ids (trace st)))
    - Z.of_nat (length (upserted_ids (trace st))).

(** The fields the ingest loop leaves alone. *)
Definition ingest_frame (st st' : State) : Prop :=
  stats st' = stats st /\ queue st' = queue st /\
  _queue_counter st' = _queue_counter st /\ run st' = run st.

End CrawlSpec.

(** ** Reasoning about the monad *)

Module Hoare.

Import Crawler.

(** [post m st Q]: running [m] from [st] ends in a result and a state
    that satisfy [Q]. *)
Definition post {A} (m : M A) (st : State)
    (Q : Result A -> State -> Prop) : Prop :=
  Q (fst (m st)) (snd (m st)).

(** What [Q] asks of [m ≫= k], told by the result of [m]. *)
Definition after_bind {A B} (k : A -> M B) (Q : Result B -> State -> Prop)
    (r : Result A) (st : State) : Prop :=
  match r with
  | Ok a => post (k a) st Q
  | Raise e => Q (Raise e) st
  | OutOfFuel => Q OutOfFuel st
  end.

(** [m'] agrees with [m] wherever [m] does not run out of fuel. *)
Definition extends {A} (m m' : M A) : Prop :=
  forall st, fst (m st) <> OutOfFuel -> m' st = m st.

End Hoare.

(** ** Specifications of the orchestrator's loops *)

Module RunSpec.

Import Crawler CrawlSpec Hoare.

Section Specs.

Variable settings : Settings.
Variable execute : nat -> Request -> Exn + Data.

Let T := target_repo_count settings.
Let bounded := bounded_pages execute.

(** What the ingest loop is entitled to assume when it tests its
    condition with [persisted] rows written for the partition; the
    bounds rest on the remote keeping to the page size asked for. *)
Definition ingest_pre (row_limit persisted : Z)
    (search_block : option SearchBlock) (st : State) : Prop :=
  rows_written (trace st) + row_limit = T + persisted /\
  requests_within_target settings (trace st) /\
  seen_repo_nodes st = list_to_set (ingested_ids (trace st)) /\
  upserted_ids (trace st) = fresh_ids ∅ (ingested_ids (trace st)) /\
  (bounded ->
   persisted <= row_limit /\
   forall b, search_block = Some b ->
     persisted + Z.of_nat (length (nodes_or_empty b)) <= row_limit).

Definition ingest_post (row_limit duplicates : Z) (st : State)
    (r : Result (Z * Z)) (st' : State) : Prop :=
  ingest_frame st st' /\
  (requests_within_target settings (trace st') /\
   NoDup (upserted_ids (trace st'))) /\
  rows_written (trace st) <= rows_written (trace st') /\
  (bounded -> rows_written (trace st') <= T) /\
  match r with
  | Ok (persisted', duplicates') =>
      rows_written (trace st') + row_limit = T + persisted' /\
      seen_repo_nodes st' = list_to_set (ingested_ids (trace st')) /\
      upserted_ids (trace st') = fresh_ids ∅ (ingested_ids (trace st')) /\
      duplicates' - duplicates
      = (Z.of_nat (length (ingested_ids (trace st')))
         - Z.of_nat (length (ingested_ids (trace st))))
        - (Z.of_nat (length (upserted_ids (trace st')))
           - Z.of_nat (length (upserted_ids (trace st))))
  | _ => True
  end.

(** The requests the ingest loop makes are for later pages of its query:
    each carries a cursor.  The loop leaves the statistics, the queue, the
    counter and the run's row alone. *)
Definition later_pages (q : Query) (more : list Event) : Prop :=
  forall r, Requested r ∈ more -> query r = q /\ is_Some (after r).

(** ** One iteration of the crawl loop *)

Definition probe_request (e : Entry) (st : State) : Request :=
  mkRequest (PartitionQuery (partition e))
            (Z.min (page_size settings) (T - repos_persisted (stats st)))
            None.

(** The state in which the answer to the probe is examined. *)
Definition probed (e : Entry) (rest : list Entry) (st : State) : State :=
  log (Requested (probe_request e st))
      (set_stats add_processed (set_queue rest st)).

Definition iteration_post (st : State) (r : Result unit) (st' : State)
  : Prop :=
  run st' = run st /\
  run_inv settings st' /\
  rows_written (trace st) <= rows_written (trace st') /\
  (bounded -> rows_written (trace st') <= T) /\
  (r = Ok tt -> loop_inv settings st').

Definition crawl_loop_post (st : State) (r : Result unit) (st' : State)
  : Prop :=
  run st' = run st /\
  run_inv settings st' /\
  (bounded -> rows_written (trace st) <= T -> rows_written (trace st') <= T) /\
  (r = Ok tt -> loop_inv settings st').

(** ** A whole run *)

Definition max_stars_request : Request := mkRequest MaxStarsQuery 1 None.

(** The run's row as [start_run] inserts it. *)
Definition running_row : RunRecord := mkRun T running 0 0 0 None 0.

(** The run's row after a [finish_run] that went through, the last of
    [calls] calls. *)
Definition finished_row (status : RunStatus) (s : CrawlStats)
    (error_message : option string) (calls : nat) : RunRecord :=
  mkRun T status (repos_persisted s) (partitions_processed s)
        (partitions_split s) error_message calls.

(** The run's row when none of [calls] calls of [finish_run] went
    through. *)
Definition unfinished_row (calls : nat) : RunRecord :=
  mkRun T running 0 0 0 None calls.

Definition final_status (s : CrawlStats) : RunStatus :=
  if repos_persisted s >=? T then succeeded else partial.

(** How the body of the [try] leaves the row: finished by its one call
    of [finish_run], or untouched, or with that call failed. *)
Definition body_post (finish_fault : nat -> option Exn)
    (r : Result CrawlStats) (st : State) : Prop :=
  match r with
  | Ok stats' =>
      stats' = stats st /\ loop_inv settings st /\
      finish_fault 0%nat = None /\
      run st = finished_row (final_status stats') stats' None 1
  | Raise exc =>
      run st = running_row \/
      (finish_fault 0%nat = Some exc /\ run st = unfinished_row 1)
  | OutOfFuel => run st = running_row
  end.

(** How a call leaves the row.  When an exception is raised, the last of
    the one or two calls of [finish_run] decides: if it went through the
    row is [failed] with the text of the exception raised; if it raised,
    its exception is the one raised and the row is still [running]. *)
Definition crawl_post (finish_fault : nat -> option Exn)
    (r : Result CrawlStats) (st : State) : Prop :=
  run_inv settings st /\
  (bounded -> 0 <= T -> rows_written (trace st) <= T) /\
  match r with
  | Ok stats' =>
      stats' = stats st /\ loop_inv settings st /\
      finish_fault 0%nat = None /\
      run st = finished_row (final_status stats') stats' None 1
  | Raise exc =>
      exists calls : nat,
        (calls = 1%nat \/
         (calls = 2%nat /\ is_Some (finish_fault 0%nat))) /\
        match finish_fault (pred calls) with
        | None =>
            run st
            = finished_row failed (stats st) (Some (str_exn exc)) calls
        | Some e => exc = e /\ run st = unfinished_row calls
        end
  | OutOfFuel => run st = running_row
  end.

(** The count [_partition_count] reads off a search block. *)
Definition count_of (block : SearchBlock) : option Z :=
  match repositoryCount block with
  | Some count => Some count
  | None => totalCount block
  end.

End Specs.

End RunSpec.

(** ** Concrete runs *)

Module Examples.

Import Crawler.

Definition no_fault : nat -> option Exn := fun _ => None.

(** 2024-01-01. *)
Definition a_day : date := 738886.

Definition repo (i : string) (n : Z) : option RepoNode :=
  Some (mkNode (Some i) (Some n)).

Definition page (count : Z) (l : list (option RepoNode)) (more : bool)
  : Exn + Data :=
  inr (mkData None
         (Some (mkBlock (Some count) None
                  (mkPageInfo more (if more then Some "next" else None))
                  (Some l)))).

(** A remote on which every partition, however narrow, counts 5000
    repositories of 7 stars. *)
Definition crowded_settings : Settings :=
  mkSettings 1 100 7 1000 8 (3 # 2) 100 (7 # 20).

Definition crowded_remote (n : nat) (r : Request) : Exn + Data :=
  match query r with
  | MaxStarsQuery => page 1 [repo "a" 7] false
  | PartitionQuery _ => page 5000 [repo "a" 7] false
  end.

(** A remote with nothing but the most starred repository. *)
Definition default_settings : Settings :=
  mkSettings 100000 100 0 1000 8 (3 # 2) 100 (7 # 20).

Definition empty_remote (n : nat) (r : Request) : Exn + Data :=
  match query r with
  | MaxStarsQuery => page 1 [repo "a" 7] false
  | PartitionQuery _ => page 0 [] false
  end.

(** A remote on which the partitions [6..10] and [0..5] both return the
    repository [b]; the cap is 2 and the root counts 3. *)
Definition overlap_settings : Settings :=
  mkSettings 10 100 0 2 8 (3 # 2) 100 (7 # 20).

Definition overlap_remote (n : nat) (r : Request) : Exn + Data :=
  match query r with
  | MaxStarsQuery => page 1 [repo "a" 10] false
  | PartitionQuery p =>
      if stars_min p =? 6 then page 2 [repo "a" 10; repo "b" 6] false
      else if stars_max p =? 5 then page 2 [repo "b" 6; repo "c" 1] false
      else page 3 [repo "a" 10] false
  end.

(** A remote that pages through five repositories and keeps to the page
    size asked for; it rejects a negative page size. *)
Definition paging_settings : Settings :=
  mkSettings 3 2 0 1000 8 (3 # 2) 100 (7 # 20).

Definition five_repos : list (option RepoNode) :=
  [repo "a" 9; repo "b" 8; repo "c" 7; repo "d" 6; repo "e" 5].

Definition paging_remote (n : nat) (r : Request) : Exn + Data :=
  if first r <? 0 then inl (RuntimeError "GitHub GraphQL errors")
  else
    let l := match after r with
             | None => five_repos
             | Some _ => drop 2 five_repos
             end in
    page 5 (take (Z.to_nat (first r)) l) true.



(** A remote that fails on the second request. *)
Definition failing_remote (n : nat) (r : Request) : Exn + Data :=
  match n with
  | O => page 1 [repo "a" 7] false
  | _ => inl (RuntimeError "GraphQL request failed after retries: None")
  end.

End Examples.

(** ** Further notions *)

Module MoreSpec.

Import Crawler CrawlSpec.

(** [stars_max - stars_min], the width [_push_partition] and
    [priority_key] compute. *)
Definition stars_width (p : SearchPartition) : Z := stars_max p - stars_min p.

(** The pair (score, day of creation) of a repository lies in the part of
    the search space a partition stands for; a partition without dates
    stands for the whole window [[earliest, today]] that
    [with_date_window] would attach. *)
Definition cell (today : date) (p : SearchPartition) (s : Z) (d : date)
  : Prop :=
  in_stars p s /\ in_dates (with_date_window p today EARLIEST_GITHUB_DATE) d.

(** Python's [<] on the triples [priority_key] returns. *)
Definition key_lt (x y : Z * Z * Z) : Prop :=
  let '(x1, x2, x3) := x in
  let '(y1, y2, y3) := y in
  x1 < y1 \/ (x1 = y1 /\ (x2 < y2 \/ (x2 = y2 /\ x3 < y3))).

(** The heap item [_push_partition] builds for [p] when the counter
    reads [c]. *)
Definition item_of (p : SearchPartition) (c : Z) : Entry :=
  mkEntry (- stars_max p) (stars_max p - stars_min p) (date_width p) c p.

(** What one iteration of the crawl loop does to the queue and the
    counters, whatever its result: the partition is skipped, or split, or
    the iteration went on to ingest it (and the queue lost it), or the
    probe failed. *)
Definition iteration_effect (today : date) (e : Entry) (rest : list Entry)
    (st : State) (r : Result unit) (st' : State) : Prop :=
  partitions_processed (stats st') = partitions_processed (stats st) + 1 /\
  (run st' = run st /\
   max_star_count (stats st') = max_star_count (stats st)) /\
  ((r = Ok tt /\ queue st' = rest /\
    _queue_counter st' = _queue_counter st /\
    partitions_skipped (stats st') = partitions_skipped (stats st) + 1 /\
    partitions_split (stats st') = partitions_split (stats st))
   \/ (r = Ok tt /\
       (exists child1 child2,
          _split_partition (partition e) today = Some (child1, child2) /\
          queue st'
          = rest ++ [item_of child1 (_queue_counter st);
                     item_of child2 (_queue_counter st + 1)]) /\
       _queue_counter st' = _queue_counter st + 2 /\
       partitions_skipped (stats st') = partitions_skipped (stats st) /\
       partitions_split (stats st') = partitions_split (stats st) + 1)
   \/ (queue st' = rest /\
       _queue_counter st' = _queue_counter st /\
       partitions_skipped (stats st') = partitions_skipped (stats st) /\
       partitions_split (stats st') = partitions_split (stats st))).

(** Every queued item is the item of its partition, carries a sequence
    number below the counter, and shares it with no other queued item. *)
Definition queue_sound (st : State) : Prop :=
  NoDup (seq <$> queue st) /\
  Forall (fun e => e = item_of (partition e) (seq e)
                   /\ seq e < _queue_counter st) (queue st).

(** The partitions created so far (the root and two per split) are the
    ones processed and the ones still queued; a processed partition was
    skipped, split, or taken to ingestion. *)
Definition partitions_accounted (st : State) : Prop :=
  Z.of_nat (length (queue st)) + partitions_processed (stats st)
  = 1 + 2 * partitions_split (stats st) /\
  0 <= partitions_split (stats st) /\
  0 <= partitions_skipped (stats st) /\
  partitions_split (stats st) + partitions_skipped (stats st)
  <= partitions_processed (stats st).

(** The exception [_max_stars] ends with, if any, for what the remote
    answers to the first request of a run. *)
Definition max_stars_failure (execute : nat -> Request -> Exn + Data)
  : option Exn :=
  match execute 0%nat (mkRequest MaxStarsQuery 1 None) with
  | inl exc => Some exc
  | inr d =>
      match search d with
      | None => Some (KeyError "search")
      | Some block =>
          match first_star_count (nodes_or_empty block) with
          | Some _ => None
          | None => Some (RuntimeError
              "Could not determine maximum stargazer count from GitHub.")
          end
      end
  end.


(** The answer ends the pagination of its query. *)
Definition last_page (block : SearchBlock) : Prop :=
  nodes_or_empty block = [] \/
  hasNextPage (pageInfo block) = false \/
  endCursor (pageInfo block) = None.

(** The partition the crawl starts from. *)
Definition root (settings : Settings) (max_stars : Z) : SearchPartition :=
  mkPartition (min_stars settings) max_stars None None.

(** The state in which the loop of a run starts. *)
Definition loop_start (settings : Settings) (st0 : State) (max_stars : Z)
  : State :=
  snd (_push_partition (root settings max_stars)
         (set_queue []
            (set_stats (set_max_star_count max_stars)
               (log (Requested (mkRequest MaxStarsQuery 1 None))
                    (start_run settings st0))))).

(** The days a partition can still be halved over: the width of its
    date range, or of the window it would be given. *)
Definition days_left (today : date) (p : SearchPartition) : Z :=
  match created_from p, created_to p with
  | Some cf, Some ct => ct - cf
  | _, _ => today - EARLIEST_GITHUB_DATE
  end.

(** The number of partitions the crawl can make out of [p], [p]
    included, if every split is taken: [w] inner nodes and [w + 1]
    single scores for a score range of width [w], and under each single
    score the [2 * d + 1] nodes of halving [d + 1] days. *)
Definition weight (today : date) (p : SearchPartition) : Z :=
  let w := Z.max 0 (stars_max p - stars_min p) in
  let d := Z.max 0 (days_left today p) in
  w + (w + 1) * (2 * d + 1).

Fixpoint queue_weight (today : date) (q : list Entry) : Z :=
  match q with
  | [] => 0
  | e :: q' => weight today (partition e) + queue_weight today q'
  end.

(** The cursors of the remote run out: [rank] falls from the cursor of a
    request to the cursor its answer offers for the next page. *)
Definition pagination_ends (execute : nat -> Request -> Exn + Data)
    (rank : option string -> nat) : Prop :=
  forall n r d block c,
    execute n r = inr d -> search d = Some block ->
    hasNextPage (pageInfo block) = true ->
    endCursor (pageInfo block) = Some c ->
    (rank (Some c) < rank (after r))%nat.

(** Two partitions share a (score, day). *)
Definition overlap (today : date) (p q : SearchPartition) : Prop :=
  exists s d, cell today p s d /\ cell today q s d.

(** No two items of the queue stand for overlapping partitions. *)
Fixpoint apart (today : date) (q : list Entry) : Prop :=
  match q with
  | [] => True
  | e :: q' =>
      Forall (fun e' => ~ overlap today (partition e) (partition e')) q'
      /\ apart today q'
  end.

(** Every queued partition lies within [whole]. *)
Definition within (today : date) (whole : SearchPartition)
    (q : list Entry) : Prop :=
  Forall (fun e => forall s d, cell today (partition e) s d
                               -> cell today whole s d) q.

Definition queue_apart (settings : Settings) (today : date) (st : State)
  : Prop :=
  apart today (queue st) /\
  within today (root settings (max_star_count (stats st))) (queue st).

(** The answer to the [i]-th request of the run was a page with nodes
    that offers [c] as the cursor of a next page. *)
Definition offers_next (execute : nat -> Request -> Exn + Data)
    (i : nat) (r0 : Request) (c : string) : Prop :=
  exists d block,
    execute i r0 = inr d /\ search d = Some block /\
    nodes_or_empty block <> [] /\
    hasNextPage (pageInfo block) = true /\
    endCursor (pageInfo block) = Some c.

(** Pages are fetched in sequence: a request that carries a cursor comes
    right after a request for the same query, and the cursor is the one
    the answer to that request offered. *)
Definition pages_follow (execute : nat -> Request -> Exn + Data)
    (rs : list Request) : Prop :=
  forall i r c,
    rs !! S i = Some r -> after r = Some c ->
    exists r0,
      rs !! i = Some r0 /\ query r0 = query r /\ offers_next execute i r0 c.

End MoreSpec.

Module MoreClientSpec.

Import Client.

(** What an attempt that ends the call makes [execute] return or raise;
    [None] for an attempt that is retried. *)
Definition outcome_of (r : PostResult) : option (ClientError + Data) :=
  match r with
  | RequestException _ => None
  | Responded r =>
      if bool_decide (status_code r ∈ RETRYABLE_HTTP_CODES) then None
      else if status_code r >=? 400 then
        Some (inl (HttpFailure (status_code r) (text r)))
      else match json r with
           | inl _ => None
           | inr payload =>
               match errors payload with
               | [] => Some (inr (match data payload with
                                  | Some d => d
                                  | None => empty_data
                                  end))
               | es => if _errors_are_retryable es then None
                       else Some (inl (GraphQLErrors es))
               end
           end
  end.

(** A sleep that [_sleep] may record: positive and at most the cap. *)
Definition sleep_ok (entry : Q * SleepReason) : Prop :=
  (0 < fst entry /\ fst entry <= MAX_SLEEP_SECONDS)%Q.

(** A wait that [_respect_min_request_interval] may take: positive and
    at most the configured interval. *)
Definition pace_ok (s : Settings) (w : Q) : Prop :=
  (0 < w /\ w <= min_request_interval_seconds s)%Q.

(** The number of successful queries a result adds. *)
Definition successes (r : ClientError + Data) : Z :=
  match r with inr _ => 1 | inl _ => 0 end.

End MoreClientSpec.

Module MoreExamples.

Import Crawler Examples.

(** A remote whose search finds nothing at all. *)
Definition starless_remote (n : nat) (r : Request) : Exn + Data :=
  page 0 [] false.

(** The paging remote, failing on the third request. *)
Definition breaking_remote (n : nat) (r : Request) : Exn + Data :=
  match n with
  | 2%nat => inl (RuntimeError "GraphQL request failed after retries: None")
  | _ => paging_remote n r
  end.

(** A remote with two pages of results: the second page is the last. *)
Definition two_page_remote (n : nat) (r : Request) : Exn + Data :=
  match after r with
  | None => page 5 (take (Z.to_nat (first r)) five_repos) true
  | Some _ => page 5 (take (Z.to_nat (first r)) (drop 2 five_repos)) false
  end.

Definition two_page_rank (cursor : option string) : nat :=
  match cursor with None => 1 | Some _ => 0 end.

End MoreExamples.

(** ** Properties of the splits *)

Section SplitProperties.

Lemma midpoint_bounds (a b : Z) : a < b -> a <= (a + b) / 2 < b.
Proof.
  intros Hab. split.
  - apply Z.div_le_lower_bound; lia.
  - apply Z.div_lt_upper_bound; lia.
Qed.

Lemma half_span_bounds (a b : Z) : a < b -> a <= a + (b - a) / 2 < b.
Proof.
  intros Hab.
  assert (0 <= (b - a) / 2) by (apply Z.div_pos; lia).
  assert ((b - a) / 2 < b - a) by (apply Z.div_lt_upper_bound; lia).
  lia.
Qed.

Lemma split_stars_none_iff (p : SearchPartition) :
  split_stars p = None <-> stars_max p <= stars_min p.
Proof.
  unfold split_stars. destruct (Z.geb_spec (stars_min p) (stars_max p)).
  - split; [lia | reflexivity].
  - split; [discriminate | lia].
Qed.

(** Without the data-model invariant: [split_dates] declines exactly when a
    bound is missing or the range is empty or a single day. *)
Lemma split_dates_none_iff (p : SearchPartition) :
  split_dates p = None <->
  has_dates p = false \/
  (exists cf ct, created_from p = Some cf /\ created_to p = Some ct /\ ct <= cf).
Proof.
  unfold split_dates, has_dates.
  destruct (created_from p) as [cf|], (created_to p) as [ct|];
    try (split; [auto | reflexivity]).
  destruct (Z.geb_spec cf ct).
  - split; [| reflexivity]. intros _. right. exists cf, ct. repeat split; lia.
  - split; [discriminate |].
    intros [? | (cf' & ct' & E1 & E2 & ?)]; [discriminate |].
    injection E1 as <-. injection E2 as <-. lia.
Qed.

(** C1. For every partition with [stars_min < stars_max], [split_stars]
    returns the pair [(high, low)] with [mid = floor((min+max)/2)],
    [high = [mid+1, max]] and [low = [min, mid]]; no score lies in both
    children, and a score lies in one of them exactly when it lies in the
    original closed range.  For every partition with
    [stars_min = stars_max] it returns [None]. *)
Theorem split_stars_partitions_range (p : SearchPartition) :
  (stars_min p < stars_max p ->
   let mid := (stars_min p + stars_max p) / 2 in
   let high := mkPartition (mid + 1) (stars_max p)
                           (created_from p) (created_to p) in
   let low := mkPartition (stars_min p) mid
                          (created_from p) (created_to p) in
   split_stars p = Some (high, low) /\
   (forall s, ~ (in_stars high s /\ in_stars low s)) /\
   (forall s, in_stars p s <-> in_stars high s \/ in_stars low s)) /\
  (stars_min p = stars_max p -> split_stars p = None).
Proof.
  split.
  - intros Hlt. cbv zeta.
    pose proof (midpoint_bounds _ _ Hlt) as Hmid.
    split; [| split].
    + unfold split_stars.
      destruct (Z.geb_spec (stars_min p) (stars_max p)); [lia | reflexivity].
    + intros s. unfold in_stars. simpl. lia.
    + intros s. unfold in_stars. simpl. lia.
  - intros Heq. apply split_stars_none_iff. lia.
Qed.

Lemma split_stars_partitions_range_witness :
  let p := mkPartition 0 1000000 None None in
  stars_min p < stars_max p /\
  split_stars p = Some (mkPartition 500001 1000000 None None,
                        mkPartition 0 500000 None None).
Proof.
  split; [reflexivity |].
  exact (proj1 (proj1 (split_stars_partitions_range
                         (mkPartition 0 1000000 None None)) eq_refl)).
Defined.

(** C2. For every partition carrying dates [cf < ct], [split_dates]
    returns [first = [cf, mid]] and [second = [mid+1, ct]] with
    [mid = cf + floor((ct - cf)/2)]; the two day ranges are disjoint,
    contiguous (the second starts the day after the first ends, both
    non-empty) and a day lies in one of them exactly when it lies in
    [[cf, ct]].  On a partition that satisfies the data-model invariant,
    [split_dates] returns [None] exactly when the dates are absent or
    [cf = ct]. *)
Theorem split_dates_partitions_range (p : SearchPartition) :
  (forall cf ct,
     created_from p = Some cf -> created_to p = Some ct -> cf < ct ->
     let mid := cf + (ct - cf) / 2 in
     let first := mkPartition (stars_min p) (stars_max p)
                              (Some cf) (Some mid) in
     let second := mkPartition (stars_min p) (stars_max p)
                               (Some (mid + 1)) (Some ct) in
     split_dates p = Some (first, second) /\
     (cf <= mid /\ mid + 1 <= ct) /\
     (forall d, ~ (in_dates first d /\ in_dates second d)) /\
     (forall d, in_dates p d <-> in_dates first d \/ in_dates second d)) /\
  (dates_wf p ->
   (split_dates p = None <->
    has_dates p = false \/
    (exists d, created_from p = Some d /\ created_to p = Some d))).
Proof.
  split.
  - intros cf ct Hf Ht Hlt. cbv zeta.
    pose proof (half_span_bounds _ _ Hlt) as Hmid.
    split; [| split; [lia | split]].
    + unfold split_dates. rewrite Hf, Ht.
      destruct (Z.geb_spec cf ct); [lia | reflexivity].
    + intros d. unfold in_dates. simpl. lia.
    + intros d. unfold in_dates. rewrite Hf, Ht. simpl. lia.
  - intros Hwf. rewrite split_dates_none_iff.
    unfold dates_wf, has_dates in *.
    destruct (created_from p) as [cf|], (created_to p) as [ct|];
      try contradiction.
    + split.
      * intros [? | (cf' & ct' & E1 & E2 & Hle)]; [discriminate |].
        simplify_eq. right. exists cf'. split; f_equal; lia.
      * intros [? | (d & E1 & E2)]; [discriminate |].
        simplify_eq. right. exists d, d. repeat split; lia.
    + split; auto.
Qed.

Lemma split_dates_partitions_range_witness :
  let p := mkPartition 5 5 (Some 733042) (Some 733052) in
  split_dates p = Some (mkPartition 5 5 (Some 733042) (Some 733047),
                        mkPartition 5 5 (Some 733048) (Some 733052)) /\
  dates_wf (mkPartition 5 5 (Some 733042) (Some 733042)) /\
  split_dates (mkPartition 5 5 (Some 733042) (Some 733042)) = None.
Proof.
  split; [| split].
  - exact (proj1 (proj1 (split_dates_partitions_range
                           (mkPartition 5 5 (Some 733042) (Some 733052)))
                        733042 733052 eq_refl eq_refl eq_refl)).
  - unfold dates_wf; simpl; lia.
  - apply (proj2 (split_dates_partitions_range
                    (mkPartition 5 5 (Some 733042) (Some 733042)))).
    + unfold dates_wf; simpl; lia.
    + right. exists 733042. split; reflexivity.
Defined.

End SplitProperties.

(** ** Properties of the GraphQL client *)

Section ClientProperties.

Import Client ClientSpec.

Lemma pow2_ge_1 (n : Z) : 0 <= n -> (1 <= (2 # 1) ^ n)%Q.
Proof. intros Hn. apply Qpower_1_le; [lra | exact Hn]. Qed.

Lemma pow2_succ (n : Z) : ((2 # 1) ^ (n + 1) == (2 # 1) ^ n * (2 # 1))%Q.
Proof. rewrite Qpower_plus by lra. reflexivity. Qed.

Lemma delay_doubles (b : Q) (a : Z) :
  (b * (2 # 1) ^ (a + 1 - 1) == 2 * (b * (2 # 1) ^ (a - 1)))%Q.
Proof.
  replace (a + 1 - 1) with (a - 1 + 1) by lia.
  rewrite pow2_succ. ring.
Qed.

Lemma scaled_delay_ge (b : Q) (a : Z) (lo : Q) :
  1 <= a -> (0 <= lo)%Q -> (lo <= b)%Q -> (lo <= b * (2 # 1) ^ (a - 1))%Q.
Proof.
  intros Ha Hlo Hb.
  pose proof (pow2_ge_1 (a - 1) ltac:(lia)) as Hp.
  assert (0 <= b * ((2 # 1) ^ (a - 1) - 1))%Q as H
    by (apply Qmult_le_0_compat; lra).
  lra.
Qed.

Lemma compute_backoff_le_cap (s : Settings) (a : Z) (j : Q) :
  (_compute_backoff s a j <= MAX_SLEEP_SECONDS)%Q.
Proof. unfold _compute_backoff. apply Q.le_min_r. Qed.

(** C9, as the code has it.  For every attempt [a >= 1] and jitter draws
    in [[0.2, 0.8]], the delay is [min(base * 2^(a-1) + jitter, 3600)]; it
    never exceeds the cap, hence never the cap plus the largest jitter;
    with one and the same draw it is non-decreasing in the attempt number
    for any non-negative base; with independent draws it is
    non-decreasing as soon as [base >= 0.6], the spread of the jitter. *)
Theorem compute_backoff_monotone_for_large_base
    (s : Settings) (a : Z) (j1 j2 : Q) :
  1 <= a -> jitter_in_range j1 -> jitter_in_range j2 ->
  (_compute_backoff s a j1 ==
     Qmin (base_backoff_seconds s * (2 # 1) ^ (a - 1) + j1) (3600 # 1))%Q /\
  (_compute_backoff s a j1 <= MAX_SLEEP_SECONDS + (4 # 5))%Q /\
  (_compute_backoff s a j1 <= MAX_SLEEP_SECONDS)%Q /\
  ((0 <= base_backoff_seconds s)%Q ->
   (_compute_backoff s a j1 <= _compute_backoff s (a + 1) j1)%Q) /\
  ((3 # 5 <= base_backoff_seconds s)%Q ->
   (_compute_backoff s a j1 <= _compute_backoff s (a + 1) j2)%Q).
Proof.
  intros Ha [Hj1 Hj1'] [Hj2 Hj2'].
  pose proof (compute_backoff_le_cap s a j1) as Hcap.
  split; [reflexivity |]. split; [unfold MAX_SLEEP_SECONDS in *; lra |].
  split; [exact Hcap |]. split.
  - intros Hb. unfold _compute_backoff.
    apply Q.min_le_compat_r. rewrite delay_doubles.
    pose proof (scaled_delay_ge (base_backoff_seconds s) a 0 Ha
                  ltac:(lra) Hb).
    lra.
  - intros Hb. unfold _compute_backoff.
    apply Q.min_le_compat_r. rewrite delay_doubles.
    pose proof (scaled_delay_ge (base_backoff_seconds s) a (3 # 5) Ha
                  ltac:(lra) Hb).
    lra.
Qed.

Lemma compute_backoff_monotone_for_large_base_witness :
  let s := mkSettings 100000 100 0 1000 8 (3 # 2) 100 (7 # 20) in
  (_compute_backoff s 1 (4 # 5) <= _compute_backoff s 2 (1 # 5))%Q.
Proof.
  refine (proj2 (proj2 (proj2 (proj2
    (compute_backoff_monotone_for_large_base
       (mkSettings 100000 100 0 1000 8 (3 # 2) 100 (7 # 20)) 1 (4 # 5) (1 # 5)
       _ _ _)))) _).
  - lia.
  - split; vm_compute; discriminate.
  - split; vm_compute; discriminate.
  - vm_compute; discriminate.
Defined.

(** C9 as stated fails: with a base of 0.1 s, a large draw at attempt 1
    followed by a small one at attempt 2 makes the delay go down, well
    below the cap. *)
Lemma compute_backoff_can_decrease :
  let s := mkSettings 100000 100 0 1000 8 (1 # 10) 100 (7 # 20) in
  jitter_in_range (4 # 5) /\ jitter_in_range (1 # 5) /\
  (_compute_backoff s 1 (4 # 5) == 9 # 10)%Q /\
  (_compute_backoff s 2 (1 # 5) == 2 # 5)%Q /\
  ~ (_compute_backoff s 1 (4 # 5) <= _compute_backoff s 2 (1 # 5))%Q.
Proof.
  repeat split; try (vm_compute; discriminate); try reflexivity.
  intros H. vm_compute in H. apply H. reflexivity.
Qed.

(** *** Retries *)

Lemma sleep_keeps_counts (w : Q) (r : SleepReason) (c : ClientState) :
  http_request_count (_sleep w r c) = http_request_count c.
Proof. unfold _sleep. destruct (Qle_bool _ _); reflexivity. Qed.

Lemma sleep_if_rate_low_keeps_counts (s : Settings) rl (c : ClientState) :
  http_request_count (_sleep_if_rate_low s rl c) = http_request_count c.
Proof.
  unfold _sleep_if_rate_low. destruct rl as [r|]; [| reflexivity].
  destruct (_ >? _); [reflexivity |].
  destruct (reset_wait r); [apply sleep_keeps_counts | reflexivity].
Qed.

Lemma respect_keeps_counts (s : Settings) (w : Q) (c : ClientState) :
  http_request_count (_respect_min_request_interval s w c)
  = http_request_count c.
Proof.
  unfold _respect_min_request_interval. destruct (Qle_bool _ _); reflexivity.
Qed.

(** The number of requests made by a call is bounded by the number of
    attempts granted. *)
Lemma execute_loop_request_bound (s : Settings) post jitter elapsed (n : nat) :
  forall attempt last_error c,
    http_request_count c
    <= http_request_count (snd (execute_loop s post jitter elapsed n attempt
          last_error c))
    <= http_request_count c + Z.of_nat n.
Proof.
  induction n as [| n IH]; intros attempt last_error c.
  - simpl. lia.
  - cbn [execute_loop].
    pose proof (respect_keeps_counts s (elapsed attempt) c) as Hpace.
    set (c1 := _respect_min_request_interval s (elapsed attempt) c) in *.
    destruct (post attempt) as [exc | r].
    + specialize (IH (attempt + 1) (Some exc)
                     (_sleep (_compute_backoff s attempt (jitter attempt))
                        network_error (count_request c1))).
      rewrite sleep_keeps_counts in IH. simpl in IH. lia.
    + case_bool_decide.
      * match goal with
        | |- context [execute_loop _ _ _ _ n ?a ?l ?c'] =>
            specialize (IH a l c')
        end.
        rewrite sleep_keeps_counts in IH. simpl in IH. lia.
      * destruct (status_code r >=? 400); [simpl; lia |].
        destruct (json r) as [exc | payload].
        -- match goal with
           | |- context [execute_loop _ _ _ _ n ?a ?l ?c'] =>
               specialize (IH a l c')
           end.
           rewrite sleep_keeps_counts in IH. simpl in IH. lia.
        -- destruct (errors payload) as [| e es].
           ++ simpl. rewrite sleep_if_rate_low_keeps_counts. simpl. lia.
           ++ destruct (_errors_are_retryable (e :: es)); [| simpl; lia].
              match goal with
              | |- context [execute_loop _ _ _ _ n ?a ?l ?c'] =>
                  specialize (IH a l c')
              end.
              rewrite sleep_keeps_counts in IH. simpl in IH. lia.
Qed.

(** [execute] makes at most [max_retries] attempts. *)
Lemma execute_request_bound (s : Settings) post jitter
      elapsed (c : ClientState) :
  http_request_count (snd (execute s post jitter elapsed c))
  <= http_request_count c + Z.max 0 (max_retries s).
Proof.
  unfold execute.
  pose proof (execute_loop_request_bound s post jitter elapsed
                (Z.to_nat (max_retries s)) 1 None c).
  lia.
Qed.

(** When every attempt ends in a retryable outcome, the loop runs out and
    raises "failed after retries" around [last_error]. *)
Lemma execute_loop_exhausted (s : Settings) post jitter elapsed (n : nat) :
  forall attempt last_error c,
    (forall k, attempt <= k < attempt + Z.of_nat n ->
               retryable (classify (post k)) = true) ->
    fst (execute_loop s post jitter elapsed n attempt last_error c)
    = inl (RetriesExhausted (last_exception post n attempt last_error)).
Proof.
  induction n as [| n IH]; intros attempt last_error c Hall; [reflexivity |].
  assert (retryable (classify (post attempt)) = true) as Hnow
    by (apply Hall; lia).
  assert (forall k, attempt + 1 <= k < attempt + 1 + Z.of_nat n ->
                    retryable (classify (post k)) = true) as Hrest
    by (intros k Hk; apply Hall; lia).
  cbn [execute_loop last_exception]. unfold classify in *.
  destruct (post attempt) as [exc | r]; [by apply IH |].
  case_bool_decide; [by apply IH |].
  destruct (status_code r >=? 400); [discriminate |].
  destruct (json r) as [exc | payload]; [by apply IH |].
  destruct (errors payload) as [| e es]; [discriminate |].
  destruct (_errors_are_retryable (e :: es)); [by apply IH | discriminate].
Qed.

(** C7 at a failing input.  With [max_retries = 2], a connection error at
    attempt 1 and an HTTP 503 at attempt 2, both attempts are retryable,
    two requests are made, and the error raised wraps the connection
    error of attempt 1, not the 503 observed last; when both attempts end
    in HTTP 429 the error wraps nothing ([last_error] is still [None]). *)
Theorem execute_exhausted_forgets_status_failures :
  let s := mkSettings 100000 100 0 1000 2 (3 # 2) 100 (7 # 20) in
  let c0 := mkClient 0 0 [] [] in
  let post1 := fun k => if k =? 1 then RequestException "connection reset"
                        else unavailable 503 in
  let post2 := fun _ : Z => unavailable 429 in
  let jitter := fun _ : Z => (1 # 2)%Q in
  let elapsed := fun _ : Z => 1%Q in
  classify (post1 1) = NetworkFault "connection reset" /\
  classify (post1 2) = RetryableStatus 503 /\
  fst (execute s post1 jitter elapsed c0)
    = inl (RetriesExhausted (Some "connection reset")) /\
  http_request_count (snd (execute s post1 jitter elapsed c0)) = 2 /\
  classify (post2 1) = RetryableStatus 429 /\
  classify (post2 2) = RetryableStatus 429 /\
  fst (execute s post2 jitter elapsed c0) = inl (RetriesExhausted None).
Proof. repeat split; vm_compute; reflexivity. Qed.

End ClientProperties.

(** ** The priority queue *)

Section QueueProperties.

Import Crawler CrawlSpec.

Lemma entry_ltb_spec (a b : Entry) : entry_ltb a b = true <-> entry_lt a b.
Proof.
  unfold entry_ltb, entry_lt.
  rewrite !orb_true_iff, !andb_true_iff, !orb_true_iff, !andb_true_iff.
  rewrite !orb_true_iff, !andb_true_iff, !Z.ltb_lt, !Z.eqb_eq.
  tauto.
Qed.

Lemma entry_ltb_false (a b : Entry) :
  entry_ltb a b = false <-> ~ entry_lt a b.
Proof.
  rewrite <- entry_ltb_spec. destruct (entry_ltb a b); split; congruence.
Qed.

Lemma entry_lt_asym (a b : Entry) : entry_lt a b -> ~ entry_lt b a.
Proof. unfold entry_lt. lia. Qed.

Lemma entry_lt_neg_trans (a b c : Entry) :
  ~ entry_lt a b -> ~ entry_lt b c -> ~ entry_lt a c.
Proof. unfold entry_lt. lia. Qed.

Lemma entry_lt_total (a b : Entry) :
  seq a <> seq b -> entry_lt a b \/ entry_lt b a.
Proof. unfold entry_lt. lia. Qed.

Lemma heappop_none (q : list Entry) : heappop q = None <-> q = [].
Proof.
  destruct q as [| e q]; [done |]. simpl.
  destruct (heappop q) as [[m rest] |]; [| done].
  destruct (entry_ltb m e); done.
Qed.

(** [heappop] takes one item out of the bag, and no item left behind is
    smaller than it. *)
Lemma heappop_smallest (q : list Entry) :
  forall e rest,
    heappop q = Some (e, rest) ->
    q ≡ₚ e :: rest /\ (forall e', e' ∈ rest -> ~ entry_lt e' e).
Proof.
  induction q as [| x q IH]; intros e rest Hpop; [discriminate |].
  simpl in Hpop. destruct (heappop q) as [[m rest'] |] eqn:Hq.
  - destruct (IH m rest' eq_refl) as [Hperm Hmin].
    destruct (entry_ltb m x) eqn:Hlt; simplify_eq.
    + split.
      * rewrite Hperm. apply Permutation_swap.
      * intros e' [-> | Hin]%elem_of_cons.
        -- apply entry_lt_asym. by apply entry_ltb_spec.
        -- by apply Hmin.
    + apply entry_ltb_false in Hlt. split; [done |].
      intros e' Hin. rewrite Hperm in Hin.
      apply elem_of_cons in Hin as [-> | Hin]; [done |].
      eapply entry_lt_neg_trans; [by apply Hmin | done].
  - apply heappop_none in Hq as ->. simplify_eq. split; [done |].
    intros e' Hin. by apply elem_of_nil in Hin.
Qed.

Lemma item_wf_snoc c0 pushed p e :
  item_wf c0 pushed e -> item_wf c0 (pushed ++ [p]) e.
Proof.
  intros (H1 & H2 & H3 & i & Hi & Hs). repeat split; try done.
  exists i. split; [| done]. by apply lookup_app_l_Some.
Qed.

Lemma item_wf_seq_lt c0 pushed e :
  item_wf c0 pushed e -> seq e < c0 + Z.of_nat (length pushed).
Proof.
  intros (_ & _ & _ & i & Hi & ->). apply lookup_lt_Some in Hi. lia.
Qed.

Lemma queue_wf_push c0 pushed st p :
  queue_wf c0 pushed st ->
  queue_wf c0 (pushed ++ [p]) (snd (_push_partition p st)).
Proof.
  intros (Hc & Hnd & Hall). unfold queue_wf. simpl.
  split; [rewrite length_app; simpl; lia |]. split.
  - unfold heappush. rewrite fmap_app. simpl.
    apply NoDup_app. split; [done |]. split; [| apply NoDup_singleton].
    intros s Hs ->%list_elem_of_singleton.
    apply list_elem_of_fmap in Hs as (e & He & Hin).
    rewrite Forall_forall in Hall.
    pose proof (item_wf_seq_lt _ _ _ (Hall e Hin)). lia.
  - unfold heappush. apply Forall_app. split.
    + eapply Forall_impl; [exact Hall |]. intros e. apply item_wf_snoc.
    + apply Forall_singleton. repeat split; simpl; try done.
      exists (length pushed). split; [| lia].
      by rewrite lookup_app_r, Nat.sub_diag.
Qed.

Lemma queue_wf_pop c0 pushed st e rest :
  queue_wf c0 pushed st -> heappop (queue st) = Some (e, rest) ->
  queue_wf c0 pushed (set_queue rest st).
Proof.
  intros (Hc & Hnd & Hall) Hpop.
  apply heappop_smallest in Hpop as [Hperm _].
  unfold queue_wf. simpl. split; [done |].
  rewrite Hperm in Hnd, Hall. simpl in Hnd.
  apply NoDup_cons in Hnd as [_ Hnd]. apply Forall_cons in Hall as [_ Hall].
  done.
Qed.

Lemma queue_wf_apply_ops (ops : list QueueOp) :
  forall c0 pushed st,
    queue_wf c0 pushed st ->
    queue_wf c0 (pushed ++ pushes ops) (apply_ops ops st).
Proof.
  induction ops as [| op ops IH]; intros c0 pushed st Hwf.
  - simpl. by rewrite app_nil_r.
  - destruct op as [p |]; simpl.
    + replace (pushed ++ p :: pushes ops) with ((pushed ++ [p]) ++ pushes ops)
        by (by rewrite <- app_assoc).
      apply IH. by apply queue_wf_push.
    + apply IH. destruct (heappop (queue st)) as [[e rest] |] eqn:Hpop;
        [by eapply queue_wf_pop | done].
Qed.

(** In a well-formed queue the item [heappop] returns goes before every
    item it leaves, in the order of [served_before]. *)
Lemma pop_served_first c0 pushed st e rest :
  queue_wf c0 pushed st -> heappop (queue st) = Some (e, rest) ->
  exists i : nat,
    pushed !! i = Some (partition e) /\ seq e = c0 + Z.of_nat i /\
    forall e', e' ∈ rest ->
      exists j : nat,
        pushed !! j = Some (partition e') /\ seq e' = c0 + Z.of_nat j /\
        served_before (partition e) i (partition e') j.
Proof.
  intros (Hc & Hnd & Hall) Hpop.
  apply heappop_smallest in Hpop as [Hperm Hmin].
  rewrite Hperm in Hnd, Hall. simpl in Hnd.
  apply NoDup_cons in Hnd as [Hfresh _].
  apply Forall_cons in Hall as [(E1 & E2 & E3 & i & Hi & Hs) Hall].
  exists i. split; [done |]. split; [done |].
  intros e' Hin. rewrite Forall_forall in Hall.
  destruct (Hall e' Hin) as (F1 & F2 & F3 & j & Hj & Hs').
  exists j. split; [done |]. split; [done |].
  assert (seq e <> seq e') as Hne.
  { intros Heq. apply Hfresh. rewrite Heq. by apply list_elem_of_fmap_2. }
  destruct (entry_lt_total e e' Hne) as [Hlt | Hlt];
    [| by apply Hmin in Hlt].
  unfold entry_lt in Hlt. unfold served_before. lia.
Qed.

(** [served_before] is a strict total order on pushes. *)
Lemma served_before_total p i q j :
  i <> j -> served_before p i q j \/ served_before q j p i.
Proof. unfold served_before. lia. Qed.

Lemma served_before_asym p i q j :
  served_before p i q j -> ~ served_before q j p i.
Proof. unfold served_before. lia. Qed.

Lemma served_before_trans p i q j r k :
  served_before p i q j -> served_before q j r k -> served_before p i r k.
Proof. unfold served_before. lia. Qed.

(** C6. Whatever partitions are pushed, and whatever pops come in
    between, a pop returns a partition that is still queued, and it goes
    before every other queued partition in this order: higher
    [stars_max]; then narrower score range; then narrower date range;
    then earlier push.  The order is total and asymmetric on distinct
    pushes, so the partition popped is determined.  On the bounds
    themselves: among queued partitions with the scores of the one
    popped, no dated one spans fewer days than it, and one that spans as
    many was pushed later. *)
Theorem pop_returns_highest_priority
    (ops : list QueueOp) (st0 : State) (e : Entry) (rest : list Entry) :
  queue st0 = [] ->
  heappop (queue (apply_ops ops st0)) = Some (e, rest) ->
  queue (apply_ops ops st0) ≡ₚ e :: rest /\
  (exists i : nat,
     pushes ops !! i = Some (partition e) /\
     forall e', e' ∈ rest ->
       exists j : nat,
         pushes ops !! j = Some (partition e') /\ i <> j /\
         served_before (partition e) i (partition e') j /\
         ~ served_before (partition e') j (partition e) i) /\
  (forall e' first_day last_day first_day' last_day',
     e' ∈ rest ->
     stars_max (partition e') = stars_max (partition e) ->
     stars_min (partition e') = stars_min (partition e) ->
     created_from (partition e) = Some first_day ->
     created_to (partition e) = Some last_day ->
     created_from (partition e') = Some first_day' ->
     created_to (partition e') = Some last_day' ->
     last_day - first_day <= last_day' - first_day' /\
     (last_day - first_day = last_day' - first_day' -> seq e < seq e')).
Proof.
  intros Hempty Hpop.
  assert (queue_wf (_queue_counter st0) [] st0) as Hwf0.
  { unfold queue_wf. rewrite Hempty. simpl.
    split; [lia |]. split; [apply NoDup_nil_2 | apply Forall_nil_2]. }
  pose proof (queue_wf_apply_ops ops _ _ _ Hwf0) as Hwf. simpl in Hwf.
  split; [by apply heappop_smallest in Hpop as [? _] |].
  destruct (pop_served_first _ _ _ _ _ Hwf Hpop) as (i & Hi & Hs & Hall).
  split.
  - exists i. split; [done |]. intros e' Hin.
    destruct (Hall e' Hin) as (j & Hj & Hs' & Hbefore).
    exists j. split; [done |].
    assert (i <> j) as Hne.
    { intros ->. destruct Hwf as (_ & Hnd & _).
      apply heappop_smallest in Hpop as [Hperm _].
      rewrite Hperm in Hnd. simpl in Hnd.
      apply NoDup_cons in Hnd as [Hfresh _].
      apply Hfresh. rewrite Hs, <- Hs'. by apply list_elem_of_fmap_2. }
    split; [done |]. split; [done | by apply served_before_asym].
  - intros e' d1 d2 d1' d2' Hin Hmax Hmin Hf Ht Hf' Ht'.
    destruct (Hall e' Hin) as (j & Hj & Hs' & Hbefore).
    unfold served_before, date_range_width in Hbefore.
    rewrite Hf, Ht, Hf', Ht' in Hbefore. lia.
Qed.

Lemma pop_returns_highest_priority_witness :
  let wide := mkPartition 7 7 (Some 733042) (Some 735963) in
  let narrow := mkPartition 7 7 (Some 735964) (Some 735965) in
  let ops := [Push (mkPartition 0 6 None None); Push wide; Push narrow] in
  exists rest,
    heappop (queue (apply_ops ops new_crawler))
      = Some (mkEntry (-7) 0 1 2 narrow, rest) /\
    mkEntry (-7) 0 2921 1 wide ∈ rest /\
    735965 - 735964 <= 735963 - 733042.
Proof.
  intros wide narrow ops. eexists.
  split; [vm_compute; reflexivity |].
  split; [right; left |].
  destruct (pop_returns_highest_priority ops new_crawler _ _
              eq_refl eq_refl) as (_ & _ & Hdates).
  refine (proj1 (Hdates (mkEntry (-7) 0 2921 1 wide) _ _ _ _
                        _ eq_refl eq_refl eq_refl eq_refl
                        eq_refl eq_refl)).
  right. left.
Defined.

End QueueProperties.

(** ** Rules for the monad *)

Section HoareRules.

Import Crawler CrawlSpec Hoare.

Lemma post_bind {A B} (m : M A) (k : A -> M B) st Q :
  post m st (after_bind k Q) -> post (m ≫= k) st Q.
Proof.
  unfold post, after_bind, mbind, M_bind, bind.
  destruct (m st) as [[a | e |] st']; simpl; auto.
Qed.

Lemma post_mono {A} (m : M A) st (Q Q' : Result A -> State -> Prop) :
  post m st Q -> (forall r st', Q r st' -> Q' r st') -> post m st Q'.
Proof. unfold post. auto. Qed.

Lemma post_ret {A} (a : A) st (Q : Result A -> State -> Prop) :
  Q (Ok a) st -> post (ret a) st Q.
Proof. done. Qed.

Lemma post_raise {A} (e : Exn) st (Q : Result A -> State -> Prop) :
  Q (Raise e) st -> post (raise e) st Q.
Proof. done. Qed.

Lemma post_out_of_fuel {A} st (Q : Result A -> State -> Prop) :
  Q OutOfFuel st -> post out_of_fuel st Q.
Proof. done. Qed.

Lemma post_get st (Q : Result State -> State -> Prop) :
  Q (Ok st) st -> post get st Q.
Proof. done. Qed.

Lemma post_modify f st (Q : Result unit -> State -> Prop) :
  Q (Ok tt) (f st) -> post (modify f) st Q.
Proof. done. Qed.

Lemma post_eq {A} (m : M A) st r st' (Q : Result A -> State -> Prop) :
  m st = (r, st') -> post m st Q -> Q r st'.
Proof. unfold post. by intros ->. Qed.

Lemma bind_ok {A B} (m : M A) (k : A -> M B) st a st' :
  m st = (Ok a, st') -> (m ≫= k) st = k a st'.
Proof. unfold mbind, M_bind, bind. by intros ->. Qed.

Lemma bind_raise {A B} (m : M A) (k : A -> M B) st exc st' :
  m st = (Raise exc, st') -> (m ≫= k) st = (Raise exc, st').
Proof. unfold mbind, M_bind, bind. by intros ->. Qed.

End HoareRules.

(** ** The node loop and deduplication *)

Section NodeLoop.

Import Crawler CrawlSpec Hoare.

Lemma fresh_ids_app (a b : list string) :
  forall seen,
    fresh_ids seen (a ++ b)
    = fresh_ids seen a ++ fresh_ids (list_to_set a ∪ seen) b.
Proof.
  induction a as [| i a IH]; intros seen; simpl.
  - f_equal. set_solver.
  - case_bool_decide as Hin.
    + rewrite IH. f_equal. f_equal. set_solver.
    + simpl. f_equal. rewrite IH. f_equal. f_equal. set_solver.
Qed.

Lemma fresh_ids_elem (ids : list string) :
  forall seen x, x ∈ fresh_ids seen ids <-> x ∈ ids /\ x ∉ seen.
Proof.
  induction ids as [| i ids IH]; intros seen x; simpl.
  - set_solver.
  - case_bool_decide as Hin.
    + rewrite IH, elem_of_cons.
      destruct (decide (x = i)) as [-> | Hne]; naive_solver.
    + rewrite !elem_of_cons, IH, elem_of_union, elem_of_singleton.
      destruct (decide (x = i)) as [-> | Hne]; naive_solver.
Qed.

Lemma fresh_ids_NoDup (ids : list string) :
  forall seen, NoDup (fresh_ids seen ids).
Proof.
  induction ids as [| i ids IH]; intros seen; simpl.
  - apply NoDup_nil_2.
  - case_bool_decide as Hin; [apply IH |].
    apply NoDup_cons. split; [| apply IH].
    rewrite fresh_ids_elem. set_solver.
Qed.

Lemma fresh_ids_length (ids : list string) :
  forall seen, (length (fresh_ids seen ids) <= length ids)%nat.
Proof.
  induction ids as [| i ids IH]; intros seen; simpl; [lia |].
  case_bool_decide.
  - specialize (IH seen). lia.
  - specialize (IH ({[i]} ∪ seen)). simpl. lia.
Qed.

Lemma node_ids_length (l : list (option RepoNode)) :
  (length (node_ids l) <= length l)%nat.
Proof.
  induction l as [| node l IH]; simpl; [lia |].
  unfold node_ids in *. simpl. destruct (truthy_id node); simpl; lia.
Qed.

(** The node loop touches the seen set only.  When it completes, the
    seen set has gained the ids of the page, the rows added are those of
    the ids not seen before, each at its first occurrence, and the
    duplicate count has grown by one for every other occurrence. *)
Lemma ingest_nodes_spec (l : list (option RepoNode)) :
  forall repo_rows duplicates st,
    post (ingest_nodes l repo_rows duplicates) st (fun r st' =>
      st' = set_seen (seen_repo_nodes st') st /\
      match r with
      | Ok (rows', duplicates') =>
          seen_repo_nodes st'
          = list_to_set (node_ids l) ∪ seen_repo_nodes st /\
          row_id <$> rows'
          = (row_id <$> repo_rows)
              ++ fresh_ids (seen_repo_nodes st) (node_ids l) /\
          duplicates'
          = duplicates + Z.of_nat (length (node_ids l))
            - Z.of_nat (length (fresh_ids (seen_repo_nodes st) (node_ids l)))
      | Raise _ => True
      | OutOfFuel => False
      end).
Proof.
  induction l as [| node l IH]; intros repo_rows duplicates st.
  - unfold post. simpl. destruct st. split; [done |].
    split; [set_solver |]. split; [by rewrite app_nil_r | lia].
  - unfold post in *. unfold node_ids. cbn [ingest_nodes omap list_omap].
    destruct (truthy_id node) as [node_id |] eqn:Hid; [| apply IH].
    unfold mbind, M_bind, bind. cbn [get fst snd].
    case_bool_decide as Hseen.
    + specialize (IH repo_rows (duplicates + 1) st).
      destruct (ingest_nodes l repo_rows (duplicates + 1) st)
        as [[[rows' d'] | e |] st'] eqn:Hrun; simpl in *; [| done | done].
      destruct IH as (Hst & Hs & Hr & Hd). split; [done |].
      fold (node_ids l). case_bool_decide; [| done].
      split; [set_solver |]. split; [done | lia].
    + cbn [modify]. unfold _build_repo_row.
      destruct (node ≫= stargazerCount) as [n |]; cbn [ret raise].
      * set (st1 := set_seen ({[node_id]} ∪ seen_repo_nodes st) st).
        specialize (IH (repo_rows ++ [mkRow node_id n]) duplicates st1).
        destruct (ingest_nodes l (repo_rows ++ [mkRow node_id n])
                    duplicates st1)
          as [[[rows' d'] | e |] st'] eqn:Hrun; simpl in *; [| | done].
        -- destruct IH as (Hst & Hs & Hr & Hd). split.
           { rewrite Hst at 1. by destruct st. }
           fold (node_ids l). case_bool_decide; [done |].
           split; [set_solver |]. split.
           ++ rewrite Hr, fmap_app, <- app_assoc. done.
           ++ simpl. lia.
        -- destruct IH as [Hst _]. split; [| done].
           rewrite Hst at 1. by destruct st.
      * simpl. split; [by destruct st | done].
Qed.

End NodeLoop.

(** ** The trace *)

Section TraceFacts.

Import Crawler CrawlSpec Hoare.

Lemma upserted_snoc t e : concat (upserted (t ++ [e])) = concat (upserted t) ++ rows_of e.
Proof.
  unfold upserted. rewrite omap_app, concat_app.
  destruct e; simpl; by rewrite ?app_nil_r.
Qed.

Lemma ingested_snoc t e : concat (ingested (t ++ [e])) = concat (ingested t) ++ page_of e.
Proof.
  unfold ingested. rewrite omap_app, concat_app.
  destruct e; simpl; by rewrite ?app_nil_r.
Qed.

Lemma rows_written_snoc t e :
  rows_written (t ++ [e]) = rows_written t + Z.of_nat (length (rows_of e)).
Proof. unfold rows_written. rewrite upserted_snoc, length_app. lia. Qed.

Lemma upserted_ids_snoc t e :
  upserted_ids (t ++ [e]) = upserted_ids t ++ (row_id <$> rows_of e).
Proof. unfold upserted_ids. by rewrite upserted_snoc, fmap_app. Qed.

Lemma ingested_ids_snoc t e :
  ingested_ids (t ++ [e]) = ingested_ids t ++ node_ids (page_of e).
Proof. unfold ingested_ids, node_ids. by rewrite ingested_snoc, omap_app. Qed.

Lemma requests_snoc t e :
  requests (t ++ [e])
  = requests t ++ match e with Requested r => [r] | _ => [] end.
Proof. unfold requests. rewrite omap_app. by destruct e. Qed.

Lemma requests_within_target_snoc s t e :
  requests_within_target s t ->
  (forall r p, e = Requested r -> query r = PartitionQuery p ->
     first r = Z.min (page_size s) (target_repo_count s - rows_written t)) ->
  requests_within_target s (t ++ [e]).
Proof.
  intros Ht He t1 r t2 p Heq Hq.
  destruct t2 as [| x t2 _] using rev_ind.
  - apply app_inj_tail in Heq as [-> ->]. by eapply He.
  - rewrite app_comm_cons, app_assoc in Heq.
    apply app_inj_tail in Heq as [-> _]. by eapply Ht.
Qed.

Lemma requests_within_target_nil s : requests_within_target s [].
Proof. intros t1 r t2 p Heq. by destruct t1. Qed.

End TraceFacts.

(** ** The ingest loop *)

Section Orchestration.

Import Crawler CrawlSpec Hoare RunSpec.

Variable settings : Settings.
Variable today : date.
Variable execute : nat -> Request -> Exn + Data.
Variable upsert_fault : nat -> option Exn.
Variable finish_fault : nat -> option Exn.

Let T := target_repo_count settings.
Let bounded := bounded_pages execute.

Lemma post_bind_with {A B} (m : M A) (k : A -> M B) st
    (R : Result A -> State -> Prop) (Q : Result B -> State -> Prop) :
  post m st R ->
  (forall r st1, R r st1 -> after_bind k Q r st1) ->
  post (m ≫= k) st Q.
Proof. intros Hm HR. apply post_bind. eapply post_mono; eauto. Qed.

Lemma search_page_spec q ps c st :
  post (_search_page execute q ps c) st (fun r st' =>
    st' = log (Requested (mkRequest q ps c)) st /\
    match r with
    | Ok block =>
        bounded -> Z.of_nat (length (nodes_or_empty block)) <= ps
    | Raise _ => True
    | OutOfFuel => False
    end).
Proof.
  unfold post, _search_page, mbind, M_bind, bind, github_execute.
  destruct (execute _ _) as [e | d] eqn:Hex; simpl; [done |].
  destruct (search d) as [block |] eqn:Hs; simpl; [| done].
  split; [done |]. intros Hb. apply (Hb _ _ _ _ Hex Hs).
Qed.

Lemma upsert_page_spec rows st :
  post (upsert_page upsert_fault rows) st (fun r st' =>
    match r with
    | Ok _ => st' = match rows with [] => st | _ => log (Upserted rows) st end
    | Raise _ => st' = st
    | OutOfFuel => False
    end).
Proof.
  unfold post, upsert_page. destruct rows as [| row rows]; [done |].
  destruct (upsert_fault _); done.
Qed.

Lemma ingest_post_frame row_limit d d' st0 st r st' :
  ingest_frame st0 st ->
  rows_written (trace st0) <= rows_written (trace st) ->
  d' - d
  = (Z.of_nat (length (ingested_ids (trace st)))
     - Z.of_nat (length (ingested_ids (trace st0))))
    - (Z.of_nat (length (upserted_ids (trace st)))
       - Z.of_nat (length (upserted_ids (trace st0)))) ->
  ingest_post settings execute row_limit d' st r st' ->
  ingest_post settings execute row_limit d st0 r st'.
Proof.
  intros (F1 & F2 & F3 & F4) Hle Hd
         ((G1 & G2 & G3 & G4) & Hreq & Hrows & Hb & Hr).
  split; [unfold ingest_frame; repeat split; congruence |].
  split; [done |]. split; [lia |]. split; [done |].
  destruct r as [[p' d''] | |]; [| done | done].
  destruct Hr as (? & ? & ? & ?). repeat split; try done. lia.
Qed.

Lemma ingest_loop_spec (fuel : nat) :
  forall q row_limit cursor persisted duplicates search_block st,
    ingest_pre settings execute row_limit persisted search_block st ->
    post (ingest_loop settings execute upsert_fault fuel q row_limit cursor
                      persisted duplicates search_block) st
         (ingest_post settings execute row_limit duplicates st).
Proof.
  induction fuel as [| fuel IH];
    intros q row_limit cursor persisted duplicates search_block st
           (Hrows & Hreq & Hseen & Hups & Hbound).
  all: assert (NoDup (upserted_ids (trace st))) as Hnd
    by (rewrite Hups; apply fresh_ids_NoDup).
  { unfold post, ingest_post, ingest_frame. simpl.
    repeat split; try done; try lia. intros Hb. destruct (Hbound Hb). lia. }
  assert (ingest_post settings execute row_limit duplicates st
            (Ok (persisted, duplicates)) st) as Hstop.
  { unfold ingest_post, ingest_frame.
    repeat split; try done; try lia. intros Hb. destruct (Hbound Hb). lia. }
  cbn [ingest_loop]. destruct (Z.ltb_spec persisted row_limit) as [Hlt |];
    [| by apply post_ret].
  (* the page to ingest, and the state it is ingested in *)
  assert (forall block st1,
    (bounded ->
     Z.of_nat (length (nodes_or_empty block)) <= row_limit - persisted) ->
    ingest_frame st st1 ->
    trace st1 = trace st \/
      (exists r, trace st1 = trace st ++ [Requested r] /\
         first r = Z.min (page_size settings) (row_limit - persisted)) ->
    seen_repo_nodes st1 = seen_repo_nodes st ->
    post (match nodes_or_empty block with
          | [] => ret (persisted, duplicates)
          | l =>
              modify (log (Ingesting l)) ;;
              '(repo_rows, duplicates) ← ingest_nodes l [] duplicates;
              upsert_page upsert_fault repo_rows ;;
              let persisted := persisted + Z.of_nat (length repo_rows) in
              if negb (hasNextPage (pageInfo block)) then
                ret (persisted, duplicates)
              else
                match endCursor (pageInfo block) with
                | None => ret (persisted, duplicates)
                | Some c =>
                    ingest_loop settings execute upsert_fault fuel q
                                row_limit (Some c) persisted duplicates None
                end
          end) st1 (ingest_post settings execute row_limit duplicates st)) as Hpage.
  { intros block st1 Hlen Hframe Htrace Hseen1.
    assert (requests_within_target settings (trace st1)) as Hreq1.
    { destruct Htrace as [-> | (r & -> & Hr)]; [done |].
      apply requests_within_target_snoc; [done |].
      intros r' p [= <-] _. rewrite Hr. f_equal. unfold T in *. lia. }
    assert (rows_written (trace st1) = rows_written (trace st)) as Hrows1.
    { destruct Htrace as [-> | (r & -> & _)]; [done |].
      rewrite rows_written_snoc. simpl. lia. }
    assert (upserted_ids (trace st1) = upserted_ids (trace st)) as Hups1.
    { destruct Htrace as [-> | (r & -> & _)]; [done |].
      rewrite upserted_ids_snoc. simpl. by rewrite app_nil_r. }
    assert (ingested_ids (trace st1) = ingested_ids (trace st)) as Hing1.
    { destruct Htrace as [-> | (r & -> & _)]; [done |].
      rewrite ingested_ids_snoc. simpl. by rewrite app_nil_r. }
    assert (NoDup (upserted_ids (trace st1))) as Hnd1 by (by rewrite Hups1).
    assert (bounded -> rows_written (trace st) <= T) as Hbound0.
    { intros Hb. destruct (Hbound Hb). lia. }
    destruct (nodes_or_empty block) as [| node l] eqn:Hnodes.
    { apply post_ret. unfold ingest_post. split; [done |]. split; [done |].
      split; [lia |]. rewrite Hrows1, Hups1, Hing1, Hseen1.
      repeat split; try done; lia. }
    set (page := node :: l) in *.
    apply post_bind. apply post_modify. unfold after_bind.
    set (st2 := log (Ingesting page) st1).
    eapply post_bind_with; [apply ingest_nodes_spec |].
    intros r st3 [Hst3 Hr]. unfold after_bind.
    assert (ingest_frame st st3 /\ trace st3 = trace st1 ++ [Ingesting page])
      as [Hframe3 Htrace3].
    { rewrite Hst3. destruct Hframe as (? & ? & ? & ?).
      unfold ingest_frame. simpl. done. }
    assert (requests_within_target settings (trace st3)) as Hreq3.
    { rewrite Htrace3. apply requests_within_target_snoc; [done |].
      intros r' p [=]. }
    assert (rows_written (trace st3) = rows_written (trace st)) as Hrows3.
    { rewrite Htrace3, rows_written_snoc. simpl. lia. }
    assert (NoDup (upserted_ids (trace st3))) as Hnd3.
    { rewrite Htrace3, upserted_ids_snoc. simpl. by rewrite app_nil_r. }
    destruct r as [[repo_rows duplicates'] | e |]; [| | done].
    2: { unfold ingest_post. split; [done |]. split; [done |].
         split; [lia |]. split; [| done]. rewrite Hrows3. done. }
    destruct Hr as (Hseen3 & Hids & Hdups).
    change (row_id <$> []) with (@nil string) in Hids.
    rewrite app_nil_l in Hids.
    assert (length repo_rows
            = length (fresh_ids (seen_repo_nodes st2) (node_ids page)))
      as Hlenrows by (by rewrite <- Hids, length_fmap).
    assert (Z.of_nat (length repo_rows) <= Z.of_nat (length page)) as Hcount.
    { pose proof (fresh_ids_length (node_ids page) (seen_repo_nodes st2)).
      pose proof (node_ids_length page). lia. }
    eapply post_bind_with; [apply upsert_page_spec |].
    intros r st4 Hr. unfold after_bind.
    destruct r as [[] | e |]; [| | done].
    2: { subst st4. unfold ingest_post. split; [done |]. split; [done |].
         split; [lia |]. split; [| done]. rewrite Hrows3. done. }
    assert (ingest_frame st st4 /\
            trace st4 = trace st3 ++ match repo_rows with
                                     | [] => []
                                     | _ => [Upserted repo_rows]
                                     end) as [Hframe4 Htrace4].
    { subst st4. destruct repo_rows; [by rewrite app_nil_r |].
      destruct Hframe3 as (? & ? & ? & ?). unfold ingest_frame. done. }
    assert (seen_repo_nodes st4 = seen_repo_nodes st3) as Hseen4.
    { subst st4. by destruct repo_rows. }
    assert (rows_written (trace st4)
            = rows_written (trace st) + Z.of_nat (length repo_rows)) as Hrows4.
    { rewrite Htrace4. destruct repo_rows as [| row rows].
      - rewrite app_nil_r. simpl. lia.
      - rewrite rows_written_snoc. simpl rows_of. lia. }
    assert (upserted_ids (trace st4)
            = upserted_ids (trace st) ++ (row_id <$> repo_rows)) as Hups4.
    { rewrite Htrace4. destruct repo_rows as [| row rows].
      - rewrite !app_nil_r, Htrace3, upserted_ids_snoc. simpl.
        by rewrite !app_nil_r.
      - rewrite upserted_ids_snoc, Htrace3, upserted_ids_snoc. simpl.
        by rewrite app_nil_r, Hups1. }
    assert (ingested_ids (trace st4)
            = ingested_ids (trace st) ++ node_ids page) as Hing4.
    { rewrite Htrace4. destruct repo_rows as [| row rows].
      - by rewrite app_nil_r, Htrace3, ingested_ids_snoc, Hing1.
      - rewrite ingested_ids_snoc, Htrace3, ingested_ids_snoc. simpl.
        by rewrite app_nil_r, Hing1. }
    assert (requests_within_target settings (trace st4)) as Hreq4.
    { rewrite Htrace4. destruct repo_rows; [by rewrite app_nil_r |].
      apply requests_within_target_snoc; [done |]. intros r' p [=]. }
    assert (seen_repo_nodes st2 = list_to_set (ingested_ids (trace st)))
      as Hseen2 by (simpl; congruence).
    assert (seen_repo_nodes st4 = list_to_set (ingested_ids (trace st4)))
      as Hseen4'.
    { rewrite Hseen4, Hseen3, Hseen2, Hing4, list_to_set_app_L. set_solver. }
    assert (upserted_ids (trace st4)
            = fresh_ids ∅ (ingested_ids (trace st4))) as Hfresh4.
    { rewrite Hups4, Hing4, fresh_ids_app, Hids, Hups, Hseen2. simpl.
      f_equal. f_equal. set_solver. }
    assert (NoDup (upserted_ids (trace st4))) as Hnd4
      by (rewrite Hfresh4; apply fresh_ids_NoDup).
    assert (bounded ->
            persisted + Z.of_nat (length repo_rows) <= row_limit) as Hfit.
    { intros Hb. specialize (Hlen Hb). lia. }
    assert (ingest_pre settings execute row_limit (persisted + Z.of_nat (length repo_rows))
                       None st4) as Hpre4.
    { unfold ingest_pre. split; [lia |]. repeat split; try done.
      by apply Hfit. }
    assert (ingest_post settings execute row_limit duplicates st
              (Ok (persisted + Z.of_nat (length repo_rows), duplicates')) st4)
      as Hdone.
    { unfold ingest_post. split; [done |]. split; [done |]. split; [lia |].
      split; [intros Hb; specialize (Hfit Hb); lia |].
      split; [lia |]. split; [done |]. split; [done |].
      rewrite Hups4, Hing4, !length_app, length_fmap. lia. }
    cbv zeta.
    destruct (hasNextPage (pageInfo block)); simpl; [| by apply post_ret].
    destruct (endCursor (pageInfo block)) as [c |]; [| by apply post_ret].
    eapply post_mono; [apply IH, Hpre4 |].
    intros r st5 Hpost. eapply ingest_post_frame; [done | lia | | exact Hpost].
    rewrite Hups4, Hing4, !length_app, length_fmap. lia. }
  destruct search_block as [block |].
  - change (ret block ≫= ?k) with (k block). cbv beta.
    apply Hpage; try done.
    + intros Hb. destruct (Hbound Hb) as [_ Hfirst].
      specialize (Hfirst block eq_refl). lia.
    + by left.
  - eapply post_bind_with; [apply search_page_spec |].
    intros r st1 [-> Hr]. unfold after_bind.
    destruct r as [block | e |]; [| | done].
    + apply Hpage; try done.
      * intros Hb. specialize (Hr Hb). lia.
      * right. eexists. split; [done |]. done.
    + unfold ingest_post, ingest_frame. simpl. split; [done |].
      split.
      * split.
        -- apply requests_within_target_snoc; [done |].
           intros r' p [= <-] _. simpl. f_equal. unfold T in *. lia.
        -- rewrite upserted_ids_snoc. simpl. by rewrite app_nil_r.
      * rewrite rows_written_snoc. simpl. split; [lia |].
        split; [| done]. intros Hb. destruct (Hbound Hb). lia.
Qed.

Lemma ingest_loop_requests (fuel : nat) :
  forall q row_limit cursor persisted duplicates search_block st,
    (search_block = None -> is_Some cursor) ->
    post (ingest_loop settings execute upsert_fault fuel q row_limit cursor
                      persisted duplicates search_block) st
         (fun r st' =>
            ingest_frame st st' /\
            exists more, trace st' = trace st ++ more /\ later_pages q more).
Proof.
  assert (forall st, ingest_frame st st /\
            exists more, trace st = trace st ++ more /\
                         forall r, Requested r ∈ more ->
                                   False) as Hsame.
  { intros st. split; [done |]. exists []. rewrite app_nil_r.
    split; [done |]. intros r Hin. by apply elem_of_nil in Hin. }
  assert (forall q st,
    ingest_frame st st /\
    exists more, trace st = trace st ++ more /\ later_pages q more)
    as Hnone.
  { intros q st. destruct (Hsame st) as [? (more & ? & Hm)].
    split; [done |]. exists more. split; [done |].
    intros r Hin. by destruct (Hm r Hin). }
  induction fuel as [| fuel IH];
    intros q row_limit cursor persisted duplicates search_block st Hcur.
  { cbn [ingest_loop]. apply post_out_of_fuel. by apply Hnone. }
  cbn [ingest_loop]. destruct (persisted <? row_limit);
    [| apply post_ret; by apply Hnone].
  assert (forall block st1 more1,
    ingest_frame st st1 -> trace st1 = trace st ++ more1 ->
    later_pages q more1 ->
    post (match nodes_or_empty block with
          | [] => ret (persisted, duplicates)
          | l =>
              modify (log (Ingesting l)) ;;
              '(repo_rows, duplicates) ← ingest_nodes l [] duplicates;
              upsert_page upsert_fault repo_rows ;;
              let persisted := persisted + Z.of_nat (length repo_rows) in
              if negb (hasNextPage (pageInfo block)) then
                ret (persisted, duplicates)
              else
                match endCursor (pageInfo block) with
                | None => ret (persisted, duplicates)
                | Some c =>
                    ingest_loop settings execute upsert_fault fuel q
                                row_limit (Some c) persisted duplicates None
                end
          end) st1
         (fun r st' =>
            ingest_frame st st' /\
            exists more, trace st' = trace st ++ more /\ later_pages q more))
    as Hpage.
  { intros block st1 more1 Hframe Htrace Hmore1.
    assert (forall st2 extra,
      ingest_frame st st2 -> trace st2 = trace st1 ++ extra ->
      (forall r, Requested r ∈ extra -> False) ->
      ingest_frame st st2 /\
      exists more, trace st2 = trace st ++ more /\ later_pages q more)
      as Hext.
    { intros st2 extra Hf Ht Hx. split; [done |].
      exists (more1 ++ extra). rewrite Ht, Htrace, app_assoc.
      split; [done |]. intros r [Hin | Hin]%elem_of_app; [by apply Hmore1 |].
      by destruct (Hx r Hin). }
    destruct (nodes_or_empty block) as [| node l].
    { apply post_ret. apply (Hext st1 []); [done | by rewrite app_nil_r |].
      intros r Hin. by apply elem_of_nil in Hin. }
    set (page := node :: l).
    apply post_bind, post_modify. unfold after_bind.
    eapply post_bind_with; [apply ingest_nodes_spec |].
    intros r st3 [Hst3 Hr]. unfold after_bind.
    assert (ingest_frame st st3 /\ trace st3 = trace st1 ++ [Ingesting page])
      as [Hframe3 Htrace3].
    { rewrite Hst3. destruct Hframe as (? & ? & ? & ?).
      unfold ingest_frame. simpl. done. }
    assert (forall r, Requested r ∈ [Ingesting page] -> False) as Hx3.
    { intros r' Hin. apply list_elem_of_singleton in Hin. discriminate. }
    destruct r as [[repo_rows duplicates'] | e |]; [| | done].
    2: { by apply (Hext st3 [Ingesting page]). }
    eapply post_bind_with; [apply upsert_page_spec |].
    intros r st4 Hr4. unfold after_bind.
    destruct r as [[] | e |]; [| | done].
    2: { subst st4. by apply (Hext st3 [Ingesting page]). }
    set (written := match repo_rows with
                    | [] => []
                    | _ => [Upserted repo_rows]
                    end).
    assert (ingest_frame st st4 /\
            trace st4 = trace st1 ++ ([Ingesting page] ++ written))
      as [Hframe4 Htrace4].
    { subst st4 written. destruct repo_rows.
      - by rewrite app_nil_r.
      - destruct Hframe3 as (? & ? & ? & ?). unfold ingest_frame. simpl.
        rewrite Htrace3, <- app_assoc. done. }
    assert (forall r, Requested r ∈ [Ingesting page] ++ written -> False)
      as Hx4.
    { intros r' [Hin | Hin]%elem_of_app; [by eapply Hx3 |].
      subst written. destruct repo_rows.
      - by apply elem_of_nil in Hin.
      - apply list_elem_of_singleton in Hin. discriminate. }
    pose proof (Hext st4 _ Hframe4 Htrace4 Hx4) as Hend.
    cbv zeta.
    destruct (hasNextPage (pageInfo block)); simpl; [| by apply post_ret].
    destruct (endCursor (pageInfo block)) as [c |]; [| by apply post_ret].
    eapply post_mono; [apply IH; by intros _ |].
    intros r st5 ((G1 & G2 & G3 & G4) & more5 & Ht5 & Hm5).
    destruct Hend as [(F1 & F2 & F3 & F4) (more4 & Ht4 & Hm4)].
    split; [unfold ingest_frame; repeat split; congruence |].
    exists (more4 ++ more5). rewrite Ht5, Ht4, app_assoc. split; [done |].
    intros r' [Hin | Hin]%elem_of_app; [by apply Hm4 | by apply Hm5]. }
  destruct search_block as [block |].
  - change (ret block ≫= ?k) with (k block). cbv beta.
    apply (Hpage block st []); [done | by rewrite app_nil_r |].
    intros r Hin. by apply elem_of_nil in Hin.
  - eapply post_bind_with; [apply search_page_spec |].
    intros r st1 [-> Hr]. unfold after_bind.
    assert (later_pages q [Requested (mkRequest q
              (Z.min (page_size settings) (row_limit - persisted)) cursor)])
      as Hlater.
    { intros r' Hin. apply list_elem_of_singleton in Hin. simplify_eq.
      split; [done |]. by apply Hcur. }
    destruct r as [block | e |]; [| | done].
    + eapply Hpage; [done | done | done].
    + split; [done |]. eexists. split; [done | done].
Qed.

Lemma loop_inv_probed e rest st :
  loop_inv settings st -> loop_inv settings (probed settings e rest st).
Proof.
  intros (Hp & Hreq & Hseen & Hups & Hdups). unfold loop_inv, probed. simpl.
  rewrite rows_written_snoc, upserted_ids_snoc, ingested_ids_snoc. simpl.
  rewrite !app_nil_r. repeat split; try done; try lia.
  apply requests_within_target_snoc; [done |].
  intros r p [= <-] _. simpl. rewrite Hp. done.
Qed.

Lemma loop_inv_stats f st :
  repos_persisted (f (stats st)) = repos_persisted (stats st) ->
  duplicate_repo_nodes (f (stats st)) = duplicate_repo_nodes (stats st) ->
  loop_inv settings st -> loop_inv settings (set_stats f st).
Proof.
  intros E1 E2 (Hp & Hreq & Hseen & Hups & Hdups). unfold loop_inv. simpl.
  rewrite E1, E2. done.
Qed.

Lemma loop_inv_run_inv st : loop_inv settings st -> run_inv settings st.
Proof.
  intros (Hp & Hreq & _ & Hups & _). split; [lia |]. split; [done |].
  rewrite Hups. apply fresh_ids_NoDup.
Qed.

Lemma iteration_post_ok st st1 st' f :
  loop_inv settings st1 ->
  rows_written (trace st) <= rows_written (trace st1) ->
  (bounded -> rows_written (trace st1) <= T) ->
  run st1 = run st ->
  repos_persisted (f (stats st1)) = repos_persisted (stats st1) ->
  duplicate_repo_nodes (f (stats st1)) = duplicate_repo_nodes (stats st1) ->
  trace st' = trace st1 -> stats st' = f (stats st1) ->
  seen_repo_nodes st' = seen_repo_nodes st1 -> run st' = run st1 ->
  iteration_post settings execute st (Ok tt) st'.
Proof.
  intros (Hp & Hreq & Hseen & Hups & Hdups) Hle Hb Hrun E1 E2 Ht Hs Hse Hr.
  assert (loop_inv settings st') as Hinv'.
  { unfold loop_inv. rewrite Ht, Hs, Hse, E1, E2. done. }
  split; [congruence |]. split; [by apply loop_inv_run_inv |].
  rewrite Ht. done.
Qed.

Lemma process_partition_spec fuel e rest st :
  loop_inv settings st ->
  repos_persisted (stats st) < T ->
  post (process_partition settings today execute upsert_fault fuel e rest) st
       (iteration_post settings execute st).
Proof.
  intros Hinv Hlt. unfold process_partition.
  apply post_bind, post_modify. unfold after_bind.
  apply post_bind, post_modify. unfold after_bind.
  apply post_bind, post_get. unfold after_bind.
  eapply post_bind_with; [apply search_page_spec |].
  intros r st1 [Hst1 Hr]. unfold after_bind.
  change (target_repo_count settings) with T in Hr |- *.
  change (repos_persisted (stats (set_stats add_processed (set_queue rest st))))
    with (repos_persisted (stats st)) in Hr |- *.
  assert (st1 = probed settings e rest st) as -> by done. clear Hst1.
  pose proof (loop_inv_probed e rest st Hinv) as Hinv1.
  set (st1 := probed settings e rest st) in *.
  assert (rows_written (trace st1) = rows_written (trace st)) as Hrows1.
  { unfold st1, probed. simpl. rewrite rows_written_snoc. simpl. lia. }
  assert (run st1 = run st) as Hrun1 by done.
  assert (stats st1 = add_processed (stats st)) as Hstats1 by done.
  assert (repos_persisted (stats st1) = repos_persisted (stats st)) as Hps1
    by done.
  assert (bounded -> rows_written (trace st1) <= T) as Hb1.
  { intros _. destruct Hinv as (Hp & _). lia. }
  assert (forall exc, iteration_post settings execute st (Raise exc) st1)
    as Hraise.
  { intros exc. split; [done |]. split; [by apply loop_inv_run_inv |].
    split; [lia |]. split; [done |]. intros [=]. }
  destruct r as [block | exc |]; [| by apply Hraise | done].
  (* the three fates *)
  set (remaining := T - repos_persisted (stats st)) in *.
  assert (post
    ('(persisted, duplicates) ←
       _ingest_partition settings execute upsert_fault fuel
         (PartitionQuery (partition e)) remaining (Some block);
     modify (set_stats (add_ingested persisted duplicates)))
    st1 (iteration_post settings execute st)) as Hingest.
  { eapply post_bind_with.
    - apply ingest_loop_spec. destruct Hinv1 as (Hp & Hreq & Hseen & Hups & _).
      unfold ingest_pre. split; [unfold remaining; lia |].
      repeat split; try done; [unfold remaining; lia |].
      intros b [= <-]. specialize (Hr H). simpl in Hr. lia.
    - intros r st2 ((F1 & F2 & F3 & F4) & [Hreq2 Hnd2] & Hle2 & Hb2 & Hres).
      unfold after_bind. destruct r as [[persisted duplicates] | exc |].
      + apply post_modify.
        destruct Hres as (Hrows2 & Hseen2 & Hups2 & Hdups2).
        destruct Hinv1 as (Hp & _ & _ & _ & Hd).
        split; [simpl; congruence |].
        assert (loop_inv settings
                  (set_stats (add_ingested persisted duplicates) st2)) as Hinv2.
        { unfold loop_inv. simpl. rewrite F1.
          repeat split; try done; unfold remaining in *; lia. }
        split; [by apply loop_inv_run_inv |]. split; [cbn [trace set_stats]; lia |].
        split; [done | done].
      + split; [congruence |]. split.
        { split; [| done]. rewrite F1. destruct Hinv1 as (Hp & _). lia. }
        split; [lia |]. split; [done |]. intros [=].
      + split; [congruence |]. split.
        { split; [| done]. rewrite F1. destruct Hinv1 as (Hp & _). lia. }
        split; [lia |]. split; [done |]. intros [=]. }
  unfold _partition_count.
  destruct (repositoryCount block) as [count |];
    [| destruct (totalCount block) as [count |]].
  3: { apply post_bind, post_raise. apply Hraise. }
  all: change (ret count ≫= ?k) with (k count); cbv beta zeta.
  all: destruct (count =? 0);
    [apply post_modify;
     by eapply (iteration_post_ok st st1 _ add_skipped); try lia |].
  all: destruct (count >? max_partition_results settings); [| exact Hingest].
  all: destruct (_split_partition (partition e) today) as [[child1 child2] |];
    [| exact Hingest].
  all: apply post_bind, post_modify; unfold after_bind.
  all: apply post_bind, post_modify; unfold after_bind.
  all: apply post_modify.
  all: by eapply (iteration_post_ok st st1 _ add_split); try lia.
Qed.

Lemma crawl_loop_spec (fuel : nat) :
  forall st,
    loop_inv settings st ->
    post (crawl_loop settings today execute upsert_fault fuel) st
         (crawl_loop_post settings execute st).
Proof.
  induction fuel as [| fuel IH]; intros st Hinv.
  { apply post_out_of_fuel. split; [done |].
    split; [by apply loop_inv_run_inv |]. split; [done |]. intros [=]. }
  assert (crawl_loop_post settings execute st (Ok tt) st) as Hstop.
  { split; [done |]. split; [by apply loop_inv_run_inv | done]. }
  cbn [crawl_loop]. apply post_bind, post_get. unfold after_bind.
  destruct (negb _ && _) eqn:Hcond; [| by apply post_ret].
  apply andb_true_iff in Hcond as [_ Hlt%Z.ltb_lt].
  destruct (heappop (queue st)) as [[e rest] |].
  2: { apply post_raise. split; [done |].
       split; [by apply loop_inv_run_inv |]. split; [done |]. intros [=]. }
  eapply post_bind_with; [by apply process_partition_spec |].
  intros r st1 (Hrun & Hrinv & Hle & Hb & Hok). unfold after_bind.
  destruct r as [[] | exc |].
  - eapply post_mono; [apply IH; by apply Hok |].
    intros r st2 (Hrun2 & Hrinv2 & Hb2 & Hok2).
    split; [congruence |]. split; [done |]. split; [| done].
    intros Hbd _. apply Hb2; [done | by apply Hb].
  - split; [done |]. split; [done |]. split; [by intros ? _; apply Hb |].
    intros [=].
  - split; [done |]. split; [done |]. split; [by intros ? _; apply Hb |].
    intros [=].
Qed.

Lemma max_stars_spec st :
  post (_max_stars execute) st (fun r st' =>
    st' = log (Requested max_stars_request) st /\ r <> OutOfFuel).
Proof.
  unfold post, _max_stars, mbind, M_bind, bind, github_execute.
  destruct (execute _ _) as [e | d]; simpl; [done |].
  destruct (search d) as [block |]; simpl; [| done].
  destruct (first_star_count _); done.
Qed.

Lemma run_inv_set_run r st : run_inv settings st -> run_inv settings (set_run r st).
Proof. done. Qed.

(** What a call of [finish_run] does to a row that is still [running]. *)
Lemma finish_run_spec status error_message st calls :
  run st = unfinished_row settings calls ->
  post (finish_run finish_fault status error_message) st (fun r st' =>
    st' = set_run (run st') st /\
    match r with
    | Ok _ =>
        finish_fault calls = None /\
        run st' = finished_row settings status (stats st) error_message
                               (S calls)
    | Raise e =>
        finish_fault calls = Some e /\
        run st' = unfinished_row settings (S calls)
    | OutOfFuel => False
    end).
Proof.
  intros Hrun. unfold post, finish_run. rewrite Hrun. simpl.
  destruct (finish_fault calls) as [e |]; simpl.
  - done.
  - split; [done |]. split; [done |].
    unfold finished, finished_row. by rewrite Hrun.
Qed.

(** A call of [finish_run] touches the row only, and returns or
    raises. *)
Lemma finish_run_frame status error_message st :
  post (finish_run finish_fault status error_message) st (fun r st' =>
    st' = set_run (run st') st /\
    match r with
    | Ok _ => run st' = finished status st error_message
    | Raise _ => run st' = attempted (run st)
    | OutOfFuel => False
    end).
Proof.
  unfold post, finish_run. by destruct (finish_fault _).
Qed.

(** The handler: whatever [finish_run] does, the call raises. *)
Lemma handler_raises exc st :
  exists exc' st',
    (finish_run finish_fault failed (Some (str_exn exc));;
     (raise exc : M CrawlStats)) st
    = (Raise exc', st') /\
    st' = set_run (run st') st.
Proof.
  pose proof (finish_run_frame failed (Some (str_exn exc)) st) as Hfinish.
  unfold post in Hfinish. unfold mbind, M_bind, bind.
  destruct (finish_run _ _ _ st) as [[[] | exc' |] st'];
    simpl in *; destruct Hfinish as [Hst' Hr]; [| | done]; eauto.
Qed.

(** A call is cut short by the fuel only if its body is. *)
Lemma crawl_once_not_cut fuel st0 :
  fst (crawl_body settings today execute upsert_fault finish_fault fuel
                  (start_run settings st0)) <> OutOfFuel ->
  fst (crawl_once settings today execute upsert_fault finish_fault fuel st0)
  <> OutOfFuel.
Proof.
  unfold crawl_once.
  destruct (crawl_body _ _ _ _ _ _ _) as [[stats' | exc |] st];
    simpl; [done | | done].
  intros _. destruct (handler_raises exc st) as (exc' & st' & -> & _).
  done.
Qed.

Lemma crawl_body_spec fuel st0 :
  post (crawl_body settings today execute upsert_fault finish_fault fuel)
       (start_run settings st0) (fun r st =>
    run_inv settings st /\
    (bounded -> 0 <= T -> rows_written (trace st) <= T) /\
    body_post settings finish_fault r st).
Proof.
  unfold crawl_body.
  eapply post_bind_with; [apply max_stars_spec |].
  intros r st1 [-> Hfuel]. unfold after_bind.
  set (st1 := log (Requested max_stars_request) (start_run settings st0)).
  assert (run_inv settings st1) as Hrinv1.
  { split; [unfold st1, rows_written; simpl; lia |].
    split; [| apply NoDup_nil_2].
    intros t1 r' t2 p Heq Hq. unfold st1 in Heq. simpl in Heq.
    destruct t1 as [| x [| y t1]]; by simplify_eq/=. }
  assert (bounded -> 0 <= T -> rows_written (trace st1) <= T) as Hb1
    by (by intros _ ?).
  destruct r as [max_stars | exc |];
    [| split; [done |]; split; [done |]; by left | done].
  apply post_bind, post_modify. unfold after_bind.
  apply post_bind, post_modify. unfold after_bind.
  apply post_bind, post_modify. unfold after_bind.
  match goal with |- post _ ?S _ => set (st2 := S) end.
  assert (loop_inv settings st2) as Hinv2.
  { destruct Hrinv1 as (_ & Hreq & _). unfold loop_inv.
    repeat split; done. }
  eapply post_bind_with; [by apply crawl_loop_spec |].
  intros r st3 (Hrun & Hrinv & Hb & Hok). unfold after_bind.
  assert (bounded -> 0 <= T -> rows_written (trace st3) <= T) as Hb3.
  { intros Hbd HT. apply Hb; [done |]. by apply Hb1. }
  assert (run st3 = unfinished_row settings 0) as Hrun3 by (by rewrite Hrun).
  destruct r as [[] | exc |];
    [| split; [done |]; split; [done |]; by left | done].
  apply post_bind, post_get. unfold after_bind.
  eapply post_bind_with; [by apply (finish_run_spec _ _ _ 0%nat) |].
  intros r st4 [Hst4 Hr]. unfold after_bind.
  assert (run_inv settings st4 /\
          (bounded -> 0 <= T -> rows_written (trace st4) <= T)) as [? ?]
    by (by rewrite Hst4).
  destruct r as [[] | exc |]; [| | done].
  - apply post_ret. destruct Hr as [Hnone Hrow].
    split; [done |]. split; [done |]. unfold body_post.
    split; [by rewrite Hst4 |].
    split; [rewrite Hst4; by apply Hok |]. split; [done |].
    by rewrite Hrow.
  - destruct Hr as [Hsome Hrow]. split; [done |]. split; [done |].
    by right.
Qed.

Lemma crawl_once_spec fuel st0 :
  post (crawl_once settings today execute upsert_fault finish_fault fuel) st0
       (crawl_post settings execute finish_fault).
Proof.
  pose proof (crawl_body_spec fuel st0) as Hbody.
  unfold post, crawl_once in *.
  destruct (crawl_body _ _ _ _ _ _ _) as [[stats' | exc |] st];
    simpl in *; [done | | done].
  destruct Hbody as (Hrinv & Hb & Hrow).
  assert (exists calls : nat,
            (calls = 0%nat \/
             (calls = 1%nat /\ is_Some (finish_fault 0%nat))) /\
            run st = unfinished_row settings calls)
    as (calls & Hcalls & Hrun).
  { destruct Hrow as [Hrow | [Hfault Hrow]];
      [exists 0%nat | exists 1%nat]; split; try done; [by left |].
    right. by rewrite Hfault. }
  pose proof (finish_run_spec failed (Some (str_exn exc)) st calls Hrun)
    as Hfinish.
  unfold post in Hfinish. unfold mbind, M_bind, bind.
  destruct (finish_run _ _ _ st) as [[[] | exc' |] st'];
    simpl in *; destruct Hfinish as [Hst' Hr]; [| | done].
  all: split; [by rewrite Hst' |]; split; [by rewrite Hst' |].
  all: exists (S calls); destruct Hr as [Hfault Hrow'].
  all: split; [destruct Hcalls as [-> | [-> ?]]; [by left | by right] |].
  all: simpl; rewrite Hfault.
  - rewrite Hrow'. by rewrite Hst'.
  - done.
Qed.

(** ** Fuel

    A result other than [OutOfFuel] does not depend on the fuel: more
    fuel gives the same result and the same state. *)

Lemma extends_refl {A} (m : M A) : extends m m.
Proof. by intros st _. Qed.

Lemma extends_bind {A B} (m m' : M A) (k k' : A -> M B) :
  extends m m' -> (forall a, extends (k a) (k' a)) ->
  extends (m ≫= k) (m' ≫= k').
Proof.
  intros Hm Hk st Hfuel. unfold mbind, M_bind, bind in *.
  destruct (m st) as [[a | exc |] st1] eqn:Hrun.
  - rewrite (Hm st) by (by rewrite Hrun). rewrite Hrun. by apply Hk.
  - rewrite (Hm st) by (by rewrite Hrun). by rewrite Hrun.
  - done.
Qed.

Lemma ingest_loop_extends (fuel : nat) :
  forall fuel' q row_limit cursor persisted duplicates search_block,
    (fuel <= fuel')%nat ->
    extends
      (ingest_loop settings execute upsert_fault fuel q row_limit cursor
                   persisted duplicates search_block)
      (ingest_loop settings execute upsert_fault fuel' q row_limit cursor
                   persisted duplicates search_block).
Proof.
  induction fuel as [| fuel IH];
    intros fuel' q row_limit cursor persisted duplicates search_block Hle.
  { by intros st Hfuel. }
  destruct fuel' as [| fuel']; [lia |]. cbn [ingest_loop].
  destruct (persisted <? row_limit); [| apply extends_refl].
  apply extends_bind; [apply extends_refl |]. intros block.
  destruct (nodes_or_empty block) as [| node l]; [apply extends_refl |].
  apply extends_bind; [apply extends_refl |]. intros _.
  apply extends_bind; [apply extends_refl |]. intros [repo_rows dups].
  apply extends_bind; [apply extends_refl |]. intros _. cbv zeta.
  destruct (negb _); [apply extends_refl |].
  destruct (endCursor _); [| apply extends_refl].
  apply IH. lia.
Qed.

Lemma process_partition_extends (fuel fuel' : nat) e rest :
  (fuel <= fuel')%nat ->
  extends
    (process_partition settings today execute upsert_fault fuel e rest)
    (process_partition settings today execute upsert_fault fuel' e rest).
Proof.
  intros Hle. unfold process_partition.
  apply extends_bind; [apply extends_refl |]. intros _.
  apply extends_bind; [apply extends_refl |]. intros _.
  apply extends_bind; [apply extends_refl |]. intros st.
  apply extends_bind; [apply extends_refl |]. intros block.
  apply extends_bind; [apply extends_refl |]. intros count. cbv zeta.
  assert (extends
    ('(persisted, duplicates) ←
       _ingest_partition settings execute upsert_fault fuel
         (PartitionQuery (partition e))
         (target_repo_count settings - repos_persisted (stats st))
         (Some block);
     modify (set_stats (add_ingested persisted duplicates)))
    ('(persisted, duplicates) ←
       _ingest_partition settings execute upsert_fault fuel'
         (PartitionQuery (partition e))
         (target_repo_count settings - repos_persisted (stats st))
         (Some block);
     modify (set_stats (add_ingested persisted duplicates)))) as Hingest.
  { apply extends_bind; [by apply ingest_loop_extends |].
    intros [persisted duplicates]. apply extends_refl. }
  destruct (count =? 0); [apply extends_refl |].
  destruct (count >? _); [| exact Hingest].
  destruct (_split_partition _ _) as [[child1 child2] |];
    [apply extends_refl | exact Hingest].
Qed.

Lemma crawl_loop_extends (fuel : nat) :
  forall fuel', (fuel <= fuel')%nat ->
    extends (crawl_loop settings today execute upsert_fault fuel)
            (crawl_loop settings today execute upsert_fault fuel').
Proof.
  induction fuel as [| fuel IH]; intros fuel' Hle.
  { by intros st Hfuel. }
  destruct fuel' as [| fuel']; [lia |]. cbn [crawl_loop].
  apply extends_bind; [apply extends_refl |]. intros st.
  destruct (negb _ && _); [| apply extends_refl].
  destruct (heappop _) as [[e rest] |]; [| apply extends_refl].
  apply extends_bind; [apply process_partition_extends; lia |].
  intros _. apply IH. lia.
Qed.

Lemma crawl_once_extends (fuel fuel' : nat) :
  (fuel <= fuel')%nat ->
  extends (crawl_once settings today execute upsert_fault finish_fault fuel)
          (crawl_once settings today execute upsert_fault finish_fault fuel').
Proof.
  intros Hle st0 Hfuel. unfold crawl_once in *.
  assert (extends (crawl_body settings today execute upsert_fault finish_fault
        fuel)
                  (crawl_body settings today execute upsert_fault finish_fault
                        fuel'))
    as Hbody.
  { unfold crawl_body.
    apply extends_bind; [apply extends_refl |]. intros max_stars.
    apply extends_bind; [apply extends_refl |]. intros _.
    apply extends_bind; [apply extends_refl |]. intros _.
    apply extends_bind; [apply extends_refl |]. intros _.
    apply extends_bind; [by apply crawl_loop_extends |]. intros _.
    apply extends_refl. }
  rewrite (Hbody (start_run settings st0)); [done |].
  destruct (crawl_body _ _ _ _ _ fuel _) as [[| |] ?]; [done | done |].
  by simpl in Hfuel.
Qed.

(** ** Properties of a run *)

(** The requests of one iteration: the probe, then later pages of the
    same query. *)
Lemma process_partition_requests
    (fuel : nat) (e : Entry) (rest : list Entry) (st : State) :
  exists more,
    trace (snd (process_partition settings today execute upsert_fault
                                  fuel e rest st))
    = trace st ++ Requested (probe_request settings e st) :: more /\
    later_pages (PartitionQuery (partition e)) more.
Proof.
  change (post (process_partition settings today execute upsert_fault
                                  fuel e rest) st
            (fun _ st' => exists more,
               trace st' = trace st ++ Requested (probe_request settings e st) :: more
               /\ later_pages (PartitionQuery (partition e)) more)).
  unfold process_partition.
  apply post_bind, post_modify. unfold after_bind.
  apply post_bind, post_modify. unfold after_bind.
  apply post_bind, post_get. unfold after_bind.
  eapply post_bind_with; [apply search_page_spec |].
  intros r st1 [Hst1 _]. unfold after_bind.
  assert (st1 = probed settings e rest st) as -> by done. clear Hst1.
  set (st1 := probed settings e rest st) in *.
  assert (forall st',
    trace st' = trace st1 ->
    exists more,
      trace st' = trace st ++ Requested (probe_request settings e st) :: more /\
      later_pages (PartitionQuery (partition e)) more) as Hnone.
  { intros st' ->. exists []. split; [done |].
    intros r' Hin. by apply elem_of_nil in Hin. }
  destruct r as [block | exc |]; [| by apply Hnone | by apply Hnone].
  assert (forall row_limit, post
    ('(persisted, duplicates) ←
       _ingest_partition settings execute upsert_fault fuel
         (PartitionQuery (partition e)) row_limit (Some block);
     modify (set_stats (add_ingested persisted duplicates)))
    st1 (fun _ st' => exists more,
           trace st' = trace st ++ Requested (probe_request settings e st) :: more /\
           later_pages (PartitionQuery (partition e)) more)) as Hingest.
  { intros row_limit. eapply post_bind_with.
    - apply ingest_loop_requests. intros [=].
    - intros r st2 (_ & more & Ht & Hm). unfold after_bind.
      assert (exists more,
        trace st2 = trace st ++ Requested (probe_request settings e st) :: more /\
        later_pages (PartitionQuery (partition e)) more) as Hgoal.
      { exists more. rewrite Ht. unfold st1, probed. simpl.
        by rewrite <- app_assoc. }
      destruct r as [[persisted duplicates] | exc |]; [| done | done].
      by apply post_modify. }
  unfold _partition_count.
  destruct (repositoryCount block) as [count |];
    [| destruct (totalCount block) as [count |]].
  3: { apply post_bind, post_raise. by apply Hnone. }
  all: change (ret count ≫= ?k) with (k count); cbv beta zeta.
  all: destruct (count =? 0); [apply post_modify; by apply Hnone |].
  all: destruct (count >? max_partition_results settings);
    [| apply Hingest].
  all: destruct (_split_partition (partition e) today) as [[child1 child2] |];
    [| apply Hingest].
  all: apply post_bind, post_modify; unfold after_bind.
  all: apply post_bind, post_modify; unfold after_bind.
  all: apply post_modify; by apply Hnone.
Qed.

(** When the probe counts something and the partition is within the cap
    or cannot be split, the iteration is the ingestion of the partition
    with what is left of the target as row limit and the probe's answer
    as first page. *)
Lemma process_partition_ingests
    (fuel : nat) (e : Entry) (rest : list Entry) (st : State)
    (d : Data) (block : SearchBlock) (count : Z) :
  execute (length (requests (trace st))) (probe_request settings e st)
  = inr d ->
  search d = Some block ->
  count_of block = Some count ->
  count <> 0 ->
  count <= max_partition_results settings
  \/ _split_partition (partition e) today = None ->
  process_partition settings today execute upsert_fault fuel e rest st
  = ('(persisted, duplicates) ←
       _ingest_partition settings execute upsert_fault fuel
         (PartitionQuery (partition e))
         (target_repo_count settings - repos_persisted (stats st))
         (Some block);
     modify (set_stats (add_ingested persisted duplicates)))
      (probed settings e rest st).
Proof.
  intros Hex Hsearch Hcount Hnz Hfate. unfold process_partition.
  rewrite (bind_ok _ _ st tt (set_queue rest st)) by reflexivity.
  rewrite (bind_ok _ _ _ tt (set_stats add_processed (set_queue rest st)))
    by reflexivity.
  rewrite (bind_ok _ _ _ (set_stats add_processed (set_queue rest st))
             (set_stats add_processed (set_queue rest st)))
    by reflexivity.
  rewrite (bind_ok _ _ _ block (probed settings e rest st)).
  2: { unfold _search_page.
       rewrite (bind_ok _ _ _ d (probed settings e rest st)).
       - by rewrite Hsearch.
       - unfold github_execute. cbn [trace set_stats set_queue].
         unfold probe_request in Hex. cbn [stats set_stats set_queue
           add_processed repos_persisted]. by rewrite Hex. }
  rewrite (bind_ok _ _ _ count (probed settings e rest st)).
  2: { unfold _partition_count, count_of in *.
       destruct (repositoryCount block); simplify_eq; [done |].
       by rewrite Hcount. }
  destruct (Z.eqb_spec count 0); [done |].
  destruct (Z.gtb_spec count (max_partition_results settings));
    [| reflexivity].
  destruct Hfate as [Hle | Hsplit]; [lia |]. by rewrite Hsplit.
Qed.

(** The first page an ingestion is given is the first it goes through:
    with fuel, a positive row limit and nodes on the page, the loop logs
    the page before anything else. *)
Lemma ingest_starts_with_first_page
    (fuel : nat) (q : Query) (row_limit : Z) (block : SearchBlock)
    (st : State) :
  0 < row_limit -> nodes_or_empty block <> [] ->
  post (_ingest_partition settings execute upsert_fault (S fuel) q
          row_limit (Some block)) st
       (fun _ st' => exists more,
          trace st' = trace st ++ Ingesting (nodes_or_empty block) :: more).
Proof.
  intros Hlimit Hnodes. unfold _ingest_partition. cbn [ingest_loop].
  destruct (Z.ltb_spec 0 row_limit); [| lia].
  change (ret block ≫= ?k) with (k block). cbv beta.
  destruct (nodes_or_empty block) as [| node l]; [done |].
  apply post_bind, post_modify. unfold after_bind.
  set (st1 := log (Ingesting (node :: l)) st).
  assert (forall st', (exists more, trace st' = trace st1 ++ more) ->
            exists more,
              trace st' = trace st ++ Ingesting (node :: l) :: more)
    as Hmore.
  { intros st' [more Ht]. exists more. rewrite Ht. unfold st1. simpl.
    by rewrite <- app_assoc. }
  eapply post_bind_with; [apply ingest_nodes_spec |].
  intros r st2 [Hst2 _]. unfold after_bind.
  assert (trace st2 = trace st1) as Ht2 by (by rewrite Hst2).
  assert (exists more, trace st2 = trace st1 ++ more) as Hext2
    by (exists []; by rewrite app_nil_r).
  destruct r as [[repo_rows duplicates] | exc |];
    [| by apply Hmore | by apply Hmore].
  eapply post_bind_with; [apply upsert_page_spec |].
  intros r st3 Hst3. unfold after_bind.
  destruct r as [[] | exc |]; [| subst st3; by apply Hmore | done].
  assert (exists more, trace st3 = trace st1 ++ more) as Hext3.
  { subst st3. destruct repo_rows as [| row rows]; [done |].
    exists [Upserted (row :: rows)]. simpl. by rewrite Ht2. }
  cbv zeta. destruct (negb _); [by apply post_ret, Hmore |].
  destruct (endCursor (pageInfo block)) as [c |];
    [| by apply post_ret, Hmore].
  eapply post_mono; [apply ingest_loop_requests; by intros _ |].
  intros r st4 (_ & more4 & Ht4 & _). apply Hmore.
  destruct Hext3 as [more3 Ht3]. exists (more3 ++ more4).
  by rewrite Ht4, Ht3, <- app_assoc.
Qed.

(** C8, as the code has it.  For every partition popped, the iteration
    first sends one request for the partition's query, without a cursor
    and for [min(page_size, target - persisted)] nodes (not for one node).
    Every other request of the iteration is for a later page of the same
    query and carries a cursor.  The answer to the first request gives
    the count and doubles as the first page: when the partition is
    ingested, the iteration is the ingestion started on that answer, and
    its nodes are the first page gone through, before any other
    request. *)
Theorem probe_is_first_page_request
    (fuel : nat) (e : Entry) (rest : list Entry) (st : State) :
  let probe :=
    mkRequest (PartitionQuery (partition e))
              (Z.min (page_size settings)
                     (target_repo_count settings
                      - repos_persisted (stats st)))
              None in
  let run_it :=
    process_partition settings today execute upsert_fault fuel e rest st in
  exists more,
    trace (snd run_it) = trace st ++ Requested probe :: more /\
    (forall r, Requested r ∈ more ->
               query r = PartitionQuery (partition e) /\ is_Some (after r)) /\
    (forall d block count,
       execute (length (requests (trace st))) probe = inr d ->
       search d = Some block ->
       count_of block = Some count ->
       count <> 0 ->
       count <= max_partition_results settings
       \/ _split_partition (partition e) today = None ->
       run_it
       = ('(persisted, duplicates) ←
            _ingest_partition settings execute upsert_fault fuel
              (PartitionQuery (partition e))
              (target_repo_count settings - repos_persisted (stats st))
              (Some block);
          modify (set_stats (add_ingested persisted duplicates)))
           (log (Requested probe)
                (set_stats add_processed (set_queue rest st))) /\
       (fuel <> 0%nat ->
        repos_persisted (stats st) < target_repo_count settings ->
        nodes_or_empty block <> [] ->
        exists more',
          more = Ingesting (nodes_or_empty block) :: more')).
Proof.
  intros probe run_it.
  assert (exists more,
            trace (snd run_it) = trace st ++ Requested probe :: more /\
            later_pages (PartitionQuery (partition e)) more)
    as (more & Htrace & Hlater).
  { unfold run_it. apply process_partition_requests. }
  exists more. split; [exact Htrace |]. split; [exact Hlater |].
  intros d block count Hex Hsearch Hcount Hnz Hfate.
  pose proof (process_partition_ingests fuel e rest st d block count
                Hex Hsearch Hcount Hnz Hfate) as Hrun.
  fold run_it in Hrun. split; [exact Hrun |].
  intros Hfuel Hleft Hnodes.
  destruct fuel as [| fuel]; [done |].
  assert (exists more',
            trace (snd run_it)
            = trace (probed settings e rest st)
              ++ Ingesting (nodes_or_empty block) :: more')
    as [more' Hmore'].
  { rewrite Hrun.
    change (post ('(persisted, duplicates) ←
                    _ingest_partition settings execute upsert_fault
                      (S fuel) (PartitionQuery (partition e))
                      (target_repo_count settings
                       - repos_persisted (stats st))
                      (Some block);
                  modify (set_stats (add_ingested persisted duplicates)))
                 (probed settings e rest st)
                 (fun _ st' => exists more',
                    trace st'
                    = trace (probed settings e rest st)
                      ++ Ingesting (nodes_or_empty block) :: more')).
    eapply post_bind_with;
      [apply ingest_starts_with_first_page; [lia | done] |].
    intros r st2 Hst2. unfold after_bind.
    destruct r as [[persisted duplicates] | exc |]; [| done | done].
    by apply post_modify. }
  exists more'. rewrite Htrace in Hmore'.
  change (trace (probed settings e rest st))
    with (trace st ++ [Requested probe]) in Hmore'.
  rewrite <- app_assoc in Hmore'. simpl in Hmore'.
  apply app_inv_head in Hmore'. by simplify_eq.
Qed.

(** C3, as the code has it.  When the probe of a popped partition answers
    a count over the cap and [_split_partition] finds no split, the
    iteration goes on to ingest the partition exactly as it does for a
    partition within the cap: with the remaining target as row limit and
    the probe's answer as first page.  The partition is not put back on
    the queue, and neither the skip counter nor the split counter
    moves. *)
Theorem unsplittable_partition_is_ingested
    (fuel : nat) (e : Entry) (rest : list Entry) (st : State)
    (d : Data) (block : SearchBlock) (count : Z) :
  execute (length (requests (trace st))) (probe_request settings e st) = inr d ->
  search d = Some block ->
  count_of block = Some count ->
  count <> 0 ->
  count > max_partition_results settings ->
  _split_partition (partition e) today = None ->
  let run_it :=
    process_partition settings today execute upsert_fault fuel e rest st in
  run_it
  = ('(persisted, duplicates) ←
       _ingest_partition settings execute upsert_fault fuel
         (PartitionQuery (partition e))
         (target_repo_count settings - repos_persisted (stats st))
         (Some block);
     modify (set_stats (add_ingested persisted duplicates)))
      (probed settings e rest st) /\
  queue (snd run_it) = rest /\
  _queue_counter (snd run_it) = _queue_counter st /\
  partitions_skipped (stats (snd run_it)) = partitions_skipped (stats st) /\
  partitions_split (stats (snd run_it)) = partitions_split (stats st).
Proof.
  intros Hex Hsearch Hcount Hnz Hover Hsplit run_it.
  pose proof (process_partition_ingests fuel e rest st d block count
                Hex Hsearch Hcount Hnz (or_intror Hsplit)) as Hrun.
  fold run_it in Hrun.
  split; [exact Hrun |].
  pose proof (ingest_loop_requests fuel (PartitionQuery (partition e))
                (target_repo_count settings - repos_persisted (stats st))
                None 0 0 (Some block) (probed settings e rest st)
                ltac:(intros [=])) as Hpost.
  unfold post in Hpost. rewrite Hrun.
  unfold mbind, M_bind, bind, _ingest_partition.
  destruct (ingest_loop _ _ _ _ _ _ _ _ _ _ _)
    as [[[persisted duplicates] | exc |] st2];
    simpl in *; destruct Hpost as [(F1 & F2 & F3 & F4) _];
    rewrite ?F1, ?F2, ?F3; done.
Qed.



(** C10, as the code has it.  Nothing keeps the target from being
    negative, and then a run persists more than the target.  If the
    remote never answers with more nodes than asked for and the target
    is not negative, then at any point of a run the persisted
    counter is at most the number of rows written, which is at most the
    target; every request for a page of a partition asks for
    [min(page_size, target - rows written so far)] nodes, so for no more
    than what is left of the target; a run that finishes as [succeeded]
    has persisted exactly the target; and an iteration that ingests its
    partition does so with [target - persisted] as row limit.  A run cut
    short by the fuel stands for the run at that point, so the bounds
    hold throughout. *)
Theorem persisted_never_exceeds_target (fuel : nat) (st0 : State) :
  bounded_pages execute ->
  0 <= target_repo_count settings ->
  let result := crawl_once settings today execute upsert_fault finish_fault
        fuel st0 in
  let st := snd result in
  repos_persisted (stats st) <= rows_written (trace st) /\
  rows_written (trace st) <= target_repo_count settings /\
  (forall t1 r t2 p,
     trace st = t1 ++ Requested r :: t2 -> query r = PartitionQuery p ->
     first r = Z.min (page_size settings)
                     (target_repo_count settings - rows_written t1) /\
     first r <= target_repo_count settings - rows_written t1) /\
  (forall stats',
     fst result = Ok stats' -> run_status (run st) = succeeded ->
     repos_persisted stats' = target_repo_count settings /\
     rows_written (trace st) = target_repo_count settings) /\
  (forall fuel1 e rest st1 d block count,
     execute (length (requests (trace st1))) (probe_request settings e st1)
     = inr d ->
     search d = Some block -> count_of block = Some count -> count <> 0 ->
     count <= max_partition_results settings
     \/ _split_partition (partition e) today = None ->
     process_partition settings today execute upsert_fault fuel1 e rest st1
     = ('(persisted, duplicates) ←
          _ingest_partition settings execute upsert_fault fuel1
            (PartitionQuery (partition e))
            (target_repo_count settings - repos_persisted (stats st1))
            (Some block);
        modify (set_stats (add_ingested persisted duplicates)))
         (probed settings e rest st1)).
Proof.
  intros Hbounded Htarget result st.
  pose proof (crawl_once_spec fuel st0) as ((Hle & Hreq & _) & Hb & Hr).
  fold result in Hr, Hb, Hle, Hreq. fold st in Hr, Hb, Hle, Hreq.
  specialize (Hb Hbounded Htarget).
  split; [done |]. split; [done |]. split; [| split].
  3: { intros fuel1 e rest st1 d block count.
       apply process_partition_ingests. }
  - intros t1 r t2 p Ht Hq. pose proof (Hreq t1 r t2 p Ht Hq) as Hfirst.
    split; [done |]. lia.
  - intros stats' Hok Hstatus. rewrite Hok in Hr.
    destruct Hr as (-> & (Hp & _) & _ & Hrun). rewrite Hrun in Hstatus.
    unfold finished_row, final_status in Hstatus. simpl in Hstatus.
    destruct (Z.geb_spec (repos_persisted (stats st))
                         (target_repo_count settings)); [| done].
    lia.
Qed.

End Orchestration.

(** ** Concrete runs *)

Section ConcreteRuns.

Import Crawler CrawlSpec Examples.

(** C3 as stated fails.  On the crowded remote the run splits twelve
    times, down to the single day 2018-09-20 of the single score 7.  The
    probe of that partition still counts 5000 against a cap of 1000, and
    no split is left; yet its page is ingested and its row written, and
    the skip counter of the run is still 0. *)
Lemma unsplittable_partition_not_skipped :
  let result := crawl_once crowded_settings a_day crowded_remote no_fault no_fault
                           20 new_crawler in
  let p := mkPartition 7 7 (Some 736957) (Some 736957) in
  let probe := mkRequest (PartitionQuery p) 1 None in
  last (requests (trace (snd result))) = Some probe /\
  crowded_remote 13 probe = page 5000 [repo "a" 7] false /\
  5000 > max_partition_results crowded_settings /\
  _split_partition p a_day = None /\
  fst result = Ok (mkStats 13 12 0 1 0 7) /\
  partitions_skipped (stats (snd result)) = 0 /\
  ingested (trace (snd result)) = [[repo "a" 7]] /\
  upserted (trace (snd result)) = [[mkRow "a" 7]].
Proof. repeat split; vm_compute; reflexivity. Qed.

Lemma unsplittable_partition_is_ingested_witness :
  let e := mkEntry (-7) 0 0 25
                   (mkPartition 7 7 (Some 736957) (Some 736957)) in
  let after_it := snd (process_partition crowded_settings a_day
                         crowded_remote no_fault 5 e [] new_crawler) in
  queue after_it = [] /\
  _queue_counter after_it = 0 /\
  partitions_skipped (stats after_it) = 0 /\
  partitions_split (stats after_it) = 0.
Proof.
  refine (proj2 (unsplittable_partition_is_ingested
            crowded_settings a_day crowded_remote no_fault 5
            (mkEntry (-7) 0 0 25
                     (mkPartition 7 7 (Some 736957) (Some 736957)))
            [] new_crawler
            (mkData None
               (Some (mkBlock (Some 5000) None (mkPageInfo false None)
                              (Some [repo "a" 7]))))
            (mkBlock (Some 5000) None (mkPageInfo false None)
                     (Some [repo "a" 7]))
            5000 _ _ _ _ _ _)).
  - reflexivity.
  - reflexivity.
  - reflexivity.
  - lia.
  - reflexivity.
  - vm_compute. reflexivity.
Defined.

(** C8 as stated fails.  With the default page size of 100 and a target
    of 100000, the probe of the root partition asks for 100 nodes. *)
Lemma probe_page_size_is_not_one :
  let result := crawl_once default_settings a_day empty_remote no_fault no_fault
                           20 new_crawler in
  let root := mkPartition 0 7 None None in
  requests (trace (snd result))
  = [mkRequest MaxStarsQuery 1 None;
     mkRequest (PartitionQuery root) 100 None] /\
  fst result = Ok (mkStats 1 0 1 0 0 7) /\
  first (mkRequest (PartitionQuery root) 100 None) <> 1.
Proof. repeat split; try (vm_compute; reflexivity). simpl. lia. Qed.


Lemma paging_remote_bounded : bounded_pages paging_remote.
Proof.
  intros n r d block Hex Hsearch. unfold paging_remote, page in Hex.
  destruct (Z.ltb_spec (first r) 0); [discriminate |].
  simplify_eq. simpl in Hsearch. simplify_eq.
  unfold nodes_or_empty. simpl. rewrite length_take. lia.
Qed.

Lemma persisted_never_exceeds_target_witness :
  let result := crawl_once paging_settings a_day paging_remote no_fault no_fault
                           20 new_crawler in
  bounded_pages paging_remote /\
  0 <= target_repo_count paging_settings /\
  fst result = Ok (mkStats 1 0 0 3 0 9) /\
  run_status (run (snd result)) = succeeded /\
  repos_persisted (stats (snd result)) <= rows_written (trace (snd result)) /\
  rows_written (trace (snd result)) <= target_repo_count paging_settings.
Proof.
  intros result. split; [exact paging_remote_bounded |].
  split; [simpl; lia |].
  split; [vm_compute; reflexivity |]. split; [vm_compute; reflexivity |].
  pose proof (persisted_never_exceeds_target
                paging_settings a_day paging_remote no_fault
                      no_fault 20 new_crawler
                paging_remote_bounded ltac:(simpl; lia))
    as (H1 & H2 & _).
  split; [exact H1 | exact H2].
Defined.

(** C10 as stated fails for a negative target, which nothing rules out:
    the remote keeps to the page size asked for, the loop never runs, and
    the run ends [succeeded] with 0 repositories persisted, more than
    the target of -5 and not equal to it. *)
Lemma negative_target_is_exceeded :
  let s := mkSettings (-5) 2 0 1000 8 (3 # 2) 100 (7 # 20) in
  let result := crawl_once s a_day paging_remote no_fault
        no_fault 20 new_crawler in
  bounded_pages paging_remote /\
  fst result = Ok (mkStats 0 0 0 0 0 9) /\
  requests (trace (snd result)) = [mkRequest MaxStarsQuery 1 None] /\
  run_status (run (snd result)) = succeeded /\
  repos_persisted (stats (snd result)) > target_repo_count s /\
  repos_persisted (stats (snd result)) <> target_repo_count s.
Proof.
  split; [exact paging_remote_bounded |].
  repeat split; try (vm_compute; reflexivity). vm_compute. discriminate.
Qed.

Lemma probe_is_first_page_request_witness :
  let p := mkPartition 6 10 None None in
  exists more',
    trace (snd (process_partition overlap_settings a_day overlap_remote
                                  no_fault 5 (mkEntry (-10) 4 0 1 p) []
                                  new_crawler))
    = Requested (mkRequest (PartitionQuery p) 10 None)
      :: Ingesting [repo "a" 10; repo "b" 6] :: more'.
Proof.
  intros p.
  destruct (probe_is_first_page_request overlap_settings a_day
              overlap_remote no_fault 5 (mkEntry (-10) 4 0 1 p) []
              new_crawler) as (more & Htrace & _ & Hreuse).
  destruct (Hreuse
              (mkData None
                 (Some (mkBlock (Some 2) None (mkPageInfo false None)
                                (Some [repo "a" 10; repo "b" 6]))))
              (mkBlock (Some 2) None (mkPageInfo false None)
                       (Some [repo "a" 10; repo "b" 6]))
              2 eq_refl eq_refl eq_refl) as [_ Hfirst];
    [lia | left; simpl; lia |].
  destruct Hfirst as [more' ->]; [lia | simpl; lia | discriminate |].
  exists more'. exact Htrace.
Defined.



(** The three ways a run ends. *)
Example run_succeeded :
  let result := crawl_once paging_settings a_day paging_remote no_fault no_fault
                           20 new_crawler in
  fst result = Ok (mkStats 1 0 0 3 0 9) /\
  run (snd result) = mkRun 3 succeeded 3 1 0 None 1.
Proof. split; vm_compute; reflexivity. Qed.

Example run_partial :
  let result := crawl_once default_settings a_day empty_remote no_fault no_fault
                           20 new_crawler in
  fst result = Ok (mkStats 1 0 1 0 0 7) /\
  run (snd result) = mkRun 100000 partial 0 1 0 None 1.
Proof. split; vm_compute; reflexivity. Qed.

Example run_failed :
  let result := crawl_once paging_settings a_day failing_remote no_fault no_fault
                           20 new_crawler in
  fst result
  = Raise (RuntimeError "GraphQL request failed after retries: None") /\
  run (snd result)
  = mkRun 3 failed 0 1 0
          (Some "GraphQL request failed after retries: None") 1.
Proof. split; vm_compute; reflexivity. Qed.

End ConcreteRuns.

(** ** More on partitions *)

Section MorePartitioning.

Import Crawler CrawlSpec MoreSpec.

(** Once a partition carries dates, [with_date_window] leaves it alone:
    the window is attached at most once, and never touches the scores. *)
Theorem with_date_window_attaches_once
    (p : SearchPartition) (today earliest today' earliest' : date) :
  let q := with_date_window p today earliest in
  has_dates q = true /\
  with_date_window q today' earliest' = q /\
  stars_min q = stars_min p /\ stars_max q = stars_max p /\
  (has_dates p = true -> q = p) /\
  (has_dates p = false ->
   created_from q = Some earliest /\ created_to q = Some today).
Proof.
  unfold with_date_window, has_dates.
  destruct (created_from p) as [cf |] eqn:Hf,
           (created_to p) as [ct |] eqn:Ht; simpl;
    rewrite ?Hf, ?Ht; repeat split; try done.
Qed.

Lemma with_date_window_attaches_once_witness :
  with_date_window (mkPartition 3 9 None None) 738886 EARLIEST_GITHUB_DATE
  = mkPartition 3 9 (Some 733042) (Some 738886) /\
  with_date_window (mkPartition 3 9 (Some 5) (Some 6)) 738886
                   EARLIEST_GITHUB_DATE
  = mkPartition 3 9 (Some 5) (Some 6).
Proof.
  split; [reflexivity |].
  apply (proj1 (proj2 (proj2 (proj2 (proj2
    (with_date_window_attaches_once (mkPartition 3 9 (Some 5) (Some 6))
       738886 EARLIEST_GITHUB_DATE 0 0)))))).
  reflexivity.
Defined.

(** The children of a score split are non-empty ranges, each strictly
    narrower than the parent, balanced to within one score, with the
    parent's dates. *)
Theorem split_stars_halves (p high low : SearchPartition) :
  split_stars p = Some (high, low) ->
  stars_min low <= stars_max low /\
  stars_min high <= stars_max high /\
  stars_width high < stars_width p /\
  stars_width low < stars_width p /\
  stars_width high <= stars_width low <= stars_width high + 1 /\
  created_from high = created_from p /\ created_to high = created_to p /\
  created_from low = created_from p /\ created_to low = created_to p.
Proof.
  unfold split_stars, stars_width.
  destruct (Z.geb_spec (stars_min p) (stars_max p)) as [| Hlt]; [done |].
  intros [= <- <-]. simpl.
  pose proof (midpoint_bounds _ _ Hlt) as Hmid.
  pose proof (Z.div_mod (stars_min p + stars_max p) 2 ltac:(lia)) as Hdiv.
  pose proof (Z.mod_pos_bound (stars_min p + stars_max p) 2 ltac:(lia)).
  repeat split; try done; lia.
Qed.

Lemma split_stars_halves_witness :
  let p := mkPartition 0 1000000 None None in
  let high := mkPartition 500001 1000000 None None in
  let low := mkPartition 0 500000 None None in
  stars_width high < stars_width p /\ stars_width low < stars_width p.
Proof.
  pose proof (split_stars_halves (mkPartition 0 1000000 None None)
                (mkPartition 500001 1000000 None None)
                (mkPartition 0 500000 None None) eq_refl)
    as (_ & _ & H1 & H2 & _).
  split; [exact H1 | exact H2].
Defined.

(** The children of a date split are non-empty ranges of days, each
    strictly narrower than the parent, balanced to within one day, with
    the parent's scores. *)
Theorem split_dates_halves (p first second : SearchPartition) :
  split_dates p = Some (first, second) ->
  dates_wf first /\ dates_wf second /\
  has_dates first = true /\ has_dates second = true /\
  date_width first < date_width p /\
  date_width second < date_width p /\
  date_width second <= date_width first <= date_width second + 1 /\
  stars_min first = stars_min p /\ stars_max first = stars_max p /\
  stars_min second = stars_min p /\ stars_max second = stars_max p.
Proof.
  unfold split_dates, dates_wf, has_dates, date_width.
  destruct (created_from p) as [cf |], (created_to p) as [ct |]; try done.
  destruct (Z.geb_spec cf ct) as [| Hlt]; [done |].
  intros [= <- <-]. simpl.
  pose proof (half_span_bounds _ _ Hlt) as Hmid.
  pose proof (Z.div_mod (ct - cf) 2 ltac:(lia)) as Hdiv.
  pose proof (Z.mod_pos_bound (ct - cf) 2 ltac:(lia)).
  repeat split; try done; lia.
Qed.

Lemma split_dates_halves_witness :
  let p := mkPartition 5 5 (Some 733042) (Some 733052) in
  let first := mkPartition 5 5 (Some 733042) (Some 733047) in
  let second := mkPartition 5 5 (Some 733048) (Some 733052) in
  date_width first < date_width p /\ date_width second < date_width p.
Proof.
  pose proof (split_dates_halves
                (mkPartition 5 5 (Some 733042) (Some 733052))
                (mkPartition 5 5 (Some 733042) (Some 733047))
                (mkPartition 5 5 (Some 733048) (Some 733052)) eq_refl)
    as (_ & _ & _ & _ & H1 & H2 & _).
  split; [exact H1 | exact H2].
Defined.

Lemma with_date_window_changes (p : SearchPartition) (today : date) :
  with_date_window p today EARLIEST_GITHUB_DATE <> p <-> has_dates p = false.
Proof.
  unfold with_date_window, has_dates.
  destruct p as [lo hi [cf |] [ct |]]; simpl; split; try done.
Qed.

(** [_split_partition] finds no split exactly when the score range is a
    single score (or empty) and the days cannot be halved either: for a
    dated partition its range is a single day (or empty), for an undated
    one the window from 2008-01-01 to today is. *)
Theorem split_partition_none_iff (p : SearchPartition) (today : date) :
  _split_partition p today = None <->
  stars_max p <= stars_min p /\
  match created_from p, created_to p with
  | Some cf, Some ct => ct <= cf
  | _, _ => today <= EARLIEST_GITHUB_DATE
  end.
Proof.
  unfold _split_partition.
  destruct (split_stars p) as [pair |] eqn:Hstars.
  - split; [done |]. intros [Hle _].
    apply split_stars_none_iff in Hle. congruence.
  - apply split_stars_none_iff in Hstars.
    case_bool_decide as Hwin.
    + apply with_date_window_changes in Hwin.
      rewrite split_dates_none_iff.
      unfold with_date_window. rewrite Hwin. unfold has_dates in *. simpl.
      destruct (created_from p), (created_to p); try done.
      all: split; [intros [? | (cf & ct & ? & ? & ?)]; [done |];
                   simplify_eq; split; [lia | done]
                  | intros [_ ?]; right; eauto].
    + assert (has_dates p = true) as Hdated.
      { destruct (has_dates p) eqn:E; [done |].
        by apply (with_date_window_changes p today) in E. }
      rewrite split_dates_none_iff. rewrite Hdated.
      unfold has_dates in Hdated.
      destruct (created_from p) as [cf |], (created_to p) as [ct |];
        try done.
      split.
      * intros [? | (cf' & ct' & ? & ? & ?)]; [done |]. simplify_eq.
        split; [lia | done].
      * intros [_ ?]. right. eauto.
Qed.

Lemma split_partition_cases (p : SearchPartition) (today : date) :
  _split_partition p today
  = match split_stars p with
    | Some children => Some children
    | None => split_dates (with_date_window p today EARLIEST_GITHUB_DATE)
    end.
Proof.
  unfold _split_partition. destruct (split_stars p); [done |].
  case_bool_decide as Hwin; [done |].
  destruct (has_dates p) eqn:E.
  - unfold with_date_window. by rewrite E.
  - by apply (with_date_window_changes p today) in E.
Qed.

(** Whatever split [_split_partition] returns, the two children divide
    the parent's part of the search space: every (score, day) of the
    parent lies in exactly one child, and the children hold nothing
    else.  A partition without dates stands for the whole window
    2008-01-01 .. today. *)
Theorem split_partition_divides
    (p a b : SearchPartition) (today : date) :
  _split_partition p today = Some (a, b) ->
  forall s d,
    (cell today p s d <-> cell today a s d \/ cell today b s d) /\
    ~ (cell today a s d /\ cell today b s d).
Proof.
  rewrite split_partition_cases. unfold cell, in_stars.
  destruct (split_stars p) as [[high low] |] eqn:Hstars.
  - intros [= -> ->] s d. unfold split_stars in Hstars.
    destruct p as [lo hi cf ct]. simpl in *.
    destruct (Z.geb_spec lo hi) as [| Hlt]; [done |].
    pose proof (midpoint_bounds _ _ Hlt) as Hmid.
    injection Hstars as <- <-.
    unfold with_date_window, has_dates, in_dates. simpl.
    destruct cf, ct; simpl; lia.
  - intros Hdates s d.
    set (w := with_date_window p today EARLIEST_GITHUB_DATE) in *.
    assert (stars_min w = stars_min p /\ stars_max w = stars_max p)
      as [Hlo Hhi].
    { unfold w, with_date_window. by destruct (has_dates p). }
    unfold split_dates in Hdates.
    destruct (created_from w) as [cf |] eqn:Hf,
             (created_to w) as [ct |] eqn:Ht; try done.
    destruct (Z.geb_spec cf ct) as [| Hlt]; [done |].
    pose proof (half_span_bounds _ _ Hlt) as Hmid.
    injection Hdates as <- <-. clearbody w.
    unfold with_date_window, has_dates, in_dates. simpl.
    rewrite Hf, Ht. lia.
Qed.

Lemma split_partition_divides_witness :
  let p := mkPartition 7 7 None None in
  let a := mkPartition 7 7 (Some 733042) (Some 735964) in
  let b := mkPartition 7 7 (Some 735965) (Some 738886) in
  _split_partition p 738886 = Some (a, b) /\
  (cell 738886 p 7 735000 <-> cell 738886 a 7 735000 \/ cell 738886 b 7 735000).
Proof.
  split; [reflexivity |].
  exact (proj1 (split_partition_divides (mkPartition 7 7 None None)
                  (mkPartition 7 7 (Some 733042) (Some 735964))
                  (mkPartition 7 7 (Some 735965) (Some 738886))
                  738886 eq_refl 7 735000)).
Defined.

(** [_push_partition] appends the item of the partition under the
    current counter and advances the counter; it touches nothing else. *)
Lemma push_partition_effect (p : SearchPartition) (st : State) :
  _push_partition p st
  = (Ok tt, set_counter (_queue_counter st + 1)
              (set_queue (queue st ++ [item_of p (_queue_counter st)]) st)).
Proof. reflexivity. Qed.

(** The heap key [_push_partition] builds agrees with [priority_key]: of
    two items, the one whose partition has the larger [priority_key]
    compares smaller, so is popped first; on equal keys the one pushed
    earlier does. *)
Theorem heap_order_is_priority_order
    (p q : SearchPartition) (i j : Z) :
  entry_ltb (item_of p i) (item_of q j) = true <->
  key_lt (priority_key q) (priority_key p) \/
  (priority_key p = priority_key q /\ i < j).
Proof.
  rewrite entry_ltb_spec. unfold entry_lt, key_lt, priority_key, item_of.
  simpl. split.
  - intros H.
    destruct (decide (stars_max p = stars_max q
                      /\ stars_max p - stars_min p = stars_max q - stars_min q
                      /\ date_width p = date_width q)) as [(E1 & E2 & E3) |];
      [right | left; lia].
    split; [| lia]. f_equal; [f_equal |]; lia.
  - intros [H | [[= E1 E2 E3] H]]; lia.
Qed.

Lemma weight_pos (today : date) (p : SearchPartition) :
  1 <= weight today p.
Proof. unfold weight. cbv zeta. nia. Qed.

Lemma days_left_window (today : date) (p : SearchPartition) :
  days_left today (with_date_window p today EARLIEST_GITHUB_DATE)
  = days_left today p.
Proof. by destruct p as [lo hi [cf |] [ct |]]. Qed.

(** Each split uses up one unit of weight: the children weigh together
    one less than the parent. *)
Lemma split_partition_weight (p a b : SearchPartition) (today : date) :
  _split_partition p today = Some (a, b) ->
  weight today a + weight today b = weight today p - 1.
Proof.
  rewrite split_partition_cases.
  destruct (split_stars p) as [[high low] |] eqn:Hstars.
  - intros [= -> ->]. unfold split_stars in Hstars.
    destruct p as [lo hi cf ct]. simpl in *.
    destruct (Z.geb_spec lo hi) as [| Hlt]; [done |].
    pose proof (midpoint_bounds _ _ Hlt) as Hmid.
    injection Hstars as <- <-.
    unfold weight, days_left. simpl.
    generalize (Z.max 0 match cf with
                        | Some cf0 =>
                            match ct with
                            | Some ct0 => ct0 - cf0
                            | None => today - EARLIEST_GITHUB_DATE
                            end
                        | None => today - EARLIEST_GITHUB_DATE
                        end).
    intros D. generalize dependent ((lo + hi) / 2). intros m Hmid.
    rewrite !Z.max_r by lia.
    replace (hi - lo) with ((hi - (m + 1)) + (m - lo) + 1) by lia.
    ring.
  - intros Hdates. apply split_stars_none_iff in Hstars.
    set (w := with_date_window p today EARLIEST_GITHUB_DATE) in *.
    assert (stars_min w = stars_min p /\ stars_max w = stars_max p)
      as [Hlo Hhi].
    { unfold w, with_date_window. by destruct (has_dates p). }
    assert (days_left today w = days_left today p) as Hdays.
    { apply days_left_window. }
    unfold split_dates in Hdates.
    destruct (created_from w) as [cf |] eqn:Hf,
             (created_to w) as [ct |] eqn:Ht; try done.
    destruct (Z.geb_spec cf ct) as [| Hlt]; [done |].
    pose proof (half_span_bounds _ _ Hlt) as Hmid.
    injection Hdates as <- <-.
    unfold weight. rewrite <- Hdays. unfold days_left. rewrite Hf, Ht.
    simpl. rewrite Hlo, Hhi. lia.
Qed.

End MorePartitioning.

(** ** More on the client *)

Section MoreClient.

Import Client ClientSpec MoreClientSpec.

Lemma outcome_of_none (r : PostResult) :
  outcome_of r = None <-> retryable (classify r) = true.
Proof.
  unfold outcome_of, classify. destruct r as [exc | r]; [done |].
  case_bool_decide; [done |]. destruct (status_code r >=? 400); [done |].
  destruct (json r) as [exc | payload]; [done |].
  destruct (errors payload) as [| e es]; [done |].
  by destruct (_errors_are_retryable (e :: es)).
Qed.

Lemma sleep_keeps_successes (w : Q) (r : SleepReason) (c : ClientState) :
  successful_query_count (_sleep w r c) = successful_query_count c.
Proof. unfold _sleep. by destruct (Qle_bool _ _). Qed.

Lemma sleep_if_rate_low_keeps_successes (s : Settings) rl (c : ClientState) :
  successful_query_count (_sleep_if_rate_low s rl c)
  = successful_query_count c.
Proof.
  unfold _sleep_if_rate_low. destruct rl as [r |]; [| done].
  destruct (_ >? _); [done |].
  destruct (reset_wait r); [apply sleep_keeps_successes | done].
Qed.

Lemma respect_keeps_successes (s : Settings) (w : Q) (c : ClientState) :
  successful_query_count (_respect_min_request_interval s w c)
  = successful_query_count c.
Proof.
  unfold _respect_min_request_interval. by destruct (Qle_bool _ _).
Qed.

(** One step of the retry loop, told by the outcome of the attempt. *)
Lemma execute_loop_step (s : Settings) post jitter elapsed (n : nat)
    (attempt : Z) (last_error : option string) (c : ClientState) :
  match outcome_of (post attempt) with
  | Some o =>
      fst (execute_loop s post jitter elapsed (S n) attempt last_error c) = o /\
      http_request_count
        (snd (execute_loop s post jitter elapsed (S n) attempt last_error c))
      = http_request_count c + 1 /\
      successful_query_count
        (snd (execute_loop s post jitter elapsed (S n) attempt last_error c))
      = successful_query_count c + successes o
  | None =>
      exists last_error' c',
        execute_loop s post jitter elapsed (S n) attempt last_error c
        = execute_loop s post jitter elapsed n (attempt + 1) last_error' c' /\
        http_request_count c' = http_request_count c + 1 /\
        successful_query_count c' = successful_query_count c
  end.
Proof.
  unfold outcome_of. cbn [execute_loop].
  pose proof (respect_keeps_counts s (elapsed attempt) c) as Hpace.
  pose proof (respect_keeps_successes s (elapsed attempt) c) as Hpace'.
  set (c1 := _respect_min_request_interval s (elapsed attempt) c) in *.
  destruct (post attempt) as [exc | r].
  { eexists _, _. split; [done |].
    rewrite sleep_keeps_counts, sleep_keeps_successes. simpl.
    by rewrite Hpace, Hpace'. }
  case_bool_decide.
  { eexists _, _. split; [done |].
    rewrite sleep_keeps_counts, sleep_keeps_successes. simpl.
    by rewrite Hpace, Hpace'. }
  destruct (status_code r >=? 400);
    [simpl; rewrite Hpace, Hpace'; repeat split; try done; lia |].
  destruct (json r) as [exc | payload].
  { eexists _, _. split; [done |].
    rewrite sleep_keeps_counts, sleep_keeps_successes. simpl.
    by rewrite Hpace, Hpace'. }
  destruct (errors payload) as [| e es].
  { simpl. rewrite sleep_if_rate_low_keeps_counts,
             sleep_if_rate_low_keeps_successes. simpl.
    by rewrite Hpace, Hpace'. }
  destruct (_errors_are_retryable (e :: es));
    [| simpl; rewrite Hpace, Hpace'; repeat split; try done; lia].
  eexists _, _. split; [done |].
  rewrite sleep_keeps_counts, sleep_keeps_successes. simpl.
  by rewrite Hpace, Hpace'.
Qed.

Lemma execute_loop_decided (s : Settings) post jitter elapsed (k : nat) :
  forall (n : nat) attempt last_error c o,
    (forall i, attempt <= i < attempt + Z.of_nat k ->
               outcome_of (post i) = None) ->
    outcome_of (post (attempt + Z.of_nat k)) = Some o ->
    (k < n)%nat ->
    let run := execute_loop s post jitter elapsed n attempt last_error c in
    fst run = o /\
    http_request_count (snd run) = http_request_count c + Z.of_nat k + 1 /\
    successful_query_count (snd run)
    = successful_query_count c + successes o.
Proof.
  induction k as [| k IH]; intros n attempt last_error c o Hretry Hend Hn.
  - destruct n as [| n]; [lia |].
    pose proof (execute_loop_step s post jitter elapsed n attempt last_error c)
      as Hstep.
    replace (attempt + Z.of_nat 0) with attempt in Hend by lia.
    rewrite Hend in Hstep. cbv zeta. destruct Hstep as (? & ? & ?).
    split; [done |]. split; [lia | done].
  - destruct n as [| n]; [lia |].
    pose proof (execute_loop_step s post jitter elapsed n attempt last_error c)
      as Hstep.
    rewrite (Hretry attempt) in Hstep by lia.
    destruct Hstep as (last_error' & c' & -> & Hreq & Hsucc).
    destruct (IH n (attempt + 1) last_error' c' o) as (? & ? & ?).
    + intros i Hi. apply Hretry. lia.
    + by replace (attempt + 1 + Z.of_nat k)
        with (attempt + Z.of_nat (S k)) by lia.
    + lia.
    + split; [done |]. split; lia.
Qed.

(** [execute] returns or raises what the first attempt that is not
    retried gives, after exactly as many requests as attempts up to that
    one: a fatal status or fatal GraphQL errors abort the call at once,
    and a success is counted once. *)
Theorem execute_stops_at_first_decisive_attempt
    (s : Settings) (post : Z -> PostResult) (jitter elapsed : Z -> Q)
    (c : ClientState) (k : Z) (o : ClientError + Data) :
  1 <= k <= max_retries s ->
  (forall i, 1 <= i < k -> outcome_of (post i) = None) ->
  outcome_of (post k) = Some o ->
  fst (execute s post jitter elapsed c) = o /\
  http_request_count (snd (execute s post jitter elapsed c))
  = http_request_count c + k /\
  successful_query_count (snd (execute s post jitter elapsed c))
  = successful_query_count c + successes o.
Proof.
  intros Hk Hretry Hend. unfold execute.
  destruct (execute_loop_decided s post jitter elapsed (Z.to_nat (k - 1))
              (Z.to_nat (max_retries s)) 1 None c o) as (? & ? & ?).
  - intros i Hi. apply Hretry. lia.
  - by replace (1 + Z.of_nat (Z.to_nat (k - 1))) with k by lia.
  - lia.
  - split; [done |]. split; [lia | done].
Qed.

Lemma execute_stops_at_first_decisive_attempt_witness :
  let s := mkSettings 100000 100 0 1000 8 (3 # 2) 100 (7 # 20) in
  let post := fun k => if k <? 3 then unavailable 503
                       else Responded (mkResponse 404 "Not Found" None
                                                  (inl "")) in
  let run := execute s post (fun _ => (1 # 2)%Q) (fun _ => 1%Q)
        (mkClient 0 0 [] []) in
  fst run = inl (HttpFailure 404 "Not Found") /\
  http_request_count (snd run) = 3.
Proof.
  pose proof (execute_stops_at_first_decisive_attempt
                (mkSettings 100000 100 0 1000 8 (3 # 2) 100 (7 # 20))
                (fun k => if k <? 3 then unavailable 503
                          else Responded (mkResponse 404 "Not Found" None
                                                     (inl "")))
                (fun _ => (1 # 2)%Q) (fun _ => 1%Q) (mkClient 0 0 [] []) 3
                (inl (HttpFailure 404 "Not Found"))) as H.
  destruct H as (H1 & H2 & _).
  - simpl. lia.
  - intros i Hi. assert (i = 1 \/ i = 2) as [-> | ->] by lia; reflexivity.
  - reflexivity.
  - split; [exact H1 | exact H2].
Defined.

Lemma execute_loop_all_retried (s : Settings) post jitter elapsed (n : nat) :
  forall attempt last_error c,
    (forall i, attempt <= i < attempt + Z.of_nat n ->
               outcome_of (post i) = None) ->
    let run := execute_loop s post jitter elapsed n attempt last_error c in
    fst run = inl (RetriesExhausted (last_exception post n attempt last_error))
    /\ http_request_count (snd run) = http_request_count c + Z.of_nat n
    /\ successful_query_count (snd run) = successful_query_count c.
Proof.
  induction n as [| n IH]; intros attempt last_error c Hretry.
  - simpl. split; [done |]. split; [lia | done].
  - pose proof (execute_loop_step s post jitter elapsed n attempt last_error c)
      as Hstep.
    rewrite (Hretry attempt) in Hstep by lia.
    destruct Hstep as (last_error' & c' & Heq & Hreq & Hsucc).
    assert (forall i, attempt + 1 <= i < attempt + 1 + Z.of_nat n ->
                      outcome_of (post i) = None) as Hrest
      by (intros i Hi; apply Hretry; lia).
    destruct (IH (attempt + 1) last_error' c' Hrest) as (_ & H2 & H3).
    split; [| rewrite Heq; split; lia].
    apply execute_loop_exhausted. intros i Hi.
    apply outcome_of_none, Hretry. lia.
Qed.

(** When every attempt is retried, [execute] makes exactly
    [max_retries] requests (none when [max_retries <= 0]), counts no
    success, and raises "failed after retries" around the exception of
    the latest attempt that raised one (a connection error or a malformed
    body), or around [None] when no attempt raised. *)
Theorem execute_gives_up_after_max_retries
    (s : Settings) (post : Z -> PostResult) (jitter elapsed : Z -> Q)
    (c : ClientState) :
  (forall i, 1 <= i <= max_retries s -> outcome_of (post i) = None) ->
  fst (execute s post jitter elapsed c)
  = inl (RetriesExhausted
           (last_exception post (Z.to_nat (max_retries s)) 1 None)) /\
  http_request_count (snd (execute s post jitter elapsed c))
  = http_request_count c + Z.max 0 (max_retries s) /\
  successful_query_count (snd (execute s post jitter elapsed c))
  = successful_query_count c.
Proof.
  intros Hretry. unfold execute.
  destruct (execute_loop_all_retried s post jitter elapsed
              (Z.to_nat (max_retries s)) 1 None c) as (? & ? & ?).
  - intros i Hi. apply Hretry. lia.
  - split; [done |]. split; [lia | done].
Qed.

Lemma execute_gives_up_after_max_retries_witness :
  let s := mkSettings 100000 100 0 1000 3 (3 # 2) 100 (7 # 20) in
  let post := fun k => if k =? 2 then RequestException "timed out"
                       else unavailable 502 in
  let run := execute s post (fun _ => (1 # 2)%Q) (fun _ => 1%Q)
        (mkClient 0 0 [] []) in
  fst run = inl (RetriesExhausted (Some "timed out")) /\
  http_request_count (snd run) = 3.
Proof.
  pose proof (execute_gives_up_after_max_retries
                (mkSettings 100000 100 0 1000 3 (3 # 2) 100 (7 # 20))
                (fun k => if k =? 2 then RequestException "timed out"
                          else unavailable 502)
                (fun _ => (1 # 2)%Q) (fun _ => 1%Q) (mkClient 0 0 [] [])) as H.
  destruct H as (H1 & H2 & _).
  - intros i Hi. simpl in Hi.
    assert (i = 1 \/ i = 2 \/ i = 3) as [-> | [-> | ->]] by lia; reflexivity.
  - split; [exact H1 | exact H2].
Defined.

Lemma sleep_bounded_le_cap (w : Q) :
  (Qmax 0 (Qmin w MAX_SLEEP_SECONDS) <= MAX_SLEEP_SECONDS)%Q.
Proof.
  apply Q.max_lub; [unfold MAX_SLEEP_SECONDS; lra | apply Q.le_min_r].
Qed.

Lemma sleep_records_ok (w : Q) (r : SleepReason) (c : ClientState) :
  Forall sleep_ok (sleeps c) ->
  Forall sleep_ok (sleeps (_sleep w r c)) /\
  (length (sleeps (_sleep w r c)) <= S (length (sleeps c)))%nat.
Proof.
  intros Hok. unfold _sleep.
  destruct (Qle_bool _ 0) eqn:Hle; [split; [done | lia] |].
  simpl. rewrite length_app. split; [| simpl; lia].
  apply Forall_app. split; [done |]. apply Forall_singleton.
  split; simpl; [| apply sleep_bounded_le_cap].
  apply Qnot_le_lt. intros Hneg. apply Qle_bool_iff in Hneg. congruence.
Qed.

Lemma sleep_if_rate_low_records_ok (s : Settings) rl (c : ClientState) :
  Forall sleep_ok (sleeps c) ->
  Forall sleep_ok (sleeps (_sleep_if_rate_low s rl c)) /\
  (length (sleeps (_sleep_if_rate_low s rl c)) <= S (length (sleeps c)))%nat.
Proof.
  intros Hok. unfold _sleep_if_rate_low.
  destruct rl as [r |]; [| split; [done | lia]].
  destruct (_ >? _); [split; [done | lia] |].
  destruct (reset_wait r); [by apply sleep_records_ok | split; [done | lia]].
Qed.

Lemma respect_keeps_sleeps (s : Settings) (w : Q) (c : ClientState) :
  sleeps (_respect_min_request_interval s w c) = sleeps c.
Proof.
  unfold _respect_min_request_interval. by destruct (Qle_bool _ _).
Qed.

Lemma sleep_keeps_pacing (w : Q) (r : SleepReason) (c : ClientState) :
  pacing (_sleep w r c) = pacing c.
Proof. unfold _sleep. by destruct (Qle_bool _ _). Qed.

Lemma sleep_if_rate_low_keeps_pacing (s : Settings) rl (c : ClientState) :
  pacing (_sleep_if_rate_low s rl c) = pacing c.
Proof.
  unfold _sleep_if_rate_low. destruct rl as [r |]; [| done].
  destruct (_ >? _); [done |].
  destruct (reset_wait r); [apply sleep_keeps_pacing | done].
Qed.

Lemma respect_paces_once (s : Settings) (w : Q) (c : ClientState) :
  (length (pacing (_respect_min_request_interval s w c))
   <= S (length (pacing c)))%nat.
Proof.
  unfold _respect_min_request_interval.
  destruct (Qle_bool _ _); simpl; [lia |]. rewrite length_app. simpl. lia.
Qed.

Lemma respect_records_ok (s : Settings) (w : Q) (c : ClientState) :
  (0 <= w)%Q ->
  Forall (pace_ok s) (pacing c) ->
  Forall (pace_ok s) (pacing (_respect_min_request_interval s w c)).
Proof.
  intros Hw Hok. unfold _respect_min_request_interval.
  destruct (Qle_bool _ 0) eqn:Hle; [done |]. simpl.
  apply Forall_app. split; [done |]. apply Forall_singleton. split.
  - apply Qnot_le_lt. intros Hneg. apply Qle_bool_iff in Hneg. congruence.
  - lra.
Qed.

Lemma execute_loop_sleeps_ok (s : Settings) post jitter elapsed (n : nat) :
  forall attempt last_error c,
    Forall sleep_ok (sleeps c) ->
    let run := execute_loop s post jitter elapsed n attempt last_error c in
    Forall sleep_ok (sleeps (snd run)) /\
    Z.of_nat (length (sleeps (snd run))) - Z.of_nat (length (sleeps c))
    <= http_request_count (snd run) - http_request_count c /\
    Z.of_nat (length (pacing (snd run))) - Z.of_nat (length (pacing c))
    <= http_request_count (snd run) - http_request_count c.
Proof.
  induction n as [| n IH]; intros attempt last_error c Hok.
  { simpl. split; [done | lia]. }
  pose proof (respect_keeps_counts s (elapsed attempt) c) as Hcount.
  pose proof (respect_keeps_sleeps s (elapsed attempt) c) as Hsleeps.
  pose proof (respect_paces_once s (elapsed attempt) c) as Hpace.
  cbn [execute_loop]. cbv zeta.
  set (c1 := _respect_min_request_interval s (elapsed attempt) c) in *.
  assert (Forall sleep_ok (sleeps (count_request c1))) as Hok1
    by (simpl; by rewrite Hsleeps).
  assert (forall w r last_error',
    let run := execute_loop s post jitter elapsed n (attempt + 1)
                 last_error' (_sleep w r (count_request c1)) in
    Forall sleep_ok (sleeps (snd run)) /\
    Z.of_nat (length (sleeps (snd run))) - Z.of_nat (length (sleeps c))
    <= http_request_count (snd run) - http_request_count c /\
    Z.of_nat (length (pacing (snd run))) - Z.of_nat (length (pacing c))
    <= http_request_count (snd run) - http_request_count c) as Hretry.
  { intros w r last_error'.
    destruct (sleep_records_ok w r (count_request c1) Hok1) as [Hok' Hlen].
    destruct (IH (attempt + 1) last_error' _ Hok') as (H1 & H2 & H3).
    cbv zeta. split; [exact H1 |].
    rewrite sleep_keeps_counts in H2, H3. rewrite sleep_keeps_pacing in H3.
    simpl in *. rewrite Hsleeps in Hlen. lia. }
  destruct (post attempt) as [exc | r]; [apply Hretry |].
  case_bool_decide; [apply Hretry |].
  destruct (status_code r >=? 400).
  { simpl. rewrite Hsleeps. split; [done | lia]. }
  destruct (json r) as [exc | payload]; [apply Hretry |].
  destruct (errors payload) as [| e es].
  - destruct (sleep_if_rate_low_records_ok s
                (rateLimit match data payload with
                           | Some d => d
                           | None => empty_data
                           end) (count_request c1) Hok1) as [H1 H2].
    simpl in *. split; [exact H1 |].
    rewrite sleep_if_rate_low_keeps_counts, sleep_if_rate_low_keeps_pacing.
    simpl. rewrite Hsleeps in H2. lia.
  - destruct (_errors_are_retryable (e :: es)); [apply Hretry |].
    simpl. rewrite Hsleeps. split; [done | lia].
Qed.

Lemma execute_loop_pacing_ok (s : Settings) post jitter elapsed (n : nat) :
  (forall k, (0 <= elapsed k)%Q) ->
  forall attempt last_error c,
    Forall (pace_ok s) (pacing c) ->
    Forall (pace_ok s)
      (pacing (snd (execute_loop s post jitter elapsed n attempt
                                 last_error c))).
Proof.
  intros Hclock.
  induction n as [| n IH]; intros attempt last_error c Hok; [done |].
  pose proof (respect_records_ok s (elapsed attempt) c (Hclock attempt) Hok)
    as Hok1.
  cbn [execute_loop]. cbv zeta.
  set (c1 := _respect_min_request_interval s (elapsed attempt) c) in *.
  assert (forall w r last_error',
    Forall (pace_ok s)
      (pacing (snd (execute_loop s post jitter elapsed n (attempt + 1)
                      last_error' (_sleep w r (count_request c1))))))
    as Hretry.
  { intros w r last_error'. apply IH. by rewrite sleep_keeps_pacing. }
  destruct (post attempt) as [exc | r]; [apply Hretry |].
  case_bool_decide; [apply Hretry |].
  destruct (status_code r >=? 400); [done |].
  destruct (json r) as [exc | payload]; [apply Hretry |].
  destruct (errors payload) as [| e es].
  - simpl. by rewrite sleep_if_rate_low_keeps_pacing.
  - destruct (_errors_are_retryable (e :: es)); [apply Hretry | done].
Qed.

(** The sleeps of a call of [execute].  Every sleep taken through
    [_sleep] (a backoff, a wait told by the headers or by the rate-limit
    block) is positive and at most [MAX_SLEEP_SECONDS], and there is at
    most one per request.  Besides these, [_respect_min_request_interval]
    sleeps at most once per request, outside that cap: each such wait is
    positive and, on a clock that does not go backwards, at most
    [min_request_interval_seconds].  So a request costs at most two
    sleeps. *)
Theorem execute_sleeps_are_bounded
    (s : Settings) (post : Z -> PostResult) (jitter elapsed : Z -> Q)
    (c : ClientState) :
  Forall sleep_ok (sleeps c) ->
  let c' := snd (execute s post jitter elapsed c) in
  Forall sleep_ok (sleeps c') /\
  Z.of_nat (length (sleeps c')) - Z.of_nat (length (sleeps c))
  <= http_request_count c' - http_request_count c /\
  Z.of_nat (length (pacing c')) - Z.of_nat (length (pacing c))
  <= http_request_count c' - http_request_count c /\
  ((forall k, (0 <= elapsed k)%Q) ->
   Forall (pace_ok s) (pacing c) -> Forall (pace_ok s) (pacing c')).
Proof.
  intros Hok. cbv zeta. unfold execute.
  destruct (execute_loop_sleeps_ok s post jitter elapsed
              (Z.to_nat (max_retries s)) 1 None c Hok) as (H1 & H2 & H3).
  split; [exact H1 |]. split; [exact H2 |]. split; [exact H3 |].
  intros Hclock Hpace. by apply execute_loop_pacing_ok.
Qed.

Lemma execute_sleeps_are_bounded_witness :
  let s := mkSettings 100000 100 0 1000 3 (3 # 2) 100 (7 # 20) in
  let post := fun _ : Z =>
    Responded (mkResponse 429 "" (Some (100000 # 1)%Q) (inl "")) in
  let c' := snd (execute s post (fun _ => (1 # 2)%Q) (fun _ => (1 # 10)%Q)
                         (mkClient 0 0 [] [])) in
  sleeps c'
  = [((3600 # 1)%Q, http_status 429); ((3600 # 1)%Q, http_status 429);
     ((3600 # 1)%Q, http_status 429)] /\
  length (pacing c') = 3%nat /\
  Forall sleep_ok (sleeps c') /\
  Forall (pace_ok s) (pacing c').
Proof.
  intros s post c'.
  split; [vm_compute; reflexivity |]. split; [vm_compute; reflexivity |].
  destruct (execute_sleeps_are_bounded s post (fun _ => (1 # 2)%Q)
              (fun _ => (1 # 10)%Q) (mkClient 0 0 [] []))
    as (H1 & _ & _ & H2); [apply Forall_nil_2 |].
  split; [exact H1 |]. apply H2; [| apply Forall_nil_2].
  intros k. unfold Qle. simpl. lia.
Defined.

(** With a base that is not negative, the backoff after attempt [a >= 1]
    is at least the smallest jitter, so the sleep is taken: a retry that
    falls back on the backoff never follows at once. *)
Theorem backoff_sleep_is_taken
    (s : Settings) (a : Z) (j : Q) (r : SleepReason) (c : ClientState) :
  1 <= a -> jitter_in_range j -> (0 <= base_backoff_seconds s)%Q ->
  exists w,
    sleeps (_sleep (_compute_backoff s a j) r c) = sleeps c ++ [(w, r)] /\
    (w == _compute_backoff s a j)%Q /\ (1 # 5 <= w)%Q.
Proof.
  intros Ha [Hj Hj'] Hbase.
  pose proof (scaled_delay_ge (base_backoff_seconds s) a 0 Ha
                ltac:(lra) Hbase) as Hdelay.
  assert (1 # 5 <= _compute_backoff s a j)%Q as Hlow.
  { unfold _compute_backoff. apply Q.min_glb;
      [lra | unfold MAX_SLEEP_SECONDS; lra]. }
  pose proof (compute_backoff_le_cap s a j) as Hcap.
  set (b := _compute_backoff s a j) in *.
  assert (Qmax 0 (Qmin b MAX_SLEEP_SECONDS) == b)%Q as Hbounded.
  { rewrite (Q.min_l b) by done. apply Q.max_r. lra. }
  unfold _sleep.
  destruct (Qle_bool _ 0) eqn:Hle.
  - apply Qle_bool_iff in Hle. rewrite Hbounded in Hle. lra.
  - eexists. split; [done |]. split; [done |]. by rewrite Hbounded.
Qed.

Lemma backoff_sleep_is_taken_witness :
  let s := mkSettings 100000 100 0 1000 8 (3 # 2) 100 (7 # 20) in
  exists w,
    sleeps (_sleep (_compute_backoff s 1 (1 # 5)) network_error
                   (mkClient 0 0 [] []))
    = [(w, network_error)] /\ (1 # 5 <= w)%Q.
Proof.
  destruct (backoff_sleep_is_taken
              (mkSettings 100000 100 0 1000 8 (3 # 2) 100 (7 # 20)) 1 (1 # 5)
              network_error (mkClient 0 0 [] [])) as (w & H1 & _ & H2).
  - lia.
  - split; vm_compute; discriminate.
  - vm_compute; discriminate.
  - exists w. split; [exact H1 | exact H2].
Defined.

End MoreClient.

(** ** More on the orchestrator *)

Section MoreOrchestration.

Import Crawler CrawlSpec Hoare RunSpec MoreSpec.

Variable settings : Settings.
Variable today : date.
Variable execute : nat -> Request -> Exn + Data.
Variable upsert_fault : nat -> option Exn.
Variable finish_fault : nat -> option Exn.

(** The iteration up to the point where the count is known. *)
Lemma process_partition_probes
    (fuel : nat) (e : Entry) (rest : list Entry) (st : State)
    (d : Data) (block : SearchBlock) (count : Z) :
  execute (length (requests (trace st))) (probe_request settings e st)
  = inr d ->
  search d = Some block ->
  count_of block = Some count ->
  process_partition settings today execute upsert_fault fuel e rest st
  = (if count =? 0 then modify (set_stats add_skipped)
     else
       let ingest :=
         '(persisted, duplicates) ←
           _ingest_partition settings execute upsert_fault fuel
             (PartitionQuery (partition e))
             (target_repo_count settings - repos_persisted (stats st))
             (Some block);
         modify (set_stats (add_ingested persisted duplicates)) in
       if count >? max_partition_results settings then
         match _split_partition (partition e) today with
         | Some (child1, child2) =>
             modify (set_stats add_split) ;;
             _push_partition child1 ;;
             _push_partition child2
         | None => ingest
         end
       else ingest) (probed settings e rest st).
Proof.
  intros Hex Hsearch Hcount. unfold process_partition.
  rewrite (bind_ok _ _ st tt (set_queue rest st)) by reflexivity.
  rewrite (bind_ok _ _ _ tt (set_stats add_processed (set_queue rest st)))
    by reflexivity.
  rewrite (bind_ok _ _ _ (set_stats add_processed (set_queue rest st))
             (set_stats add_processed (set_queue rest st)))
    by reflexivity.
  rewrite (bind_ok _ _ _ block (probed settings e rest st)).
  2: { unfold _search_page.
       rewrite (bind_ok _ _ _ d (probed settings e rest st)).
       - by rewrite Hsearch.
       - unfold github_execute. cbn [trace set_stats set_queue].
         unfold probe_request in Hex. cbn [stats set_stats set_queue
           add_processed repos_persisted]. by rewrite Hex. }
  rewrite (bind_ok _ _ _ count (probed settings e rest st)).
  2: { unfold _partition_count, count_of in *.
       destruct (repositoryCount block); simplify_eq; [done |].
       by rewrite Hcount. }
  reflexivity.
Qed.

(** A partition whose probe counts no repository is skipped: only the
    processed and the skipped counters move, the probe is the only
    request, nothing is ingested or written, and the partition is
    gone from the queue. *)
Theorem empty_partition_is_skipped
    (fuel : nat) (e : Entry) (rest : list Entry) (st : State)
    (d : Data) (block : SearchBlock) :
  execute (length (requests (trace st))) (probe_request settings e st)
  = inr d ->
  search d = Some block ->
  count_of block = Some 0 ->
  let run_it :=
    process_partition settings today execute upsert_fault fuel e rest st in
  fst run_it = Ok tt /\
  queue (snd run_it) = rest /\
  _queue_counter (snd run_it) = _queue_counter st /\
  trace (snd run_it) = trace st ++ [Requested (probe_request settings e st)] /\
  seen_repo_nodes (snd run_it) = seen_repo_nodes st /\
  run (snd run_it) = run st /\
  stats (snd run_it)
  = mkStats (partitions_processed (stats st) + 1)
            (partitions_split (stats st))
            (partitions_skipped (stats st) + 1)
            (repos_persisted (stats st))
            (duplicate_repo_nodes (stats st))
            (max_star_count (stats st)).
Proof.
  intros Hex Hsearch Hcount run_it. unfold run_it.
  rewrite (process_partition_probes fuel e rest st d block 0
             Hex Hsearch Hcount).
  done.
Qed.

(** A partition over the cap that can be split is replaced by its two
    children: they are pushed in the order [_split_partition] returns
    them, under the next two counter values; the split counter moves,
    the probe is the only request, and nothing is ingested or written. *)
Theorem oversized_partition_is_split
    (fuel : nat) (e : Entry) (rest : list Entry) (st : State)
    (d : Data) (block : SearchBlock) (count : Z)
    (child1 child2 : SearchPartition) :
  execute (length (requests (trace st))) (probe_request settings e st)
  = inr d ->
  search d = Some block ->
  count_of block = Some count ->
  count <> 0 ->
  count > max_partition_results settings ->
  _split_partition (partition e) today = Some (child1, child2) ->
  let run_it :=
    process_partition settings today execute upsert_fault fuel e rest st in
  fst run_it = Ok tt /\
  queue (snd run_it)
  = rest ++ [item_of child1 (_queue_counter st);
             item_of child2 (_queue_counter st + 1)] /\
  _queue_counter (snd run_it) = _queue_counter st + 2 /\
  trace (snd run_it) = trace st ++ [Requested (probe_request settings e st)] /\
  seen_repo_nodes (snd run_it) = seen_repo_nodes st /\
  run (snd run_it) = run st /\
  stats (snd run_it)
  = mkStats (partitions_processed (stats st) + 1)
            (partitions_split (stats st) + 1)
            (partitions_skipped (stats st))
            (repos_persisted (stats st))
            (duplicate_repo_nodes (stats st))
            (max_star_count (stats st)).
Proof.
  intros Hex Hsearch Hcount Hnz Hover Hsplit run_it. unfold run_it.
  rewrite (process_partition_probes fuel e rest st d block count
             Hex Hsearch Hcount).
  destruct (Z.eqb_spec count 0); [done |].
  destruct (Z.gtb_spec count (max_partition_results settings)); [| lia].
  rewrite Hsplit. cbv zeta.
  unfold mbind, M_bind, bind, modify, _push_partition, heappush. simpl.
  split; [done |]. split; [by rewrite <- app_assoc |].
  split; [lia |]. done.
Qed.

Lemma process_partition_effect
    (fuel : nat) (e : Entry) (rest : list Entry) (st : State) :
  post (process_partition settings today execute upsert_fault fuel e rest)
       st (iteration_effect today e rest st).
Proof.
  unfold process_partition.
  apply post_bind, post_modify. unfold after_bind.
  apply post_bind, post_modify. unfold after_bind.
  apply post_bind, post_get. unfold after_bind.
  eapply post_bind_with; [apply search_page_spec |].
  intros r st1 [Hst1 _]. unfold after_bind.
  assert (st1 = probed settings e rest st) as -> by done. clear Hst1.
  set (st1 := probed settings e rest st) in *.
  assert (forall r st',
    partitions_processed (stats st') = partitions_processed (stats st1) ->
    run st' = run st1 -> queue st' = rest ->
    _queue_counter st' = _queue_counter st1 ->
    partitions_skipped (stats st') = partitions_skipped (stats st1) ->
    partitions_split (stats st') = partitions_split (stats st1) ->
    max_star_count (stats st') = max_star_count (stats st1) ->
    iteration_effect today e rest st r st') as Hthird.
  { intros r' st' E1 E2 E3 E4 E5 E6 E7. split; [by rewrite E1 |].
    split; [by rewrite E2, E7 |]. right. right.
    by rewrite E3, E4, E5, E6. }
  destruct r as [block | exc |]; [| by apply Hthird | by apply Hthird].
  assert (queue st1 = rest) as Hq1 by done.
  assert (forall row_limit, post
    ('(persisted, duplicates) ←
       _ingest_partition settings execute upsert_fault fuel
         (PartitionQuery (partition e)) row_limit (Some block);
     modify (set_stats (add_ingested persisted duplicates)))
    st1 (iteration_effect today e rest st)) as Hingest.
  { intros row_limit. eapply post_bind_with.
    - apply (ingest_loop_requests settings execute upsert_fault).
      intros [=].
    - intros r st2 ((F1 & F2 & F3 & F4) & _). unfold after_bind.
      destruct r as [[persisted duplicates] | exc |].
      + apply post_modify.
        apply Hthird;
          cbn [stats set_stats run queue _queue_counter add_ingested
               partitions_processed partitions_skipped partitions_split
               max_star_count];
          congruence.
      + apply Hthird; congruence.
      + apply Hthird; congruence. }
  unfold _partition_count.
  destruct (repositoryCount block) as [count |];
    [| destruct (totalCount block) as [count |]].
  3: { apply post_bind, post_raise. by apply Hthird. }
  all: change (ret count ≫= ?k) with (k count); cbv beta zeta.
  all: destruct (count =? 0);
    [apply post_modify; split; [done |]; split; [done |]; by left |].
  all: destruct (count >? max_partition_results settings);
    [| apply Hingest].
  all: destruct (_split_partition (partition e) today)
    as [[child1 child2] |] eqn:Hsplit; [| apply Hingest].
  all: apply post_bind, post_modify; unfold after_bind.
  all: apply post_bind, post_modify; unfold after_bind.
  all: apply post_modify.
  all: split; [done |]; split; [done |]; right; left.
  all: split; [done |]; split;
    [exists child1, child2; split; [done |];
     unfold heappush; simpl; by rewrite <- app_assoc |].
  all: split; [simpl; lia | done].
Qed.

(** An invariant of the iterations, kept whatever their result, holds
    after the loop whatever its result. *)
Lemma crawl_loop_keeps (I : State -> Prop) :
  (forall fuel e rest st,
     I st -> heappop (queue st) = Some (e, rest) ->
     post (process_partition settings today execute upsert_fault
                             fuel e rest) st (fun _ st' => I st')) ->
  forall fuel st,
    I st ->
    post (crawl_loop settings today execute upsert_fault fuel) st
         (fun _ st' => I st').
Proof.
  intros Hstep. induction fuel as [| fuel IH]; intros st HI; [done |].
  cbn [crawl_loop]. apply post_bind, post_get. unfold after_bind.
  destruct (negb _ && _); [| done].
  destruct (heappop (queue st)) as [[e rest] |] eqn:Hpop; [| done].
  eapply post_bind_with; [by apply Hstep |].
  intros r st1 HI1. unfold after_bind.
  destruct r as [[] | exc |]; [by apply IH | done | done].
Qed.

(** An invariant of the iterations that holds when the loop starts and
    does not look at the run's row holds at the end of any run that got
    past [_max_stars]. *)
Lemma crawl_once_keeps (I : State -> Prop) :
  (forall fuel e rest st,
     I st -> heappop (queue st) = Some (e, rest) ->
     post (process_partition settings today execute upsert_fault
                             fuel e rest) st (fun _ st' => I st')) ->
  (forall r st, I st -> I (set_run r st)) ->
  forall fuel st0,
    (forall max_stars, I (loop_start settings st0 max_stars)) ->
    post (crawl_once settings today execute upsert_fault finish_fault fuel)
         st0
         (fun _ st' =>
            I st' \/
            st' = set_run (run st')
                    (log (Requested max_stars_request)
                         (start_run settings st0))).
Proof.
  intros Hstep Hrun fuel st0 Hstart.
  assert (post (crawl_body settings today execute upsert_fault finish_fault
                           fuel)
               (start_run settings st0)
               (fun _ st' =>
                  I st' \/
                  st' = set_run (run st')
                          (log (Requested max_stars_request)
                               (start_run settings st0)))) as Hbody.
  { unfold crawl_body.
    eapply post_bind_with; [apply max_stars_spec |].
    intros r st1 [-> _]. unfold after_bind.
    destruct r as [max_stars | exc |]; [| by right | by right].
    apply post_bind, post_modify. unfold after_bind.
    apply post_bind, post_modify. unfold after_bind.
    apply post_bind, post_modify. unfold after_bind.
    eapply post_bind_with;
      [apply (crawl_loop_keeps I Hstep fuel), Hstart |].
    intros r st2 HI. unfold after_bind.
    destruct r as [[] | exc |]; [| by left | by left].
    apply post_bind, post_get. unfold after_bind.
    eapply post_bind_with; [apply finish_run_frame |].
    intros r st3 [Hst3 _]. unfold after_bind.
    assert (I st3) as HI3 by (rewrite Hst3; by apply Hrun).
    destruct r as [[] | exc |]; [apply post_ret | |]; by left. }
  unfold post, crawl_once in *.
  destruct (crawl_body _ _ _ _ _ _ _) as [[stats' | exc |] st]; simpl in *;
    [done | | done].
  destruct (handler_raises finish_fault exc st)
    as (exc' & st' & -> & Hst'). simpl.
  destruct Hbody as [HI | Heq].
  - left. rewrite Hst'. by apply Hrun.
  - right. rewrite Hst'. simpl. rewrite Heq. reflexivity.
Qed.

Lemma heappop_length (q : list Entry) e rest :
  heappop q = Some (e, rest) -> length q = S (length rest).
Proof.
  intros Hpop. apply heappop_smallest in Hpop as [Hperm _].
  by rewrite Hperm.
Qed.

Lemma queue_sound_step fuel e rest st :
  queue_sound st -> heappop (queue st) = Some (e, rest) ->
  post (process_partition settings today execute upsert_fault fuel e rest)
       st (fun _ st' => queue_sound st').
Proof.
  intros [Hnd Hall] Hpop.
  apply heappop_smallest in Hpop as [Hperm _].
  rewrite Hperm in Hnd, Hall. simpl in Hnd.
  apply NoDup_cons in Hnd as [_ Hnd]. apply Forall_cons in Hall as [_ Hall].
  eapply post_mono; [apply process_partition_effect |].
  intros r st' (_ & _ & Hfate). unfold queue_sound.
  destruct Hfate as [(_ & -> & -> & _) |
                     [(_ & (c1 & c2 & _ & ->) & -> & _) | (-> & -> & _)]];
    [done | | done].
  split.
  - rewrite fmap_app. apply NoDup_app. split; [done |]. simpl. split.
    + intros x Hin Hx. apply list_elem_of_fmap in Hin as (y & -> & Hy).
      rewrite Forall_forall in Hall. destruct (Hall y Hy) as [_ Hlt].
      apply elem_of_cons in Hx as [Hx | Hx]; [lia |].
      apply list_elem_of_singleton in Hx. lia.
    + apply NoDup_cons. split; [| apply NoDup_singleton].
      intros Hx. apply list_elem_of_singleton in Hx. lia.
  - apply Forall_app. split.
    + eapply Forall_impl; [exact Hall |]. intros y [? ?]. split; [done | lia].
    + apply Forall_cons. split; [simpl; split; [done | lia] |].
      apply Forall_singleton. simpl. split; [done | lia].
Qed.

(** At the end of any run, and at any point where it is cut, every item
    still queued is the item [_push_partition] builds for its partition
    and no two items share a sequence number: comparing two heap items
    never gets as far as comparing two partitions, which Python cannot
    order. *)
Theorem queue_stays_sound (fuel : nat) (st0 : State) :
  queue_sound (snd (crawl_once settings today execute upsert_fault finish_fault
        fuel st0)).
Proof.
  pose proof (crawl_once_keeps queue_sound) as Hkeep.
  unfold post in Hkeep.
  destruct (Hkeep queue_sound_step ltac:(done) fuel st0) as [H | ->];
    [| exact H |].
  - intros max_stars. unfold loop_start, queue_sound. simpl.
    split; [apply NoDup_singleton |].
    apply Forall_singleton. simpl. split; [done | lia].
  - unfold queue_sound. simpl. split; [apply NoDup_nil_2 | done].
Qed.

Lemma partitions_accounted_step fuel e rest st :
  partitions_accounted st -> heappop (queue st) = Some (e, rest) ->
  post (process_partition settings today execute upsert_fault fuel e rest)
       st (fun _ st' => partitions_accounted st').
Proof.
  intros (Hsum & H1 & H2 & H3) Hpop. apply heappop_length in Hpop.
  eapply post_mono; [apply process_partition_effect |].
  intros r st' (Hproc & _ & Hfate). unfold partitions_accounted.
  destruct Hfate as [(_ & -> & _ & -> & ->) |
                     [(_ & (c1 & c2 & _ & ->) & _ & -> & ->) |
                      (-> & _ & -> & ->)]];
    rewrite ?length_app; simpl; lia.
Qed.

(** Partitions are neither lost nor processed twice: in every run that
    got past [_max_stars], at the end and at any point where it is cut,
    the queued and the processed partitions together are the root and
    the two children of every split, and the skipped and the split ones
    are among the processed. *)
Theorem partitions_are_accounted_for (fuel : nat) (st0 : State) :
  let st := snd (crawl_once settings today execute upsert_fault finish_fault
        fuel st0) in
  partitions_accounted st \/
  (trace st = [Requested max_stars_request] /\ stats st = new_stats /\
   queue st = []).
Proof.
  pose proof (crawl_once_keeps partitions_accounted) as Hkeep.
  unfold post in Hkeep. cbv zeta.
  destruct (Hkeep partitions_accounted_step ltac:(done) fuel st0) as [H | ->];
    [| by left | by right].
  intros max_stars. unfold loop_start, partitions_accounted. simpl. lia.
Qed.

(** The loop stops normally only for one of the two reasons in its
    condition. *)
Lemma crawl_loop_exit (fuel : nat) :
  forall st,
    post (crawl_loop settings today execute upsert_fault fuel) st
         (fun r st' =>
            r = Ok tt ->
            queue st' = [] \/
            target_repo_count settings <= repos_persisted (stats st')).
Proof.
  induction fuel as [| fuel IH]; intros st; [done |].
  cbn [crawl_loop]. apply post_bind, post_get. unfold after_bind.
  destruct (negb _ && _) eqn:Hcond.
  - destruct (heappop (queue st)) as [[e rest] |]; [| done].
    eapply post_bind_with with (R := fun _ _ => True); [done |].
    intros r st1 _. unfold after_bind.
    destruct r as [[] | exc |]; [apply IH | done | done].
  - apply post_ret. intros _.
    apply andb_false_iff in Hcond as [Hq | Hp].
    + left. apply negb_false_iff in Hq. by apply bool_decide_eq_true in Hq.
    + right. apply Z.ltb_ge in Hp. done.
Qed.

Lemma crawl_body_exit (fuel : nat) (st : State) :
  post (crawl_body settings today execute upsert_fault finish_fault fuel) st
       (fun r st' =>
          forall stats', r = Ok stats' ->
            stats' = stats st' /\
            run_status (run st')
            = (if repos_persisted (stats st') >=? target_repo_count settings
               then succeeded else partial) /\
            (queue st' = [] \/
             target_repo_count settings <= repos_persisted (stats st'))).
Proof.
  unfold crawl_body.
  eapply post_bind_with with (R := fun _ _ => True); [done |].
  intros r st1 _. unfold after_bind.
  destruct r as [max_stars | exc |]; [| done | done].
  apply post_bind, post_modify. unfold after_bind.
  apply post_bind, post_modify. unfold after_bind.
  apply post_bind, post_modify. unfold after_bind.
  eapply post_bind_with; [apply crawl_loop_exit |].
  intros r st2 Hexit. unfold after_bind.
  destruct r as [[] | exc |]; [| done | done].
  apply post_bind, post_get. unfold after_bind.
  eapply post_bind_with; [apply finish_run_frame |].
  intros r st3 [Hst3 Hr]. unfold after_bind.
  destruct r as [[] | exc |]; [| done | done].
  apply post_ret. intros stats' [= <-].
  split; [by rewrite Hst3 |]. split; [by rewrite Hr, Hst3 |].
  rewrite Hst3. by apply Hexit.
Qed.

(** A run that returns with status [partial] has emptied its queue:
    it stopped short of the target only because no partition was left
    to look at.  A run returns [succeeded] exactly when the persisted
    count reached the target. *)
Theorem partial_run_emptied_queue
    (fuel : nat) (st0 : State) (stats' : CrawlStats) :
  let result := crawl_once settings today execute upsert_fault finish_fault
        fuel st0 in
  fst result = Ok stats' ->
  (run_status (run (snd result)) = partial ->
   queue (snd result) = [] /\
   repos_persisted stats' < target_repo_count settings) /\
  (run_status (run (snd result)) = succeeded <->
   target_repo_count settings <= repos_persisted stats').
Proof.
  cbv zeta. unfold crawl_once.
  pose proof (crawl_body_exit fuel (start_run settings st0)) as Hbody.
  unfold post in Hbody.
  destruct (crawl_body _ _ _ _ _ _ _) as [[stats1 | exc |] st]; simpl in *;
    [| | done].
  2: { destruct (handler_raises finish_fault exc st)
         as (exc' & st' & -> & _). done. }
  intros [= ->]. destruct (Hbody stats' eq_refl) as (-> & Hstatus & Hexit).
  rewrite Hstatus.
  destruct (Z.geb_spec (repos_persisted (stats st))
                       (target_repo_count settings)) as [Hge | Hlt].
  - split; [intros [=] |]. split; [done | done].
  - split.
    + intros _. split; [| lia]. destruct Hexit as [Hq | Hp]; [done | lia].
    + split; [intros [=] | lia].
Qed.

(** When [_max_stars] cannot tell the highest star count, be it that the
    request failed, that the answer has no [search] block, or that no
    node of the answer carries a star count, the run ends there whatever
    the fuel: one request was made, no partition was created or
    processed, and the handler calls [finish_run] once.  If that call
    goes through, the exception reaches the caller and the row is marked
    [failed] with its text; if it raises, its exception reaches the
    caller and the row is still [running]. *)
Theorem run_fails_without_max_stars
    (fuel : nat) (st0 : State) (exc : Exn) :
  max_stars_failure execute = Some exc ->
  let result :=
    crawl_once settings today execute upsert_fault finish_fault fuel st0 in
  trace (snd result) = [Requested (mkRequest MaxStarsQuery 1 None)] /\
  stats (snd result) = new_stats /\
  queue (snd result) = [] /\
  _queue_counter (snd result) = _queue_counter st0 /\
  match finish_fault 0%nat with
  | None =>
      fst result = Raise exc /\
      run (snd result)
      = mkRun (target_repo_count settings) failed 0 0 0
              (Some (str_exn exc)) 1
  | Some e =>
      fst result = Raise e /\
      run (snd result)
      = mkRun (target_repo_count settings) running 0 0 0 None 1
  end.
Proof.
  intros Hfail. cbv zeta.
  set (st1 := start_run settings st0).
  assert (_max_stars execute st1
          = (Raise exc, log (Requested (mkRequest MaxStarsQuery 1 None)) st1))
    as Hmax.
  { unfold max_stars_failure in Hfail.
    unfold _max_stars, github_execute, mbind, M_bind, bind.
    change (length (requests (trace st1))) with 0%nat.
    destruct (execute 0%nat _) as [e | d]; [by simplify_eq |].
    destruct (search d) as [block |]; [| by simplify_eq].
    destruct (first_star_count (nodes_or_empty block)); [done |].
    by simplify_eq. }
  unfold crawl_once, crawl_body. fold st1.
  rewrite (bind_raise _ _ _ _ _ Hmax).
  unfold mbind, M_bind, bind, finish_run. simpl.
  by destruct (finish_fault 0%nat).
Qed.

(** The count the run's row reports is the persisted counter at the
    time of the [finish_run] that wrote it: in a run that returns it is
    the number of rows written; in a run that fails it can fall short of
    it, by the rows of the partition being ingested when the exception
    came, and never exceeds it.  A row no [finish_run] got through to
    reports 0. *)
Theorem reported_count_is_at_most_rows_written
    (fuel : nat) (st0 : State) :
  let result :=
    crawl_once settings today execute upsert_fault finish_fault fuel st0 in
  let row := run (snd result) in
  fst result <> OutOfFuel ->
  ((forall n, finish_fault n = None) ->
   run_repo_count row = repos_persisted (stats (snd result))) /\
  (run_status row <> running ->
   run_repo_count row = repos_persisted (stats (snd result))) /\
  (run_status row = running -> run_repo_count row = 0) /\
  run_repo_count row <= rows_written (trace (snd result)) /\
  (forall stats', fst result = Ok stats' ->
     run_repo_count row = rows_written (trace (snd result))).
Proof.
  cbv zeta. intros Hfuel.
  pose proof (crawl_once_spec settings today execute upsert_fault
                finish_fault fuel st0) as ((Hle & _) & _ & Hr).
  assert (0 <= rows_written
                 (trace (snd (crawl_once settings today execute
                                upsert_fault finish_fault fuel st0))))
    as Hnn by (unfold rows_written; lia).
  destruct (fst (crawl_once _ _ _ _ _ _ _)) as [stats1 | exc |]; [| | done].
  - destruct Hr as (-> & (Hp & _) & _ & ->). simpl.
    split; [done |]. split; [done |].
    split; [unfold final_status; by destruct (_ >=? _) |].
    split; [lia |]. intros _ _. done.
  - destruct Hr as (calls & Hcalls & Hr).
    destruct (finish_fault (pred calls)) as [e |] eqn:Hlast.
    + destruct Hr as [-> ->]. simpl.
      split; [intros Hnone; by rewrite Hnone in Hlast |].
      split; [done |]. split; [done |]. split; [done | intros ? [=]].
    + rewrite Hr. simpl.
      split; [done |]. split; [done |]. split; [intros [=] |].
      split; [lia | intros ? [=]].
Qed.



(** A page all of whose ids were seen before writes nothing: the node
    loop returns no new row, counts one duplicate per id, leaves the
    state as it was, and does not read the star counts, so it cannot
    fail on them. *)
Theorem seen_page_adds_no_row
    (l : list (option RepoNode)) (repo_rows : list Row) (duplicates : Z)
    (st : State) :
  (forall i, i ∈ node_ids l -> i ∈ seen_repo_nodes st) ->
  ingest_nodes l repo_rows duplicates st
  = (Ok (repo_rows, duplicates + Z.of_nat (length (node_ids l))), st).
Proof.
  revert duplicates.
  induction l as [| node l IH]; intros duplicates Hseen.
  - simpl. unfold ret. do 3 f_equal. lia.
  - unfold node_ids in *. cbn [ingest_nodes omap list_omap] in *.
    destruct (truthy_id node) as [node_id |].
    + unfold mbind, M_bind, bind. cbn [get].
      rewrite bool_decide_eq_true_2 by (apply Hseen; left).
      rewrite IH by (intros i Hi; apply Hseen; by right).
      simpl. do 3 f_equal. lia.
    + by apply IH.
Qed.

(** When the probe of a partition that is to be ingested is its last
    page, the iteration makes no other request: the probe's answer is
    the page that is ingested. *)
Theorem single_page_partition_costs_one_request
    (fuel : nat) (e : Entry) (rest : list Entry) (st : State)
    (d : Data) (block : SearchBlock) (count : Z) :
  execute (length (requests (trace st))) (probe_request settings e st)
  = inr d ->
  search d = Some block ->
  count_of block = Some count ->
  count <> 0 ->
  count <= max_partition_results settings
  \/ _split_partition (partition e) today = None ->
  last_page block ->
  requests (trace (snd (process_partition settings today execute
                          upsert_fault fuel e rest st)))
  = requests (trace st) ++ [probe_request settings e st].
Proof.
  intros Hex Hsearch Hcount Hnz Hfate Hlast.
  rewrite (process_partition_ingests settings today execute upsert_fault
             fuel e rest st d block count Hex Hsearch Hcount Hnz Hfate).
  set (st1 := probed settings e rest st).
  assert (requests (trace st1) = requests (trace st)
                                 ++ [probe_request settings e st]) as Hreq1.
  { unfold st1, probed. simpl. by rewrite requests_snoc. }
  rewrite <- Hreq1.
  change (post ('(persisted, duplicates) ←
                  _ingest_partition settings execute upsert_fault fuel
                    (PartitionQuery (partition e))
                    (target_repo_count settings - repos_persisted (stats st))
                    (Some block);
                modify (set_stats (add_ingested persisted duplicates)))
               st1 (fun _ st' => requests (trace st') = requests (trace st1))).
  assert (post (_ingest_partition settings execute upsert_fault fuel
                  (PartitionQuery (partition e))
                  (target_repo_count settings - repos_persisted (stats st))
                  (Some block))
               st1 (fun _ st' => requests (trace st') = requests (trace st1)))
    as Hingest.
  { unfold _ingest_partition. destruct fuel as [| fuel]; [done |].
    cbn [ingest_loop]. destruct (0 <? _); [| done].
    change (ret block ≫= ?k) with (k block). cbv beta.
    destruct (nodes_or_empty block) as [| node l] eqn:Hnodes; [done |].
    apply post_bind, post_modify. unfold after_bind.
    eapply post_bind_with; [apply ingest_nodes_spec |].
    intros r st3 [Hst3 _]. unfold after_bind.
    assert (requests (trace st3) = requests (trace st1)) as Hreq3.
    { rewrite Hst3. simpl. rewrite requests_snoc. simpl.
      by rewrite app_nil_r. }
    destruct r as [[repo_rows duplicates] | exc |]; [| done | done].
    eapply post_bind_with; [apply upsert_page_spec |].
    intros r st4 Hst4. unfold after_bind.
    destruct r as [[] | exc |]; [| by subst st4 | done].
    assert (requests (trace st4) = requests (trace st1)) as Hreq4.
    { subst st4. destruct repo_rows; [done |]. simpl.
      rewrite requests_snoc. simpl. by rewrite app_nil_r. }
    cbv zeta. destruct Hlast as [Hl | [Hl | Hl]].
    - congruence.
    - rewrite Hl. simpl. by apply post_ret.
    - destruct (negb _); [by apply post_ret |]. rewrite Hl.
      by apply post_ret. }
  eapply post_bind_with; [exact Hingest |].
  intros r st2 Hreq2. unfold after_bind.
  destruct r as [[persisted duplicates] | exc |]; [| done | done].
  by apply post_modify.
Qed.

Lemma queue_weight_perm (q q' : list Entry) :
  q ≡ₚ q' -> queue_weight today q = queue_weight today q'.
Proof. induction 1; simpl; lia. Qed.

Lemma queue_weight_app (q q' : list Entry) :
  queue_weight today (q ++ q')
  = queue_weight today q + queue_weight today q'.
Proof. induction q as [| e q IH]; simpl; lia. Qed.

Lemma queue_weight_nonneg (q : list Entry) : 0 <= queue_weight today q.
Proof.
  induction q as [| e q IH]; simpl; [done |].
  pose proof (weight_pos today (partition e)). lia.
Qed.

(** An iteration takes at least one unit of weight out of the queue. *)
Lemma queue_weight_step fuel e rest st :
  heappop (queue st) = Some (e, rest) ->
  post (process_partition settings today execute upsert_fault fuel e rest)
       st (fun _ st' =>
             queue_weight today (queue st') + 1
             <= queue_weight today (queue st) /\
             partitions_processed (stats st')
             = partitions_processed (stats st) + 1 /\
             max_star_count (stats st') = max_star_count (stats st)).
Proof.
  intros Hpop. apply heappop_smallest in Hpop as [Hperm _].
  rewrite (queue_weight_perm _ _ Hperm). simpl.
  pose proof (weight_pos today (partition e)) as Hpos.
  eapply post_mono; [apply process_partition_effect |].
  intros r st' (Hproc & [_ Hmax] & Hfate).
  split; [| done].
  destruct Hfate as [(_ & -> & _) |
                     [(_ & (c1 & c2 & Hsplit & ->) & _) | (-> & _)]];
    [lia | | lia].
  rewrite queue_weight_app. simpl.
  apply split_partition_weight in Hsplit. lia.
Qed.

Lemma budget_step fuel e rest st :
  partitions_processed (stats st) + queue_weight today (queue st)
  <= weight today (root settings (max_star_count (stats st))) ->
  heappop (queue st) = Some (e, rest) ->
  post (process_partition settings today execute upsert_fault fuel e rest)
       st (fun _ st' =>
             partitions_processed (stats st')
             + queue_weight today (queue st')
             <= weight today (root settings (max_star_count (stats st')))).
Proof.
  intros Hbudget Hpop.
  eapply post_mono; [by apply queue_weight_step |].
  intros r st' (Hw & Hproc & ->). lia.
Qed.

(** A run never processes more partitions than the splits of its root
    can make: with [w] the width of the score range from the configured
    minimum to the highest star count found, and [d] the days from
    2008-01-01 to today, at most [w + (w + 1) * (2 * d + 1)]. *)
Theorem processed_partitions_are_bounded (fuel : nat) (st0 : State) :
  let st := snd (crawl_once settings today execute upsert_fault finish_fault
        fuel st0) in
  let w := Z.max 0 (max_star_count (stats st) - min_stars settings) in
  let d := Z.max 0 (today - EARLIEST_GITHUB_DATE) in
  partitions_processed (stats st) <= w + (w + 1) * (2 * d + 1).
Proof.
  pose proof (crawl_once_keeps (fun st =>
    partitions_processed (stats st) + queue_weight today (queue st)
    <= weight today (root settings (max_star_count (stats st)))))
    as Hkeep.
  unfold post in Hkeep. cbv zeta.
  set (st := snd (crawl_once settings today execute upsert_fault finish_fault
        fuel st0))
    in *.
  change (partitions_processed (stats st)
          <= weight today (root settings (max_star_count (stats st)))).
  destruct (Hkeep budget_step (fun _ _ H => H) fuel st0) as [H | H].
  - intros max_stars. unfold loop_start. simpl. lia.
  - pose proof (queue_weight_nonneg (queue st)). fold st in H. lia.
  - fold st in H. rewrite H. simpl.
    pose proof (weight_pos today (root settings 0)). lia.
Qed.

(** What [_search_page] returns is the [search] block of an answer to
    the request it made. *)
Lemma search_page_answer q ps c st :
  post (_search_page execute q ps c) st (fun r _ =>
    match r with
    | Ok block =>
        exists n d, execute n (mkRequest q ps c) = inr d
                    /\ search d = Some block
    | Raise _ => True
    | OutOfFuel => False
    end).
Proof.
  unfold post, _search_page, mbind, M_bind, bind, github_execute.
  destruct (execute _ _) as [e | d] eqn:Hex; simpl; [done |].
  destruct (search d) as [block |] eqn:Hs; simpl; [| done]. eauto.
Qed.

Lemma overlap_sym (p q : SearchPartition) :
  overlap today p q -> overlap today q p.
Proof. intros (s & d & ? & ?). by exists s, d. Qed.

Lemma apart_perm (q q' : list Entry) :
  q ≡ₚ q' -> apart today q -> apart today q'.
Proof.
  induction 1 as [| x l l' Hperm IH | x y l | l l' l'' _ IH1 _ IH2]; simpl.
  - done.
  - intros [Hx Hl]. split; [by rewrite <- Hperm | by apply IH].
  - intros [Hy [Hx Hl]]. apply Forall_cons in Hy as [Hyx Hy].
    split; [| done]. apply Forall_cons. split; [| done].
    intros Hxy. by apply Hyx, overlap_sym.
  - intros Hl. by apply IH2, IH1.
Qed.

Lemma apart_snoc (q : list Entry) (x : Entry) :
  apart today q ->
  Forall (fun e => ~ overlap today (partition e) (partition x)) q ->
  apart today (q ++ [x]).
Proof.
  induction q as [| e q IH]; simpl; [done |].
  intros [He Hq] Hx. apply Forall_cons in Hx as [Hex Hx].
  split; [| by apply IH].
  apply Forall_app. split; [done |]. by apply Forall_singleton.
Qed.

Lemma queue_apart_step fuel e rest st :
  queue_apart settings today st -> heappop (queue st) = Some (e, rest) ->
  post (process_partition settings today execute upsert_fault fuel e rest)
       st (fun _ st' => queue_apart settings today st').
Proof.
  intros [Hapart Hwithin] Hpop.
  apply heappop_smallest in Hpop as [Hperm _].
  apply (apart_perm _ _ Hperm) in Hapart as [He Hrest].
  unfold within in Hwithin. rewrite Hperm in Hwithin.
  apply Forall_cons in Hwithin as [Hein Hwithin].
  eapply post_mono; [apply process_partition_effect |].
  intros r st' (_ & [_ Hmax] & Hfate). unfold queue_apart, within.
  rewrite Hmax.
  destruct Hfate as [(_ & -> & _) |
                     [(_ & (c1 & c2 & Hsplit & ->) & _) | (-> & _)]];
    [done | | done].
  pose proof (split_partition_divides _ _ _ _ Hsplit) as Hdiv.
  assert (forall c k,
            (forall s d, cell today c s d -> cell today (partition e) s d) ->
            Forall (fun e' => ~ overlap today (partition e')
                                  (partition (item_of c k))) rest) as Hkid.
  { intros c k Hc. eapply Forall_impl; [exact He |].
    intros e' Hno (s & d & H1 & H2). apply Hno. exists s, d.
    split; [by apply Hc | done]. }
  assert (forall s d, cell today c1 s d -> cell today (partition e) s d)
    as Hc1 by (intros s d H; apply Hdiv; by left).
  assert (forall s d, cell today c2 s d -> cell today (partition e) s d)
    as Hc2 by (intros s d H; apply Hdiv; by right).
  split.
  - change (rest ++ [item_of c1 (_queue_counter st);
                     item_of c2 (_queue_counter st + 1)])
      with (rest ++ [item_of c1 (_queue_counter st)]
                 ++ [item_of c2 (_queue_counter st + 1)]).
    rewrite app_assoc. apply apart_snoc; [apply apart_snoc |].
    + done.
    + by apply Hkid.
    + apply Forall_app. split; [by apply Hkid |].
      apply Forall_singleton. intros (s & d & H1 & H2).
      by apply (proj2 (Hdiv s d)).
  - apply Forall_app. split; [done |].
    apply Forall_cons. split; [intros s d H; by apply Hein, Hc1 |].
    apply Forall_singleton. intros s d H. by apply Hein, Hc2.
Qed.

(** The queue never holds a part of the search space twice, nor a part
    outside the root: at the end of any run, and at any point where it
    is cut, no two queued partitions share a (score, day), and each lies
    within the partition from the configured minimum to the highest
    star count found. *)
Theorem queued_partitions_never_overlap (fuel : nat) (st0 : State) :
  queue_apart settings today
    (snd (crawl_once settings today execute upsert_fault finish_fault
          fuel st0)).
Proof.
  pose proof (crawl_once_keeps (queue_apart settings today)) as Hkeep.
  unfold post in Hkeep.
  destruct (Hkeep queue_apart_step (fun _ _ H => H) fuel st0) as [H | H];
    [| exact H |].
  - intros max_stars. unfold loop_start, queue_apart, within. simpl.
    split; [done |]. by apply Forall_singleton.
  - rewrite H. by split; [| apply Forall_nil].
Qed.

Lemma pages_follow_snoc (rs : list Request) (r : Request) :
  pages_follow execute rs ->
  (forall c, after r = Some c ->
     exists r0, rs !! pred (length rs) = Some r0 /\ query r0 = query r /\
                offers_next execute (pred (length rs)) r0 c) ->
  pages_follow execute (rs ++ [r]).
Proof.
  intros Hrs Hlink i r' c Hi Hc.
  destruct (decide (S i < length rs)%nat) as [Hlt | Hge].
  - rewrite lookup_app_l in Hi by done.
    destruct (Hrs i r' c Hi Hc) as (r0 & H0 & Hq & Hoffer).
    exists r0. rewrite lookup_app_l by lia. done.
  - rewrite lookup_app_r in Hi by lia.
    destruct (S i - length rs)%nat as [| k] eqn:Hk; [| done].
    simpl in Hi. simplify_eq.
    destruct (Hlink c Hc) as (r0 & H0 & Hq & Hoffer).
    assert (i = pred (length rs)) as -> by lia.
    exists r0. rewrite lookup_app_l; [done |].
    apply lookup_lt_Some in H0. lia.
Qed.

(** [_search_page] makes one request, and what it returns is the
    [search] block of the answer to it. *)
Lemma search_page_request q ps c st :
  post (_search_page execute q ps c) st (fun r st' =>
    st' = log (Requested (mkRequest q ps c)) st /\
    match r with
    | Ok block =>
        exists d, execute (length (requests (trace st))) (mkRequest q ps c)
                  = inr d /\ search d = Some block
    | Raise _ => True
    | OutOfFuel => False
    end).
Proof.
  unfold post, _search_page, mbind, M_bind, bind, github_execute.
  destruct (execute _ _) as [e | d] eqn:Hex; simpl; [done |].
  destruct (search d) as [block |] eqn:Hs; simpl; [| done]. eauto.
Qed.

Lemma ingest_loop_follows (fuel : nat) :
  forall q row_limit cursor persisted duplicates search_block st,
    pages_follow execute (requests (trace st)) ->
    (let rs := requests (trace st) in
     match search_block with
     | Some block =>
         exists r0 d, rs !! pred (length rs) = Some r0 /\ query r0 = q /\
                      execute (pred (length rs)) r0 = inr d /\
                      search d = Some block
     | None =>
         forall c, cursor = Some c ->
           exists r0, rs !! pred (length rs) = Some r0 /\ query r0 = q /\
                      offers_next execute (pred (length rs)) r0 c
     end) ->
    post (ingest_loop settings execute upsert_fault fuel q row_limit cursor
            persisted duplicates search_block) st
         (fun _ st' => pages_follow execute (requests (trace st'))).
Proof.
  induction fuel as [| fuel IH];
    intros q row_limit cursor persisted duplicates search_block st
           Hrs Hlink; [done |].
  cbn [ingest_loop]. destruct (persisted <? row_limit); [| done].
  assert (forall block st1 r0 d,
    pages_follow execute (requests (trace st1)) ->
    requests (trace st1) !! pred (length (requests (trace st1))) = Some r0 ->
    query r0 = q ->
    execute (pred (length (requests (trace st1)))) r0 = inr d ->
    search d = Some block ->
    post (match nodes_or_empty block with
          | [] => ret (persisted, duplicates)
          | l =>
              modify (log (Ingesting l));;
              '(repo_rows, duplicates) ← ingest_nodes l [] duplicates;
              upsert_page upsert_fault repo_rows;;
              let persisted := persisted + Z.of_nat (length repo_rows) in
              if negb (hasNextPage (pageInfo block)) then
                ret (persisted, duplicates)
              else
                match endCursor (pageInfo block) with
                | None => ret (persisted, duplicates)
                | Some c =>
                    ingest_loop settings execute upsert_fault fuel q
                      row_limit (Some c) persisted duplicates None
                end
          end) st1
         (fun _ st' => pages_follow execute (requests (trace st'))))
    as Hpage.
  { intros block st1 r0 d Hrs1 Hlast Hq Hex Hsearch.
    destruct (nodes_or_empty block) as [| node l] eqn:Hnodes; [done |].
    apply post_bind, post_modify. unfold after_bind.
    eapply post_bind_with; [apply ingest_nodes_spec |].
    intros r st2 [Hst2 _]. unfold after_bind.
    assert (requests (trace st2) = requests (trace st1)) as Hreq2.
    { rewrite Hst2. simpl. rewrite requests_snoc. simpl.
      by rewrite app_nil_r. }
    destruct r as [[repo_rows duplicates'] | exc |];
      [| by rewrite Hreq2 | by rewrite Hreq2].
    eapply post_bind_with; [apply upsert_page_spec |].
    intros r st3 Hst3. unfold after_bind.
    destruct r as [[] | exc |]; [| by subst st3; rewrite Hreq2 | done].
    assert (requests (trace st3) = requests (trace st1)) as Hreq3.
    { subst st3. destruct repo_rows; [done |]. simpl.
      rewrite requests_snoc. simpl. by rewrite app_nil_r. }
    cbv zeta. destruct (hasNextPage (pageInfo block)) eqn:Hmore;
      [| by apply post_ret; rewrite Hreq3].
    destruct (endCursor (pageInfo block)) as [c |] eqn:Hc;
      [| by apply post_ret; rewrite Hreq3].
    simpl. apply IH; [by rewrite Hreq3 |].
    cbv zeta. rewrite Hreq3. intros c' [= <-].
    exists r0. split; [done |]. split; [done |].
    exists d, block. rewrite Hnodes. done. }
  cbv zeta in Hlink. destruct search_block as [block |].
  - change (ret block ≫= ?k) with (k block). cbv beta.
    destruct Hlink as (r0 & d & Hlast & Hq & Hex & Hsearch).
    by apply (Hpage block st r0 d).
  - eapply post_bind_with; [apply search_page_request |].
    intros r st1 [Hst1 Hr]. unfold after_bind.
    set (request := mkRequest q _ cursor) in *.
    assert (requests (trace st1) = requests (trace st) ++ [request])
      as Hreq1.
    { rewrite Hst1. simpl. by rewrite requests_snoc. }
    assert (pages_follow execute (requests (trace st1))) as Hrs1.
    { rewrite Hreq1. by apply pages_follow_snoc. }
    destruct r as [block | exc |]; [| done | done].
    destruct Hr as (d & Hex & Hsearch).
    assert (pred (length (requests (trace st1)))
            = length (requests (trace st))) as Hlen.
    { rewrite Hreq1, length_app. simpl. lia. }
    apply (Hpage block st1 request d); [done | | done | |done].
    + rewrite Hlen, Hreq1. by rewrite lookup_app_r, Nat.sub_diag by lia.
    + by rewrite Hlen.
Qed.

Lemma process_partition_follows fuel e rest st :
  pages_follow execute (requests (trace st)) ->
  heappop (queue st) = Some (e, rest) ->
  post (process_partition settings today execute upsert_fault fuel e rest)
       st (fun _ st' => pages_follow execute (requests (trace st'))).
Proof.
  intros Hrs _. unfold process_partition.
  apply post_bind, post_modify. unfold after_bind.
  apply post_bind, post_modify. unfold after_bind.
  apply post_bind, post_get. unfold after_bind.
  eapply post_bind_with; [apply search_page_request |].
  intros r st1 [Hst1 Hr]. unfold after_bind.
  set (request := mkRequest (PartitionQuery (partition e)) _ None) in *.
  assert (requests (trace st1) = requests (trace st) ++ [request])
    as Hreq1.
  { rewrite Hst1. simpl. by rewrite requests_snoc. }
  assert (pages_follow execute (requests (trace st1))) as Hrs1.
  { rewrite Hreq1. by apply pages_follow_snoc. }
  destruct r as [block | exc |]; [| done | done].
  destruct Hr as (d & Hex & Hsearch). simpl in Hex.
  assert (forall row_limit, post
    ('(persisted, duplicates) ←
       _ingest_partition settings execute upsert_fault fuel
         (PartitionQuery (partition e)) row_limit (Some block);
     modify (set_stats (add_ingested persisted duplicates)))
    st1 (fun _ st' => pages_follow execute (requests (trace st'))))
    as Hingest.
  { intros row_limit. eapply post_bind_with.
    - apply ingest_loop_follows; [done |]. cbv zeta.
      exists request, d. rewrite Hreq1, length_app. simpl.
      replace (pred (length (requests (trace st)) + 1))
        with (length (requests (trace st))) by lia.
      by rewrite lookup_app_r, Nat.sub_diag by lia.
    - intros r st2 Hrs2. unfold after_bind.
      destruct r as [[persisted duplicates] | exc |]; done. }
  unfold _partition_count.
  destruct (repositoryCount block) as [count |];
    [| destruct (totalCount block) as [count |]].
  3: { by apply post_bind, post_raise. }
  all: change (ret count ≫= ?k) with (k count); cbv beta zeta.
  all: destruct (count =? 0); [done |].
  all: destruct (count >? max_partition_results settings);
    [| apply Hingest].
  all: destruct (_split_partition (partition e) today)
    as [[child1 child2] |]; [done | apply Hingest].
Qed.

(** No page is skipped and none is asked for out of turn: in the
    requests of a run, one that carries a cursor comes right after a
    request for the same query whose answer had nodes, announced a next
    page and gave that cursor. *)
Theorem later_pages_follow_their_page (fuel : nat) (st0 : State) :
  pages_follow execute
    (requests (trace (snd (crawl_once settings today execute upsert_fault finish_fault
                             fuel st0)))).
Proof.
  pose proof (crawl_once_keeps
                (fun st => pages_follow execute (requests (trace st))))
    as Hkeep.
  unfold post in Hkeep.
  destruct (Hkeep process_partition_follows (fun _ _ H => H) fuel st0)
    as [H | H]; [| exact H |].
  - intros max_stars i r c Hi. by destruct i.
  - rewrite H. intros i r c Hi. by destruct i.
Qed.

Section Termination.

Variable rank : option string -> nat.
Hypothesis Hrank : pagination_ends execute rank.

Lemma ingest_loop_returns (fuel : nat) :
  forall q row_limit cursor persisted duplicates search_block st,
    match search_block with
    | None => (rank cursor < fuel)%nat
    | Some block =>
        (0 < fuel)%nat /\
        forall c, hasNextPage (pageInfo block) = true ->
                  endCursor (pageInfo block) = Some c ->
                  (S (rank (Some c)) < fuel)%nat
    end ->
    post (ingest_loop settings execute upsert_fault fuel q row_limit cursor
            persisted duplicates search_block) st
         (fun r _ => r <> OutOfFuel).
Proof.
  induction fuel as [| fuel IH];
    intros q row_limit cursor persisted duplicates search_block st Hfuel.
  { destruct search_block; lia. }
  cbn [ingest_loop]. destruct (persisted <? row_limit); [| done].
  assert (forall block st1,
    (forall c, hasNextPage (pageInfo block) = true ->
               endCursor (pageInfo block) = Some c ->
               (rank (Some c) < fuel)%nat) ->
    post (match nodes_or_empty block with
          | [] => ret (persisted, duplicates)
          | l =>
              modify (log (Ingesting l));;
              '(repo_rows, duplicates) ← ingest_nodes l [] duplicates;
              upsert_page upsert_fault repo_rows;;
              let persisted := persisted + Z.of_nat (length repo_rows) in
              if negb (hasNextPage (pageInfo block)) then
                ret (persisted, duplicates)
              else
                match endCursor (pageInfo block) with
                | None => ret (persisted, duplicates)
                | Some c =>
                    ingest_loop settings execute upsert_fault fuel q
                      row_limit (Some c) persisted duplicates None
                end
          end) st1 (fun r _ => r <> OutOfFuel)) as Hpage.
  { intros block st1 Hnext.
    destruct (nodes_or_empty block) as [| node l]; [done |].
    apply post_bind, post_modify. unfold after_bind.
    eapply post_bind_with; [apply ingest_nodes_spec |].
    intros r st2 [_ Hr]. unfold after_bind.
    destruct r as [[repo_rows duplicates'] | exc |]; [| done | done].
    eapply post_bind_with; [apply upsert_page_spec |].
    intros r st3 Hst3. unfold after_bind.
    destruct r as [[] | exc |]; [| done | done].
    cbv zeta. destruct (hasNextPage (pageInfo block)) eqn:Hmore; [| done].
    destruct (endCursor (pageInfo block)) as [c |] eqn:Hc; [| done].
    simpl. apply IH. by apply Hnext. }
  destruct search_block as [block |].
  - change (ret block ≫= ?k) with (k block). cbv beta.
    apply Hpage. intros c Hmore Hc.
    destruct Hfuel as [_ Hfuel]. specialize (Hfuel c Hmore Hc). lia.
  - eapply post_bind_with; [apply search_page_answer |].
    intros r st1 Hr. unfold after_bind.
    destruct r as [block | exc |]; [| done | done].
    destruct Hr as (n & d & Hex & Hsearch).
    apply Hpage. intros c Hmore Hc.
    pose proof (Hrank n _ d block c Hex Hsearch Hmore Hc) as Hlt.
    simpl in Hlt. lia.
Qed.

Lemma process_partition_returns
    (fuel : nat) (e : Entry) (rest : list Entry) (st : State) :
  (rank None < fuel)%nat ->
  post (process_partition settings today execute upsert_fault fuel e rest)
       st (fun r _ => r <> OutOfFuel).
Proof.
  intros Hfuel. unfold process_partition.
  apply post_bind, post_modify. unfold after_bind.
  apply post_bind, post_modify. unfold after_bind.
  apply post_bind, post_get. unfold after_bind.
  eapply post_bind_with; [apply search_page_answer |].
  intros r st1 Hr. unfold after_bind.
  destruct r as [block | exc |]; [| done | done].
  destruct Hr as (n & d & Hex & Hsearch).
  assert (forall row_limit, post
    ('(persisted, duplicates) ←
       _ingest_partition settings execute upsert_fault fuel
         (PartitionQuery (partition e)) row_limit (Some block);
     modify (set_stats (add_ingested persisted duplicates)))
    st1 (fun r _ => r <> OutOfFuel)) as Hingest.
  { intros row_limit. eapply post_bind_with.
    - apply ingest_loop_returns. split; [lia |]. intros c Hmore Hc.
      pose proof (Hrank n _ d block c Hex Hsearch Hmore Hc) as Hlt.
      simpl in Hlt. lia.
    - intros r st2 Hr. unfold after_bind.
      destruct r as [[persisted duplicates] | exc |]; done. }
  unfold _partition_count.
  destruct (repositoryCount block) as [count |];
    [| destruct (totalCount block) as [count |]].
  3: { by apply post_bind, post_raise. }
  all: change (ret count ≫= ?k) with (k count); cbv beta zeta.
  all: destruct (count =? 0); [done |].
  all: destruct (count >? max_partition_results settings);
    [| apply Hingest].
  all: destruct (_split_partition (partition e) today)
    as [[child1 child2] |]; [done | apply Hingest].
Qed.

Lemma crawl_loop_returns (fuel : nat) :
  forall st,
    (Z.to_nat (queue_weight today (queue st)) + rank None + 1 < fuel)%nat ->
    post (crawl_loop settings today execute upsert_fault fuel) st
         (fun r _ => r <> OutOfFuel).
Proof.
  induction fuel as [| fuel IH]; intros st Hfuel; [lia |].
  cbn [crawl_loop]. apply post_bind, post_get. unfold after_bind.
  destruct (negb _ && _); [| done].
  destruct (heappop (queue st)) as [[e rest] |] eqn:Hpop; [| done].
  pose proof (queue_weight_nonneg (queue st)) as Hnn.
  pose proof (weight_pos today (partition e)) as Hpos.
  assert (1 <= queue_weight today (queue st)) as Hone.
  { apply heappop_smallest in Hpop as [Hperm _].
    rewrite (queue_weight_perm _ _ Hperm). simpl.
    pose proof (queue_weight_nonneg rest). lia. }
  eapply post_bind_with with
    (R := fun r st1 =>
            queue_weight today (queue st1) + 1
            <= queue_weight today (queue st) /\ r <> OutOfFuel).
  { pose proof (queue_weight_step fuel e rest st Hpop) as Hstep.
    pose proof (process_partition_returns fuel e rest st) as Hret.
    unfold post in *. split; [apply Hstep | apply Hret; lia]. }
  intros r st1 [Hw Hr]. unfold after_bind.
  pose proof (queue_weight_nonneg (queue st1)) as Hnn1.
  destruct r as [[] | exc |]; [apply IH; lia | done | done].
Qed.

(** If the cursors of the remote run out, [crawl_once] comes to an end
    on it: with fuel enough it returns or raises, and more fuel changes
    nothing. *)
Theorem crawl_once_terminates (st0 : State) :
  exists fuel,
    fst (crawl_once settings today execute upsert_fault finish_fault fuel st0)
    <> OutOfFuel /\
    forall fuel', (fuel <= fuel')%nat ->
      crawl_once settings today execute upsert_fault finish_fault fuel' st0
      = crawl_once settings today execute upsert_fault finish_fault fuel st0.
Proof.
  assert (exists fuel,
    fst (crawl_once settings today execute upsert_fault finish_fault fuel st0)
    <> OutOfFuel) as [fuel Hfuel].
  2: { exists fuel. split; [done |]. intros fuel' Hle.
       by apply crawl_once_extends. }
  set (st1 := start_run settings st0).
  destruct (_max_stars execute st1) as [r st2] eqn:Hmax.
  pose proof (post_eq _ _ _ _ _ Hmax (max_stars_spec execute st1))
    as [-> Hr].
  destruct r as [max_stars | exc |]; [| | done].
  2: { exists 0%nat. apply crawl_once_not_cut.
       unfold crawl_body. fold st1.
       by rewrite (bind_raise _ _ _ _ _ Hmax). }
  exists (S (Z.to_nat (weight today (root settings max_stars))
             + rank None + 1)).
  set (fuel := S _).
  apply crawl_once_not_cut. unfold crawl_body. fold st1.
  rewrite (bind_ok _ _ _ _ _ Hmax).
  rewrite (bind_ok _ _ _ tt
             (set_stats (set_max_star_count max_stars)
                (log (Requested max_stars_request) st1))) by reflexivity.
  rewrite (bind_ok _ _ _ tt
             (set_queue []
                (set_stats (set_max_star_count max_stars)
                   (log (Requested max_stars_request) st1))))
    by reflexivity.
  rewrite (bind_ok _ _ _ tt (loop_start settings st0 max_stars))
    by reflexivity.
  pose proof (crawl_loop_returns fuel (loop_start settings st0 max_stars))
    as Hloop.
  unfold post in Hloop.
  destruct (crawl_loop settings today execute upsert_fault fuel
              (loop_start settings st0 max_stars)) as [r st3] eqn:Hrun.
  simpl in Hloop.
  destruct r as [[] | exc |].
  - rewrite (bind_ok _ _ _ _ _ Hrun).
    unfold mbind, M_bind, bind, get, finish_run. simpl.
    by destruct (finish_fault _).
  - rewrite (bind_raise _ _ _ _ _ Hrun). done.
  - exfalso. apply Hloop; [| done]. unfold loop_start. simpl.
    unfold fuel. lia.
Qed.

End Termination.

End MoreOrchestration.

(** ** More concrete runs *)

Section MoreRuns.

Import Crawler CrawlSpec RunSpec MoreSpec Examples MoreExamples.

Lemma empty_partition_is_skipped_witness :
  let e := item_of (mkPartition 0 7 None None) 0 in
  let run_it := process_partition default_settings a_day empty_remote
                                  no_fault 5 e [] new_crawler in
  fst run_it = Ok tt /\ queue (snd run_it) = [] /\
  partitions_skipped (stats (snd run_it)) = 1.
Proof.
  pose proof (empty_partition_is_skipped default_settings a_day
                empty_remote no_fault 5
                (item_of (mkPartition 0 7 None None) 0) [] new_crawler
                (mkData None
                   (Some (mkBlock (Some 0) None (mkPageInfo false None)
                                  (Some []))))
                (mkBlock (Some 0) None (mkPageInfo false None) (Some []))
                eq_refl eq_refl eq_refl) as H.
  cbv zeta in *. destruct H as (H1 & H2 & _ & _ & _ & _ & H3).
  split; [exact H1 |]. split; [exact H2 |]. rewrite H3. reflexivity.
Defined.

Lemma oversized_partition_is_split_witness :
  let e := item_of (mkPartition 7 7 None None) 0 in
  let run_it := process_partition crowded_settings a_day crowded_remote
                                  no_fault 5 e [] new_crawler in
  fst run_it = Ok tt /\
  queue (snd run_it)
  = [item_of (mkPartition 7 7 (Some 733042) (Some 735964)) 0;
     item_of (mkPartition 7 7 (Some 735965) (Some 738886)) 1].
Proof.
  pose proof (oversized_partition_is_split crowded_settings a_day
                crowded_remote no_fault 5
                (item_of (mkPartition 7 7 None None) 0) [] new_crawler
                (mkData None
                   (Some (mkBlock (Some 5000) None (mkPageInfo false None)
                                  (Some [repo "a" 7]))))
                (mkBlock (Some 5000) None (mkPageInfo false None)
                         (Some [repo "a" 7]))
                5000
                (mkPartition 7 7 (Some 733042) (Some 735964))
                (mkPartition 7 7 (Some 735965) (Some 738886))
                eq_refl eq_refl eq_refl ltac:(lia) ltac:(simpl; lia)
                eq_refl) as H.
  cbv zeta in *. destruct H as (H1 & H2 & _).
  split; [exact H1 | exact H2].
Defined.

Lemma partial_run_emptied_queue_witness :
  let result := crawl_once default_settings a_day empty_remote no_fault no_fault
                           20 new_crawler in
  fst result = Ok (mkStats 1 0 1 0 0 7) /\
  run_status (run (snd result)) = partial /\
  queue (snd result) = [].
Proof.
  intros result.
  assert (fst result = Ok (mkStats 1 0 1 0 0 7)) as Hok
    by (vm_compute; reflexivity).
  assert (run_status (run (snd result)) = partial) as Hpartial
    by (vm_compute; reflexivity).
  split; [exact Hok |]. split; [exact Hpartial |].
  pose proof (partial_run_emptied_queue default_settings a_day
                empty_remote no_fault no_fault 20 new_crawler
                (mkStats 1 0 1 0 0 7) Hok) as [Hq _].
  exact (proj1 (Hq Hpartial)).
Defined.

Lemma run_fails_without_max_stars_witness :
  let result := crawl_once default_settings a_day starless_remote no_fault
                           no_fault 20 new_crawler in
  trace (snd result) = [Requested (mkRequest MaxStarsQuery 1 None)] /\
  fst result
  = Raise (RuntimeError
             "Could not determine maximum stargazer count from GitHub.") /\
  run_status (run (snd result)) = failed.
Proof.
  pose proof (run_fails_without_max_stars default_settings a_day
                starless_remote no_fault no_fault 20 new_crawler
                (RuntimeError
                   "Could not determine maximum stargazer count from GitHub.")
                eq_refl) as H.
  cbv zeta in *. destruct H as (H1 & _ & _ & _ & H2 & H3).
  split; [exact H1 |]. split; [exact H2 |]. rewrite H3. reflexivity.
Defined.

Lemma reported_count_is_at_most_rows_written_witness :
  let result := crawl_once paging_settings a_day breaking_remote no_fault
                           no_fault 20 new_crawler in
  fst result
  = Raise (RuntimeError "GraphQL request failed after retries: None") /\
  rows_written (trace (snd result)) = 2 /\
  run_repo_count (run (snd result)) = 0 /\
  run_repo_count (run (snd result)) <= rows_written (trace (snd result)).
Proof.
  intros result.
  split; [vm_compute; reflexivity |]. split; [vm_compute; reflexivity |].
  split; [vm_compute; reflexivity |].
  pose proof (reported_count_is_at_most_rows_written paging_settings a_day
                breaking_remote no_fault no_fault 20 new_crawler) as H.
  cbv zeta in H.
  destruct H as (_ & _ & _ & Hle & _); [vm_compute; discriminate | exact Hle].
Defined.

Lemma seen_page_adds_no_row_witness :
  ingest_nodes [repo "a" 7; None; repo "a" 8] [] 0
               (set_seen {["a"]} new_crawler)
  = (Ok ([], 0 + Z.of_nat 2), set_seen {["a"]} new_crawler).
Proof.
  apply (seen_page_adds_no_row [repo "a" 7; None; repo "a" 8] [] 0
           (set_seen {["a"]} new_crawler)).
  intros i Hi. simpl. apply elem_of_singleton.
  change (i ∈ ["a"; "a"]) in Hi.
  apply elem_of_cons in Hi as [-> | Hi]; [done |].
  by apply list_elem_of_singleton in Hi.
Defined.

Lemma single_page_partition_costs_one_request_witness :
  let p := mkPartition 6 10 None None in
  requests (trace (snd (process_partition overlap_settings a_day
                          overlap_remote no_fault 5 (item_of p 1) []
                          new_crawler)))
  = [] ++ [mkRequest (PartitionQuery p) 10 None].
Proof.
  apply (single_page_partition_costs_one_request overlap_settings a_day
           overlap_remote no_fault 5
           (item_of (mkPartition 6 10 None None) 1) [] new_crawler
           (mkData None
              (Some (mkBlock (Some 2) None (mkPageInfo false None)
                             (Some [repo "a" 10; repo "b" 6]))))
           (mkBlock (Some 2) None (mkPageInfo false None)
                    (Some [repo "a" 10; repo "b" 6]))
           2).
  - reflexivity.
  - reflexivity.
  - reflexivity.
  - lia.
  - left. simpl. lia.
  - right. left. reflexivity.
Defined.

Lemma two_page_remote_ends : pagination_ends two_page_remote two_page_rank.
Proof.
  intros n r d block c Hex Hsearch Hmore Hc.
  unfold two_page_remote, page in Hex.
  destruct (after r) as [cursor |]; simplify_eq; simpl in *; simplify_eq.
  lia.
Qed.

Lemma crawl_once_terminates_witness :
  pagination_ends two_page_remote two_page_rank /\
  exists fuel,
    fst (crawl_once paging_settings a_day two_page_remote no_fault no_fault fuel
                    new_crawler) <> OutOfFuel.
Proof.
  split; [exact two_page_remote_ends |].
  destruct (crawl_once_terminates paging_settings a_day two_page_remote
              no_fault no_fault two_page_rank two_page_remote_ends new_crawler)
    as (fuel & Hfuel & _).
  exists fuel. exact Hfuel.
Defined.

End MoreRuns.

